(** * Freeman file manager: the directory navigation engine

    A shallow embedding of [Navigator] (objects/Navigator.ts),
    [DirectoryManager] (managers/DirectoryManager.ts) and the parts of the
    [DirectoryList] component that drive them, with the properties of the
    navigation and caching engine stated over that embedding.

    Conventions of the embedding.
    - A JavaScript object that is mutated after creation (a directory item,
      whose [childItems] field is assigned by the prefetch) lives in a heap
      and is named by a reference; arrays of items are lists of references,
      so that two fields holding the same array hold the same list.
    - A promise-typed field only ever receives [Promise.resolve v]; it is
      modelled by the value that awaiting it yields.
    - Calls on the directory manager are recorded, in the order they are
      issued, in a trace of events.
    - A promise that the caller awaits is run to completion inside the
      operation; a promise that is started and not awaited becomes a pending
      task, completed by a separate step, in any order.
    - The promises gathered by [Promise.all] have all been started when it
      is awaited.  Each is suspended at the [await] of a file-system call;
      a call takes effect when it completes, and the order in which the
      calls complete is a parameter.  When [Promise.all] rejects, the
      promises still pending stay in flight and complete by separate
      steps. *)

From stdpp Require Import base option list strings gmap.
From Stdlib Require Import ZArith Ascii String.
From Stdlib Require Import Permutation.

Local Open Scope string_scope.
Local Open Scope list_scope.

(** ** Errors and results *)

(** The exceptions the code can raise: [LoggedError] (message, without or
    with an inner error), [DirectoryError] (message, source path and optional
    destination path), the runtime's [TypeError], and an error of the
    underlying file system. *)
Inductive Error :=
| LoggedError (message : string)
| LoggedErrorFrom (message : string) (inner : Error)
| DirectoryError (message : string) (sourcePath : string) (destinationPath : option string)
| TypeError (message : string)
| SystemError (message : string).

(** Outcome of an awaited call: it returns, or it throws. *)
Inductive Res (A : Type) :=
| Ok (a : A)
| Throw (e : Error).
Arguments Ok {A} a.
Arguments Throw {A} e.

Definition is_ok {A} (r : Res A) : bool :=
  match r with Ok _ => true | Throw _ => false end.

(** ** Data model *)

(** models/IDirectoryItem *)
Record IDirectoryItem := mkItem {
  name : string;
  path : string;
  isDirectory : bool;
  isHidden : bool
}.

Definition ref := nat.

(** models/INavigatorDirectoryItem: a directory item with the optional
    [childItems] promise.  [None] is [undefined]; [Some l] is
    [Promise.resolve l]. *)
Record INavigatorDirectoryItem := mkNavItem {
  item : IDirectoryItem;
  childItems : option (list ref)
}.

Definition Heap := list INavigatorDirectoryItem.

(** The value that [await this.parentDirectoryPath] yields. *)
Inductive ParentPath :=
| PUndefined
| PNull
| PPath (p : string).

(** The calls the navigator issues, and what it logs. *)
Inductive Event :=
| EvListDirectory (p : string)
| EvExists (p : string)
| EvWarn (message : string).

(** The directory manager as the navigator sees it (managers/IDirectoryManager):
    the outcome of listing a directory with the navigator's retrieve options,
    and of the existence check. *)
Record IDirectoryManager := mkDM {
  listDirectory : string -> Res (list IDirectoryItem);
  exists_ : string -> bool
}.

(** The private fields of [Navigator].  [currentPath] is declared [string]
    but receives [undefined] ([None]) when [toParent] runs before the parent
    path has been resolved. *)
Record Navigator := mkNav {
  currentPath : option string;
  currentDirectoryItems : option (list ref);
  parentDirectoryPath : ParentPath;
  parentDirectoryItems : option (list ref)
}.

(** Promises that were started and are not awaited by the caller. *)
Inductive Task :=
| TInitialItems (p : string)
| TParentPath (possibleParentPath : string)
| TParentItems (parentPath : string)
| TGrandChildren (r : ref) (p : string).

Record State := mkState {
  nav : Navigator;
  heap : Heap;
  tasks : list Task;
  trace : list Event
}.

Definition set_nav (n : Navigator) (s : State) : State :=
  mkState n (heap s) (tasks s) (trace s).

Definition emit (e : Event) (s : State) : State :=
  mkState (nav s) (heap s) (tasks s) (trace s ++ [e]).

Definition spawn (t : Task) (s : State) : State :=
  mkState (nav s) (heap s) (tasks s ++ [t]) (trace s).

(** The objects a listing returns are fresh: they are appended to the heap
    with no [childItems]. *)
Definition alloc (l : list IDirectoryItem) (s : State) : State * list ref :=
  (mkState (nav s) (heap s ++ map (fun i => mkNavItem i None) l) (tasks s) (trace s),
   seq (List.length (heap s)) (List.length l)).

(** [items.find(item => item.path === folderPath)] *)
Fixpoint find_path (h : Heap) (items : list ref) (folderPath : string) : option ref :=
  match items with
  | [] => None
  | r :: rest =>
      match h !! r with
      | Some o => if String.eqb (path (item o)) folderPath then Some r
                  else find_path h rest folderPath
      | None => find_path h rest folderPath
      end
  end.

(** A template literal prints an undefined path as the word itself. *)
Definition show_path (p : option string) : string :=
  match p with Some s => s | None => "undefined" end.

(** A string is truthy when it is not empty. *)
Definition truthy (s : string) : bool := negb (String.eqb s "").

Section NavigatorOps.

(** [path.dirname] of the platform. *)
Variable dirname : string -> string.

(** [retrieveGrandChildren]: for every directory among [childItems], in
    order, [listDirectory(item.path)] is called at once; its completion is a
    pending task. *)
Fixpoint retrieveGrandChildren (items : list ref) (s : State) : State :=
  match items with
  | [] => s
  | r :: rest =>
      match heap s !! r with
      | Some o =>
          if isDirectory (item o)
          then retrieveGrandChildren rest
                 (spawn (TGrandChildren r (path (item o)))
                    (emit (EvListDirectory (path (item o))) s))
          else retrieveGrandChildren rest s
      | None => retrieveGrandChildren rest s
      end
  end.

(** The callback run with the resolved parent path:
    [this.parentDirectoryPath = Promise.resolve(parentPath);
     parentPath && this.directoryManager.listDirectory(parentPath, ...).then(...)] *)
Definition onParentPath (parentPath : option string) (s : State) : State :=
  match parentPath with
  | None => set_nav (mkNav (currentPath (nav s)) (currentDirectoryItems (nav s))
                       PNull (parentDirectoryItems (nav s))) s
  | Some pp =>
      let s1 := set_nav (mkNav (currentPath (nav s)) (currentDirectoryItems (nav s))
                           (PPath pp) (parentDirectoryItems (nav s))) s in
      if truthy pp
      then spawn (TParentItems pp) (emit (EvListDirectory pp) s1)
      else s1
  end.

(** [retrieveParentDirectoryPath(basePath)], awaited, followed by the
    callback above. *)
Definition resolveParent (dm : IDirectoryManager) (basePath : string) (s : State) : State :=
  let possibleParentPath := dirname basePath in
  let s1 := emit (EvExists possibleParentPath) s in
  onParentPath (if exists_ dm possibleParentPath then Some possibleParentPath else None) s1.

(** [new Navigator(initialPath, ...)]: both retrievals are started and left
    pending. *)
Definition construct (initialPath : string) : State :=
  let s0 := mkState (mkNav (Some initialPath) None PUndefined None) [] [] [] in
  let s1 := spawn (TInitialItems initialPath) (emit (EvListDirectory initialPath) s0) in
  spawn (TParentPath (dirname initialPath)) (emit (EvExists (dirname initialPath)) s1).

(** [toParent] *)
Definition toParent (dm : IDirectoryManager) (s : State) : State * Res unit :=
  match parentDirectoryPath (nav s) with
  | PNull =>
      (s, Throw (LoggedError
                   ("Could not navigate to parent from " +:+ show_path (currentPath (nav s)))))
  | pp =>
      let cp := match pp with PPath p => Some p | _ => None end in
      let s1 := set_nav (mkNav cp (parentDirectoryItems (nav s))
                           (parentDirectoryPath (nav s)) (parentDirectoryItems (nav s))) s in
      match currentDirectoryItems (nav s1) with
      | None => (s1, Throw (TypeError "Cannot read property 'forEach' of undefined"))
      | Some items =>
          let s2 := retrieveGrandChildren items s1 in
          match cp with
          | None => (s2, Throw (TypeError "The path argument must be of type string"))
          | Some p => (resolveParent dm p s2, Ok tt)
          end
      end
  end.

(** [toChild] *)
Definition toChild (folderPath : string) (s : State) : State * Res unit :=
  match currentDirectoryItems (nav s) with
  | None => (s, Ok tt)
  | Some items =>
      match find_path (heap s) items folderPath with
      | None => (s, Throw (TypeError "Cannot read property 'childItems' of undefined"))
      | Some r =>
          match heap s !! r with
          | None => (s, Throw (TypeError "Cannot read property 'childItems' of undefined"))
          | Some childItem =>
              match childItems childItem with
              | None =>
                  (s, Throw (LoggedError
                               ("Child items for " +:+ path (item childItem)
                                  +:+ " have not begun retrieval")))
              | Some grandChildItems =>
                  let n := nav s in
                  let parentPath :=
                    match currentPath n with Some p => PPath p | None => PUndefined end in
                  let s1 := set_nav (mkNav (Some (path (item childItem)))
                                       (Some grandChildItems)
                                       parentPath
                                       (Some items)) s in
                  (retrieveGrandChildren grandChildItems s1, Ok tt)
              end
          end
      end
  end.

(** The part of [toDirectory] after both shortcuts: a fresh listing. *)
Definition toDirectory_fresh (dm : IDirectoryManager) (folderPath : string) (s : State)
  : State * Res unit :=
  let n := nav s in
  let s1 := set_nav (mkNav (Some folderPath) (currentDirectoryItems n)
                       (parentDirectoryPath n) (parentDirectoryItems n)) s in
  let s2 := emit (EvListDirectory folderPath) s1 in
  match listDirectory dm folderPath with
  | Throw e => (s2, Throw e)
  | Ok l =>
      let '(s3, items) := alloc l s2 in
      let s4 := set_nav (mkNav (Some folderPath) (Some items)
                           (parentDirectoryPath n) (parentDirectoryItems n)) s3 in
      let s5 := retrieveGrandChildren items s4 in
      (resolveParent dm folderPath s5, Ok tt)
  end.

Definition is_parent (pp : ParentPath) (folderPath : string) : bool :=
  match pp with PPath p => String.eqb folderPath p | _ => false end.

(** [toDirectory] *)
Definition toDirectory (dm : IDirectoryManager) (folderPath : string) (s : State)
  : State * Res unit :=
  if is_parent (parentDirectoryPath (nav s)) folderPath then toParent dm s
  else
    let potentialChild :=
      match currentDirectoryItems (nav s) with
      | None => None
      | Some items =>
          match find_path (heap s) items folderPath with
          | Some r => heap s !! r
          | None => None
          end
      end in
    match potentialChild with
    | Some o => toChild (path (item o)) s
    | None => toDirectory_fresh dm folderPath s
    end.

(** [retrieveDirectoryItems], awaited by its caller. *)
Definition retrieveDirectoryItems (dm : IDirectoryManager) (s : State)
  : State * Res (option (list ref)) :=
  match currentDirectoryItems (nav s) with
  | Some items => (s, Ok (Some items))
  | None =>
      match currentPath (nav s) with
      | None => (s, Throw (TypeError "The path argument must be of type string"))
      | Some p =>
          let s1 := emit (EvListDirectory p) s in
          match listDirectory dm p with
          | Throw e => (s1, Throw e)
          | Ok l =>
              let '(s2, items) := alloc l s1 in
              let n := nav s2 in
              let s3 := set_nav (mkNav (currentPath n) (Some items)
                                   (parentDirectoryPath n) (parentDirectoryItems n)) s2 in
              (retrieveGrandChildren items s3, Ok (Some items))
          end
      end
  end.

End NavigatorOps.

(** What [resolveParent] adds to the trace. *)
Definition parent_events (dirname : string -> string) (dm : IDirectoryManager)
    (basePath : string) : list Event :=
  EvExists (dirname basePath)
  :: (if exists_ dm (dirname basePath) && truthy (dirname basePath)
      then [EvListDirectory (dirname basePath)] else []).

(** Completion of a pending task (the callbacks attached with [then] and
    [catch]).  The second component is an unhandled rejection, if any. *)
Definition run_task (dm : IDirectoryManager) (t : Task) (s : State) : State * option Error :=
  match t with
  | TGrandChildren r p =>
      match listDirectory dm p with
      | Ok l =>
          let '(s1, grandChildItems) := alloc l s in
          match heap s1 !! r with
          | Some o =>
              (mkState (nav s1)
                 (<[r := mkNavItem (item o) (Some grandChildItems)]> (heap s1))
                 (tasks s1) (trace s1), None)
          | None => (s1, None)
          end
      | Throw _ =>
          (emit (EvWarn ("Could not retrieve grand children for " +:+ p)) s, None)
      end
  | TParentItems p =>
      match listDirectory dm p with
      | Ok l =>
          let '(s1, items) := alloc l s in
          let n := nav s1 in
          let s2 := set_nav (mkNav (currentPath n) (currentDirectoryItems n)
                               (parentDirectoryPath n) (Some items)) s1 in
          (retrieveGrandChildren items s2, None)
      | Throw e => (s, Some e)
      end
  | TParentPath possibleParentPath =>
      (onParentPath (if exists_ dm possibleParentPath then Some possibleParentPath else None) s,
       None)
  | TInitialItems p =>
      match listDirectory dm p with
      | Ok l =>
          let '(s1, items) := alloc l s in
          let n := nav s1 in
          let s2 := set_nav (mkNav (currentPath n) (Some items)
                               (parentDirectoryPath n) (parentDirectoryItems n)) s1 in
          let s3 := retrieveGrandChildren items s2 in
          let s4 := retrieveGrandChildren items s3 in
          let n4 := nav s4 in
          (set_nav (mkNav (currentPath n4) (Some items)
                      (parentDirectoryPath n4) (parentDirectoryItems n4)) s4, None)
      | Throw e =>
          (s, Some (LoggedErrorFrom
                      ("Could not retrieve directory items for "
                         +:+ show_path (currentPath (nav s))) e))
      end
  end.

(** The [k]-th pending task completes. *)
Definition complete (dm : IDirectoryManager) (k : nat) (s : State) : State * option Error :=
  match tasks s !! k with
  | None => (s, None)
  | Some t => run_task dm t (mkState (nav s) (heap s) (delete k (tasks s)) (trace s))
  end.

(** The [EvListDirectory] events of a trace. *)
Definition listed (p : string) (tr : list Event) : Prop := EvListDirectory p ∈ tr.

(** The events a step added to the trace. *)
Definition issued (s s' : State) : list Event :=
  drop (List.length (trace s)) (trace s').

(** The paths of the directories among [items]: what re-priming lists. *)
Fixpoint directory_paths (h : Heap) (items : list ref) : list string :=
  match items with
  | [] => []
  | r :: rest =>
      match h !! r with
      | Some o => if isDirectory (item o) then path (item o) :: directory_paths h rest
                  else directory_paths h rest
      | None => directory_paths h rest
      end
  end.

(** ** The directory manager *)

(** types/ItemType and types/ClipboardAction *)
Inductive ItemType := file | folder.
Inductive ClipboardAction := copy | cut.

(** Calls that reach the file system or the user interface, with their
    outcome where they have one. *)
Inductive Call :=
| CRmdir (p : string) (ok : bool)
| CUnlink (p : string) (ok : bool)
| CCopy (source destination : string) (ok : bool)
| CTrash (p : string) (ok : bool)
| CList (p : string)
| CWatch (p : string) (ok : bool)
| CClose (watcher : nat)
| CNotify (message : string)
| CSetItemCount (n : nat)
| CSetChosenCount (n : nat)
| CTrace (message : string).

(** The calls that go to the directory manager, as opposed to the status
    bar and the trace log. *)
Definition is_store_call (c : Call) : bool :=
  match c with
  | CNotify _ | CSetItemCount _ | CSetChosenCount _ | CTrace _ => false
  | _ => true
  end.

(** The file-system call that deletes an item of a given type, and the error
    thrown when it fails. *)
Definition deletion_call (t : ItemType) (p : string) (ok : bool) : Call :=
  match t with folder => CRmdir p ok | file => CUnlink p ok end.

Definition deletion_error (t : ItemType) (p : string) : Error :=
  match t with
  | folder => DirectoryError "Cannot remove folder" p None
  | file => DirectoryError "Cannot remove file" p None
  end.

Definition is_close (c : Call) : bool :=
  match c with CClose _ => true | _ => false end.

(** The file system underneath: [fs.rmdir], [fs.unlink], [ncp], [trash], [fs.watch],
    the outcome of reading a directory, and the path functions of the
    platform.  An operation returns the new world and whether it succeeded. *)
Record FileSystem (World : Type) := mkFS {
  rmdirAsync : string -> World -> World * bool;
  unlinkAsync : string -> World -> World * bool;
  copyFileAsync : string -> string -> World -> World * bool;
  trash : string -> World -> World * bool;
  watchable : string -> World -> bool;
  readDirectory : string -> World -> Res (list IDirectoryItem);
  basename : string -> string;
  join : string -> string -> string
}.
Arguments rmdirAsync {World} _ _ _.
Arguments unlinkAsync {World} _ _ _.
Arguments copyFileAsync {World} _ _ _ _.
Arguments trash {World} _ _ _.
Arguments watchable {World} _ _ _.
Arguments readDirectory {World} _ _ _.
Arguments basename {World} _ _.
Arguments join {World} _ _ _.

(** The awaited calls that reach the file system. *)
Inductive Io :=
| IoRmdir (p : string)
| IoUnlink (p : string)
| IoCopy (source destination : string)
| IoTrash (p : string).

(** The record of a call with its outcome. *)
Definition io_call (io : Io) (ok : bool) : Call :=
  match io with
  | IoRmdir p => CRmdir p ok
  | IoUnlink p => CUnlink p ok
  | IoCopy source destination => CCopy source destination ok
  | IoTrash p => CTrash p ok
  end.

(** An [async] function that has been called: it has settled, or it is
    suspended at the [await] of a file-system call and goes on with the
    outcome of that call, [true] when the call resolves and [false] when it
    rejects. *)
Inductive Async :=
| Settled (r : Res unit)
| Await (io : Io) (k : bool -> Async).

(** [try { await io } catch { throw e }] *)
Definition try_await (io : Io) (e : Error) : Async :=
  Await io (fun ok => Settled (if ok then Ok tt else Throw e)).

(** [await a; b] inside an [async] function. *)
Fixpoint and_then (a b : Async) : Async :=
  match a with
  | Settled (Ok _) => b
  | Settled (Throw e) => Settled (Throw e)
  | Await io k => Await io (fun ok => and_then (k ok) b)
  end.

(** [try { a } catch { throw e }] *)
Fixpoint catching (a : Async) (e : Error) : Async :=
  match a with
  | Settled (Ok x) => Settled (Ok x)
  | Settled (Throw _) => Settled (Throw e)
  | Await io k => Await io (fun ok => catching (k ok) e)
  end.

Definition is_pending (a : Async) : bool :=
  match a with Await _ _ => true | Settled _ => false end.

(** The first rejection among promises. *)
Fixpoint rejection (ps : list Async) : option Error :=
  match ps with
  | [] => None
  | Settled (Throw e) :: _ => Some e
  | _ :: rest => rejection rest
  end.

(** The directory manager and what it acts on: the world, the calls made so
    far, the [watcher] field, the file system watchers that are open,
    counters for fresh watchers and fresh objects, and the calls of the
    manager's [async] functions that are still in flight after the
    [Promise.all] that gathered them has rejected. *)
Record Sys (World : Type) := mkSys {
  world : World;
  calls : list Call;
  watcher : option nat;
  open_watchers : list (nat * string);
  next_watcher : nat;
  next_object : nat;
  in_flight : list Async
}.
Arguments mkSys {World} _ _ _ _ _ _ _.
Arguments world {World} _.
Arguments calls {World} _.
Arguments watcher {World} _.
Arguments open_watchers {World} _.
Arguments next_watcher {World} _.
Arguments next_object {World} _.
Arguments in_flight {World} _.

(** A state and error monad for code that awaits one call after another. *)
Definition M (S A : Type) : Type := S -> S * Res A.

Definition ret {S A} (a : A) : M S A := fun s => (s, Ok a).

Definition throw {S A} (e : Error) : M S A := fun s => (s, Throw e).

Definition bind {S A B} (m : M S A) (k : A -> M S B) : M S B :=
  fun s => match m s with
           | (s', Ok a) => k a s'
           | (s', Throw e) => (s', Throw e)
           end.

(** [try { m } catch { throw e }] *)
Definition rethrow {S A} (m : M S A) (e : Error) : M S A :=
  fun s => match m s with
           | (s', Ok a) => (s', Ok a)
           | (s', Throw _) => (s', Throw e)
           end.

Notation "x <- m ;; k" := (bind m (fun x => k))
  (at level 100, m at next level, right associativity).
Notation "m ;;; k" := (bind m (fun _ => k))
  (at level 100, right associativity).

Section DirectoryManager.

Context {World : Type}.
Variable fs : FileSystem World.

(** [Utils.parseItemType] *)
Variable parseItemType : IDirectoryItem -> ItemType.

Definition call (c : Call) (w : World) (st : Sys World) : Sys World :=
  mkSys w (calls st ++ [c]) (watcher st) (open_watchers st)
    (next_watcher st) (next_object st) (in_flight st).

Definition set_in_flight (l : list Async) (st : Sys World) : Sys World :=
  mkSys (world st) (calls st) (watcher st) (open_watchers st)
    (next_watcher st) (next_object st) l.

(** What the file system does with a call. *)
Definition io_effect (io : Io) (w : World) : World * bool :=
  match io with
  | IoRmdir p => rmdirAsync fs p w
  | IoUnlink p => unlinkAsync fs p w
  | IoCopy source destination => copyFileAsync fs source destination w
  | IoTrash p => trash fs p w
  end.

(** A call takes effect and is recorded with its outcome. *)
Definition perform (io : Io) (st : Sys World) : Sys World * bool :=
  let '(w, ok) := io_effect io (world st) in
  (call (io_call io ok) w st, ok).

(** Calls made one after the other, and their outcomes. *)
Fixpoint perform_each (ios : list Io) (st : Sys World) : Sys World * list bool :=
  match ios with
  | [] => (st, [])
  | io :: rest =>
      let '(st1, ok) := perform io st in
      let '(st2, oks) := perform_each rest st1 in
      (st2, ok :: oks)
  end.

(** What the file system makes of calls made one after the other: the world
    they leave, and their outcomes. *)
Fixpoint effects (ios : list Io) (w : World) : World * list bool :=
  match ios with
  | [] => (w, [])
  | io :: rest =>
      let '(w1, ok) := io_effect io w in
      let '(w2, oks) := effects rest w1 in
      (w2, ok :: oks)
  end.

(** A pending promise receives the outcome of the call it awaits and runs up
    to its next [await]. *)
Definition resume (a : Async) (st : Sys World) : Sys World * Async :=
  match a with
  | Settled _ => (st, a)
  | Await io k => let '(st', ok) := perform io st in (st', k ok)
  end.

(** [await a] by a caller that has nothing else in flight: the calls of [a]
    take effect one after the other. *)
Fixpoint await (a : Async) (st : Sys World) : Sys World * Res unit :=
  match a with
  | Settled r => (st, r)
  | Await io k => let '(st', ok) := perform io st in await (k ok) st'
  end.

(** [DirectoryManager.deleteItem] *)
Definition deleteItem (itemPath : string) (itemType : ItemType) : Async :=
  match itemType with
  | folder =>
      try_await (IoRmdir itemPath) (DirectoryError "Cannot remove folder" itemPath None)
  | file =>
      try_await (IoUnlink itemPath) (DirectoryError "Cannot remove file" itemPath None)
  end.

(** [DirectoryManager.copyItem] *)
Definition copyItem (itemPath destinationDirectory : string) : Async :=
  let fileName := basename fs itemPath in
  let destinationFileName := join fs destinationDirectory fileName in
  try_await (IoCopy itemPath destinationFileName)
    (DirectoryError "Failed to copy item" itemPath (Some destinationFileName)).

(** [DirectoryManager.moveItem] *)
Definition moveItem (itemPath destinationDirectory : string) (itemType : ItemType)
  : Async :=
  catching
    (and_then (copyItem itemPath destinationDirectory) (deleteItem itemPath itemType))
    (DirectoryError "Failed to copy item" itemPath (Some destinationDirectory)).

(** [DirectoryManager.sendItemToTrash] *)
Definition sendItemToTrash (itemPath : string) : Async :=
  try_await (IoTrash itemPath)
    (DirectoryError "Could not send item to trash" itemPath None).

(** The promises of a batch that are still pending stay in flight. *)
Definition leave (ps : list Async) (st : Sys World) : Sys World :=
  set_in_flight (in_flight st ++ List.filter is_pending ps) st.

(** The promises of a batch settle one after the other, in the order of the
    list, up to the first rejection. *)
Fixpoint in_turn (ps : list Async) (st : Sys World) : Sys World * Res unit :=
  match ps with
  | [] => (st, Ok tt)
  | a :: rest =>
      match await a st with
      | (st', Ok _) => in_turn rest st'
      | (st', Throw e) => (leave rest st', Throw e)
      end
  end.

(** [await Promise.all(ps)] over promises that were all started.  [order]
    is the order in which the awaited calls complete: each position named
    resumes that promise, if it is pending, with the outcome of its call;
    once [order] is used up the promises left settle in turn.  The result is
    fulfilled when every promise is, and rejected as soon as one promise
    rejects, the promises still pending then staying in flight. *)
Fixpoint promise_all (order : list nat) (ps : list Async) (st : Sys World)
  : Sys World * Res unit :=
  match rejection ps with
  | Some e => (leave ps st, Throw e)
  | None =>
      match order with
      | [] => in_turn ps st
      | i :: rest =>
          match ps !! i with
          | Some a =>
              let '(st', a') := resume a st in
              promise_all rest (<[i := a']> ps) st'
          | None => promise_all rest ps st
          end
      end
  end.

(** The [k]-th promise in flight receives the outcome of the call it awaits;
    once settled it is dropped, nothing reads its outcome. *)
Definition settle (k : nat) (st : Sys World) : Sys World :=
  match in_flight st !! k with
  | None => st
  | Some a =>
      let '(st', a') := resume a st in
      set_in_flight (if is_pending a' then <[k := a']> (in_flight st)
                     else delete k (in_flight st)) st'
  end.

Fixpoint settle_each (ps : list Async) (st : Sys World) : Sys World :=
  match ps with
  | [] => st
  | a :: rest => settle_each rest (fst (await a st))
  end.

(** The promises in flight run to their end: their calls complete in the
    order [order], and once [order] is used up the promises left settle in
    turn. *)
Definition finish (order : list nat) (st : Sys World) : Sys World :=
  let st' := fold_left (fun s k => settle k s) order st in
  set_in_flight [] (settle_each (in_flight st') st').

(** The call that deletes an item, copies it into a directory, or sends it
    to the trash. *)
Definition deletion_io (t : ItemType) (p : string) : Io :=
  match t with folder => IoRmdir p | file => IoUnlink p end.

Definition deletion (i : IDirectoryItem) : Io :=
  deletion_io (parseItemType i) (path i).

Definition copying (destinationDirectory : string) (i : IDirectoryItem) : Io :=
  IoCopy (path i) (join fs destinationDirectory (basename fs (path i))).

Definition trashing (i : IDirectoryItem) : Io := IoTrash (path i).

(** [DirectoryManager.deleteItems] *)
Definition deleteItems (order : list nat) (itemsToDelete : list IDirectoryItem)
  : M (Sys World) unit :=
  promise_all order
    (map (fun i => deleteItem (path i) (parseItemType i)) itemsToDelete).

(** [DirectoryManager.sendItemsToTrash] *)
Definition sendItemsToTrash (order : list nat) (itemsToTrash : list IDirectoryItem)
  : M (Sys World) unit :=
  promise_all order (map (fun i => sendItemToTrash (path i)) itemsToTrash).

(** [DirectoryManager.copyItems] *)
Definition copyItems (order : list nat) (itemsToCopy : list IDirectoryItem)
    (destinationDirectory : string) : M (Sys World) unit :=
  promise_all order
    (map (fun i => copyItem (path i) destinationDirectory) itemsToCopy).

(** [DirectoryManager.moveItems] *)
Definition moveItems (order : list nat) (itemsToMove : list IDirectoryItem)
    (destinationDirectory : string) : M (Sys World) unit :=
  promise_all order
    (map (fun i => moveItem (path i) destinationDirectory (parseItemType i)) itemsToMove).

(** [DirectoryManager.startWatching]: [this.watcher = fs.watch(pathToWatch, listener)] *)
Definition startWatching (pathToWatch : string) : M (Sys World) unit :=
  fun st =>
    if watchable fs pathToWatch (world st)
    then (mkSys (world st) (calls st ++ [CWatch pathToWatch true])
            (Some (next_watcher st))
            (open_watchers st ++ [(next_watcher st, pathToWatch)])
            (S (next_watcher st)) (next_object st) (in_flight st),
          Ok tt)
    else (call (CWatch pathToWatch false) (world st) st,
          Throw (SystemError "watch")).

(** [DirectoryManager.stopWatching]: [this.watcher && this.watcher.close()] *)
Definition stopWatching : M (Sys World) unit :=
  fun st =>
    match watcher st with
    | None => (st, Ok tt)
    | Some w =>
        (mkSys (world st) (calls st ++ [CClose w]) (watcher st)
           (filter (fun e => negb (Nat.eqb (fst e) w)) (open_watchers st))
           (next_watcher st) (next_object st) (in_flight st),
         Ok tt)
    end.

(** An object of the component: a directory item with the identity that
    [Array.includes] compares. *)
Definition Obj : Type := nat * IDirectoryItem.

(** [DirectoryManager.listDirectory] as the component calls it: the items
    read from the directory, as fresh objects. *)
Definition listDirectoryObjects (filePath : string) : M (Sys World) (list Obj) :=
  fun st =>
    match readDirectory fs filePath (world st) with
    | Ok l =>
        (mkSys (world st) (calls st ++ [CList filePath]) (watcher st) (open_watchers st)
           (next_watcher st) (next_object st + List.length l) (in_flight st),
         Ok (zip (seq (next_object st) (List.length l)) l))
    | Throw e => (call (CList filePath) (world st) st, Throw e)
    end.

End DirectoryManager.

(** ** The directory list component *)

(** states/panels/IDirectoryListState *)
Record IDirectoryListState := mkDLState {
  directoryItems : list Obj;
  chosenItems : list Obj;
  selectedIndex : Z;
  showHiddenItems : bool;
  creatingNewItem : option ItemType;
  renamingItem : bool;
  itemDeleted : bool;
  isGotoOpen : bool;
  isFocused : bool
}.

(** Modelled from the spec: objects/DirectoryListModel is not among the
    sources.  Its clipboard is the action last stored with its items, or
    nothing; its navigation cache keeps, per path, the selection and the
    listing of the last departure, and popping an entry removes it. *)
Record DirectoryListModel := mkModel {
  clipboardAction : option ClipboardAction;
  clipboardItems : option (list Obj);
  cachedNavigations : gmap string (Z * list Obj)
}.

Record DirectoryList (World : Type) := mkDL {
  props_path : string;
  state : IDirectoryListState;
  model : DirectoryListModel;
  sys : Sys World
}.
Arguments mkDL {World} _ _ _ _.
Arguments props_path {World} _.
Arguments state {World} _.
Arguments model {World} _.
Arguments sys {World} _.

(** [items.includes(o)]: identity of objects. *)
Definition includes (items : list Obj) (o : Obj) : bool :=
  existsb (fun o' => Nat.eqb (fst o') (fst o)) items.

Definition keep {A} (f : A -> bool) (l : list A) : list A := List.filter f l.

(** [items.map(item => item.path).join(", ")] *)
Definition joined_paths (items : list Obj) : string :=
  String.concat ", " (map (fun o => path (snd o)) items).

Section DirectoryListOps.

Context {World : Type}.
Variable fs : FileSystem World.
Variable parseItemType : IDirectoryItem -> ItemType.

Definition liftSys {A} (m : M (Sys World) A) : M (DirectoryList World) A :=
  fun this =>
    match m (sys this) with
    | (st, r) => (mkDL (props_path this) (state this) (model this) st, r)
    end.

Definition ui (c : Call) : M (DirectoryList World) unit :=
  fun this =>
    (mkDL (props_path this) (state this) (model this)
       (call c (world (sys this)) (sys this)), Ok tt).

Definition setState (f : IDirectoryListState -> IDirectoryListState)
  : M (DirectoryList World) unit :=
  fun this => (mkDL (props_path this) (f (state this)) (model this) (sys this), Ok tt).

Definition getThis : M (DirectoryList World) (DirectoryList World) :=
  fun this => (this, Ok this).

(** [this.nonHiddenDirectoryItems] *)
Definition nonHiddenDirectoryItems (st : IDirectoryListState) : list Obj :=
  keep (fun o => negb (isHidden (snd o)) || showHiddenItems st) (directoryItems st).

(** [this.model.popCachedNavigation(path)] *)
Definition popCachedNavigation (p : string) : M (DirectoryList World) (option (Z * list Obj)) :=
  fun this =>
    let m := model this in
    (mkDL (props_path this) (state this)
       (mkModel (clipboardAction m) (clipboardItems m) (delete p (cachedNavigations m)))
       (sys this),
     Ok (cachedNavigations m !! p)).

Definition set_directoryItems (l : list Obj) (st : IDirectoryListState) :=
  mkDLState l (chosenItems st) (selectedIndex st) (showHiddenItems st)
    (creatingNewItem st) (renamingItem st) (itemDeleted st) (isGotoOpen st) (isFocused st).

Definition set_chosenItems (l : list Obj) (st : IDirectoryListState) :=
  mkDLState (directoryItems st) l (selectedIndex st) (showHiddenItems st)
    (creatingNewItem st) (renamingItem st) (itemDeleted st) (isGotoOpen st) (isFocused st).

Definition set_selectedIndex (i : Z) (st : IDirectoryListState) :=
  mkDLState (directoryItems st) (chosenItems st) i (showHiddenItems st)
    (creatingNewItem st) (renamingItem st) (itemDeleted st) (isGotoOpen st) (isFocused st).

Definition set_itemDeleted (b : bool) (st : IDirectoryListState) :=
  mkDLState (directoryItems st) (chosenItems st) (selectedIndex st) (showHiddenItems st)
    (creatingNewItem st) (renamingItem st) b (isGotoOpen st) (isFocused st).

(** The watch set up by [componentDidMount] and [componentDidUpdate]:
    [try { directoryManager.startWatching(this.props.path, listener) }
     catch { throw new DirectoryError("Could not set watcher", this.props.path) }] *)
Definition watchPath (p : string) : M (DirectoryList World) unit :=
  rethrow (liftSys (startWatching fs p)) (DirectoryError "Could not set watcher" p None).

(** [componentDidMount] *)
Definition componentDidMount : M (DirectoryList World) unit :=
  this <- getThis ;;
  watchPath (props_path this) ;;;
  items <- liftSys (listDirectoryObjects fs (props_path this)) ;;
  setState (set_directoryItems items).

(** [componentWillUnmount] *)
Definition componentWillUnmount : M (DirectoryList World) unit :=
  liftSys stopWatching.

(** [componentDidUpdate(prevProps, prevState)] *)
Definition componentDidUpdate (prevPath : string) (prevState : IDirectoryListState)
  : M (DirectoryList World) unit :=
  this <- getThis ;;
  ui (CSetItemCount (List.length (nonHiddenDirectoryItems (state this)))) ;;;
  ui (CSetChosenCount (List.length (chosenItems (state this)))) ;;;
  if String.eqb prevPath (props_path this)
     && negb (bool_decide (is_Some (creatingNewItem prevState)))
     && negb (renamingItem prevState)
     && negb (itemDeleted (state this))
  then ret tt
  else
    (if itemDeleted prevState then setState (set_itemDeleted false) else ret tt) ;;;
    (if negb (String.eqb prevPath (props_path this))
     then watchPath (props_path this) else ret tt) ;;;
    cachedNavigation <- popCachedNavigation (props_path this) ;;
    match cachedNavigation with
    | Some (index, items) =>
        setState (fun st =>
          set_chosenItems (keep (includes items) (chosenItems st))
            (set_selectedIndex index (set_directoryItems items st)))
    | None =>
        items <- liftSys (listDirectoryObjects fs (props_path this)) ;;
        setState (fun st =>
          set_chosenItems (keep (includes items) (chosenItems st))
            (set_directoryItems items st))
    end.

(** [pasteFromClipboard].  [order] is the order in which the copies or moves
    settle.  In the cut branch the trace message interpolates the imported
    [path] module, not the destination, hence the text it prints. *)
Definition pasteFromClipboard (order : list nat) : M (DirectoryList World) unit :=
  this <- getThis ;;
  match clipboardAction (model this) with
  | Some copy =>
      match clipboardItems (model this) with
      | None => throw (LoggedError "Clipboard items is undefined")
      | Some items =>
          ui (CTrace ("Requesting to copy " +:+ joined_paths items
                        +:+ " to " +:+ props_path this)) ;;;
          liftSys (copyItems fs order (map snd items) (props_path this)) ;;;
          listing <- liftSys (listDirectoryObjects fs (props_path this)) ;;
          setState (set_directoryItems listing) ;;;
          ui (CNotify "Copied items")
      end
  | Some cut =>
      match clipboardItems (model this) with
      | None => throw (LoggedError "Clipboard items is undefined")
      | Some items =>
          ui (CTrace ("Requesting to move " +:+ joined_paths items
                        +:+ " to [object Object]")) ;;;
          liftSys (moveItems fs parseItemType order (map snd items) (props_path this)) ;;;
          listing <- liftSys (listDirectoryObjects fs (props_path this)) ;;
          setState (set_directoryItems listing) ;;;
          ui (CNotify "Cut items")
      end
  | None => ret tt
  end.

(** The parent component hands the pane a new [path]: the props change and
    [componentDidUpdate] runs with the previous ones. *)
Definition receivePath (newPath : string) : M (DirectoryList World) unit :=
  this <- getThis ;;
  (fun this' => (mkDL newPath (state this') (model this') (sys this'), Ok tt)) ;;;
  componentDidUpdate (props_path this) (state this).

End DirectoryListOps.

(** ** Concrete instances, used to run the model *)

Module Examples.

(** A [dirname] for POSIX paths without repeated separators. *)
Definition is_slash (c : ascii) : bool := Ascii.eqb c "/"%char.

Fixpoint drop_while {A} (f : A -> bool) (l : list A) : list A :=
  match l with
  | [] => []
  | x :: rest => if f x then drop_while f rest else l
  end.

Definition posix_dirname (p : string) : string :=
  match list_ascii_of_string p with
  | [] => "."
  | (c :: _) as cs =>
      let noTrailing := drop_while is_slash (rev cs) in
      let noLast := drop_while (fun x => negb (is_slash x)) noTrailing in
      match drop_while is_slash noLast with
      | [] => if is_slash c then "/" else "."
      | dir => string_of_list_ascii (rev dir)
      end
  end.

Definition posix_basename (p : string) : string :=
  let noTrailing := drop_while is_slash (rev (list_ascii_of_string p)) in
  let fix last (l : list ascii) : list ascii :=
    match l with
    | [] => []
    | x :: rest => if is_slash x then [] else x :: last rest
    end in
  string_of_list_ascii (rev (last noTrailing)).

Definition posix_join (d f : string) : string :=
  if String.eqb d "/" then d +:+ f else d +:+ "/" +:+ f.

(** The tree [/a/{b/{d},c}]. *)
Definition item_a := mkItem "a" "/a" true false.
Definition item_b := mkItem "b" "/a/b" true false.
Definition item_c := mkItem "c" "/a/c" false false.
Definition item_d := mkItem "d" "/a/b/d" false false.

Definition tree : IDirectoryManager :=
  mkDM (fun p =>
          if String.eqb p "/" then Ok [item_a]
          else if String.eqb p "/a" then Ok [item_b; item_c]
          else if String.eqb p "/a/b" then Ok [item_d]
          else Throw (DirectoryError "Cannot call listDirectory on a non-directory item" p None))
       (fun p => String.eqb p "/" || String.eqb p "/a" || String.eqb p "/a/b").

(** The same tree when [/a/b] cannot be read. *)
Definition tree_unreadable_b : IDirectoryManager :=
  mkDM (fun p =>
          if String.eqb p "/a/b"
          then Throw (DirectoryError "Could not list items in directory" p None)
          else listDirectory tree p)
       (exists_ tree).

(** A navigator made for [/a], as its pending retrievals complete. *)
Definition started : State := construct posix_dirname "/a".
Definition listed_only : State := fst (complete tree 0 started).
Definition parent_known : State := fst (complete tree 0 listed_only).
Definition primed : State :=
  fst (complete tree 0 (fst (complete tree 0 (fst (complete tree 0 parent_known))))).


(** A world for the directory manager: the paths that exist, and those that
    cannot be removed, written to or watched. *)
Record Disk := mkDisk {
  present : list string;
  locked : list string
}.

Definition has (l : list string) (p : string) : bool := existsb (String.eqb p) l.

Definition remove_path (p : string) (d : Disk) : Disk * bool :=
  if has (present d) p && negb (has (locked d) p)
  then (mkDisk (List.filter (fun q => negb (String.eqb p q)) (present d)) (locked d), true)
  else (d, false).

Definition copy_path (source destination : string) (d : Disk) : Disk * bool :=
  if has (present d) source && negb (has (locked d) destination)
  then (mkDisk (present d ++ [destination]) (locked d), true)
  else (d, false).

Definition disk_fs : FileSystem Disk :=
  mkFS Disk remove_path remove_path copy_path remove_path
       (fun p d => has (present d) p && negb (has (locked d) p))
       (fun p d => if has (present d) p then Ok [] else Throw (SystemError "ENOENT"))
       posix_basename posix_join.

Definition kind_of (i : IDirectoryItem) : ItemType :=
  if isDirectory i then folder else file.

Definition file_1 := mkItem "1" "/t/1" false false.
Definition file_2 := mkItem "2" "/t/2" false false.
Definition file_3 := mkItem "3" "/t/3" false false.

Definition boot (d : Disk) : Sys Disk := mkSys d [] None [] 0 0 [].

Definition blank : IDirectoryListState :=
  mkDLState [] [] 0 false None false false false false.

(** A pane on [/a] with an empty clipboard. *)
Definition pane (d : Disk) : DirectoryList Disk :=
  mkDL "/a" blank (mkModel None None ∅) (boot d).

Definition four_directories : Disk := mkDisk ["/a"; "/b"; "/c"; "/d"] [].

(** The pane is mounted on [/a] and is then sent to [/b], [/c] and [/d]. *)
Definition visited : DirectoryList Disk * Res unit :=
  (componentDidMount disk_fs ;;;
   receivePath disk_fs "/b" ;;;
   receivePath disk_fs "/c" ;;;
   receivePath disk_fs "/d") (pane four_directories).

(** Three files, of which the second, or the second and the third, cannot be
    removed. *)
Definition three_files : list IDirectoryItem := [file_1; file_2; file_3].
Definition second_locked : Disk := mkDisk ["/t/1"; "/t/2"; "/t/3"] ["/t/2"].
Definition two_locked : Disk := mkDisk ["/t/1"; "/t/2"; "/t/3"] ["/t/2"; "/t/3"].

(** A destination that cannot be written. *)
Definition full_destination : Disk := mkDisk ["/t/1"; "/dst"] ["/dst/1"].

(** A world that keeps what each file holds.  A copy fails when the source
    is missing; onto a destination that exists it reports success, after
    replacing what the destination held when [overwrite] is set (as [ncp]
    does with its default options) and after doing nothing otherwise. *)
Definition Files : Type := list (string * string).

Definition content (p : string) (w : Files) : option string :=
  option_map snd (List.find (fun e => String.eqb (fst e) p) w).

Definition remove_file (p : string) (w : Files) : Files * bool :=
  match content p w with
  | Some _ => (List.filter (fun e => negb (String.eqb (fst e) p)) w, true)
  | None => (w, false)
  end.

Definition copy_file (overwrite : bool) (source destination : string) (w : Files)
  : Files * bool :=
  match content source w, content destination w with
  | None, _ => (w, false)
  | Some c, None => (w ++ [(destination, c)], true)
  | Some c, Some _ =>
      if overwrite
      then (List.filter (fun e => negb (String.eqb (fst e) destination)) w
              ++ [(destination, c)], true)
      else (w, true)
  end.

Definition files_fs (overwrite : bool) : FileSystem Files :=
  mkFS Files remove_file remove_file (copy_file overwrite) remove_file
       (fun p w => bool_decide (is_Some (content p w)))
       (fun p w => Ok [])
       posix_basename posix_join.

(** [/t/1] holds "new" and [/dst/1], where it is to be moved, holds "old". *)
Definition taken_destination : Sys Files :=
  mkSys [("/t/1", "new"); ("/dst/1", "old")] [] None [] 0 0 [].

(** A pane on [/dst] whose clipboard holds [/t/1], copied or cut. *)
Definition pane_with (action : ClipboardAction) : DirectoryList Disk :=
  mkDL "/dst" blank (mkModel (Some action) (Some [(7, file_1)]) ∅)
    (boot (mkDisk ["/t/1"; "/dst"] [])).

End Examples.

(** ** Runs of the navigator *)

(** One step of a navigator: a call of one of its public methods, or the
    completion of one of its pending retrievals, against whatever the
    directory manager answers at that moment. *)
Inductive step (dirname : string -> string) : State -> State -> Prop :=
| step_toParent dm s : step dirname s (fst (toParent dirname dm s))
| step_toChild folderPath s : step dirname s (fst (toChild folderPath s))
| step_toDirectory dm folderPath s :
    step dirname s (fst (toDirectory dirname dm folderPath s))
| step_retrieveDirectoryItems dm s :
    step dirname s (fst (retrieveDirectoryItems dm s))
| step_complete dm k s : step dirname s (fst (complete dm k s)).

(** The states a navigator can be in: those that follow its construction. *)
Inductive reachable (dirname : string -> string) : State -> Prop :=
| reachable_construct initialPath : reachable dirname (construct dirname initialPath)
| reachable_step s s' : reachable dirname s -> step dirname s s' -> reachable dirname s'.

(** Every reference of [items] names an object of the heap. *)
Definition valid (h : Heap) (items : list ref) : Prop :=
  Forall (fun r => r < List.length h) items.

(** What holds of the references a navigator keeps. *)
Record well_formed (s : State) : Prop := mkWellFormed {
  wf_current : forall items,
    currentDirectoryItems (nav s) = Some items -> valid (heap s) items;
  wf_parent : forall items,
    parentDirectoryItems (nav s) = Some items -> valid (heap s) items;
  wf_children : forall r o grandChildItems,
    heap s !! r = Some o -> childItems o = Some grandChildItems ->
    valid (heap s) grandChildItems /\ isDirectory (item o) = true;
  wf_tasks : forall r p,
    TGrandChildren r p ∈ tasks s ->
    exists o, heap s !! r = Some o /\ isDirectory (item o) = true /\ path (item o) = p
}.

(** The objects of [h] are still in [h'], with the same item data. *)
Definition heap_extends (h h' : Heap) : Prop :=
  forall r o, h !! r = Some o -> exists o', h' !! r = Some o' /\ item o' = item o.

(** The retrievals that re-priming [items] starts. *)
Fixpoint grandchild_tasks (h : Heap) (items : list ref) : list Task :=
  match items with
  | [] => []
  | r :: rest =>
      match h !! r with
      | Some o => if isDirectory (item o)
                  then TGrandChildren r (path (item o)) :: grandchild_tasks h rest
                  else grandchild_tasks h rest
      | None => grandchild_tasks h rest
      end
  end.

(** The paths of the directories of a listing. *)
Definition directories (l : list IDirectoryItem) : list string :=
  map path (List.filter isDirectory l).

(** ** The directory manager: listing, creating and renaming *)

(** models/IListDirectoryOptions *)
Record IListDirectoryOptions := mkOptions {
  hideUnixStyleHiddenItems : bool;
  filterCondition : option (IDirectoryItem -> bool);
  sort : option (list IDirectoryItem -> list IDirectoryItem)
}.

(** What [listDirectory] reads: [fs.lstat] (whether the path is a directory,
    or the error of the call), [fs.readdir], [Utils.isHidden], the default
    sorter [DirectorySorter.sortByTypeThenAlphaNumery] and [path.join]. *)
Record Reader := mkReader {
  lstatAsync : string -> Res bool;
  getDirectoryPaths : string -> Res (list string);
  isHiddenPath : string -> bool -> bool;
  sortByTypeThenAlphaNumery : list IDirectoryItem -> list IDirectoryItem;
  joinPath : string -> string -> string
}.

(** The promise made for one file name of the directory. *)
Definition statFile (rd : Reader) (filePath : string) (hideUnix : bool)
    (fileName : string) : Res IDirectoryItem :=
  let fullPath := joinPath rd filePath fileName in
  match lstatAsync rd fullPath with
  | Throw e => Throw e
  | Ok isDir => Ok (mkItem fileName fullPath isDir (isHiddenPath rd fullPath hideUnix))
  end.

(** The values of the promises that were fulfilled, and the errors of those
    that were rejected, in the order of the list. *)
Fixpoint fulfilled {A} (results : list (Res A)) : list A :=
  match results with
  | [] => []
  | Ok a :: rest => a :: fulfilled rest
  | Throw _ :: rest => fulfilled rest
  end.

Fixpoint rejected {A} (results : list (Res A)) : list Error :=
  match results with
  | [] => []
  | Ok _ :: rest => rejected rest
  | Throw e :: rest => e :: rejected rest
  end.

(** [await Promise.all(promises)] for promises without effect: the values
    when none was rejected; otherwise the error of the rejection that came
    first, which [race] picks among the rejections. *)
Definition await_all {A} (race : nat) (results : list (Res A)) : Res (list A) :=
  match rejected results with
  | [] => Ok (fulfilled results)
  | e :: es => Throw (default e ((e :: es) !! race))
  end.

(** [DirectoryManager.listDirectory] *)
Definition DirectoryManager_listDirectory (rd : Reader) (race : nat)
    (filePath : string) (options : IListDirectoryOptions)
  : Res (list IDirectoryItem) :=
  match lstatAsync rd filePath with
  | Throw e => Throw e
  | Ok false =>
      Throw (DirectoryError "Cannot call listDirectory on a non-directory item"
               filePath None)
  | Ok true =>
      let filterCondition' :=
        match filterCondition options with
        | Some f => f
        | None => fun _ => true
        end in
      let sort' :=
        match sort options with
        | Some f => f
        | None => sortByTypeThenAlphaNumery rd
        end in
      match getDirectoryPaths rd filePath with
      | Throw _ => Throw (DirectoryError "Could not list items in directory" filePath None)
      | Ok fileList =>
          let filePromises :=
            map (statFile rd filePath (hideUnixStyleHiddenItems options)) fileList in
          match await_all race filePromises with
          | Throw e => Throw e
          | Ok files => Ok (List.filter filterCondition' (sort' files))
          end
      end
  end.

(** Operations of the file system that create and rename, with their
    outcome. *)
Inductive FsOp :=
| OpRename (oldPath newPath : string) (ok : bool)
| OpMkdir (p : string) (ok : bool)
| OpWriteFile (p content : string) (ok : bool).

(** [fs.rename], [fs.mkdir], [fs.writeFile] and [path.join]. *)
Record Writer (World : Type) := mkWriter {
  renameAsync : string -> string -> World -> World * bool;
  mkdirAsync : string -> World -> World * bool;
  writeFileAsync : string -> string -> World -> World * bool;
  joinName : string -> string -> string
}.
Arguments renameAsync {World} _ _ _ _.
Arguments mkdirAsync {World} _ _ _.
Arguments writeFileAsync {World} _ _ _ _.
Arguments joinName {World} _ _ _.

Section Writing.

Context {World : Type}.
Variable wr : Writer World.

(** [DirectoryManager.createItem], on the world and the log of operations. *)
Definition createItem (itemName itemPath : string) (itemType : ItemType)
  : M (World * list FsOp) unit :=
  fun '(w, log) =>
    let fullItemName := joinName wr itemPath itemName in
    match itemType with
    | folder =>
        let '(w', ok) := mkdirAsync wr fullItemName w in
        ((w', log ++ [OpMkdir fullItemName ok]),
         if ok then Ok tt
         else Throw (DirectoryError "Could not create directory" fullItemName None))
    | file =>
        let '(w', ok) := writeFileAsync wr fullItemName "" w in
        ((w', log ++ [OpWriteFile fullItemName "" ok]),
         if ok then Ok tt
         else Throw (DirectoryError "Could not create file" fullItemName None))
    end.

(** [DirectoryManager.renameItem] *)
Definition renameItem (oldName newName itemPath : string) : M (World * list FsOp) unit :=
  fun '(w, log) =>
    if String.eqb oldName newName then ((w, log), Ok tt)
    else
      let oldNameFull := joinName wr itemPath oldName in
      let newNameFull := joinName wr itemPath newName in
      let '(w', ok) := renameAsync wr oldNameFull newNameFull w in
      ((w', log ++ [OpRename oldNameFull newNameFull ok]),
       if ok then Ok tt
       else Throw (DirectoryError "Could not rename item" oldNameFull (Some newNameFull))).

End Writing.


Definition is_notify (c : Call) : bool :=
  match c with CNotify _ => true | _ => false end.



(** An [async] function that awaits one call and throws its own error when
    the call fails, called on [a]. *)
Definition single_call {A} (io_of : A -> Io) (error : A -> Error) (a : A) : Async :=
  try_await (io_of a) (error a).

(** How a batch of single calls awaited together ends.  [settled] are the
    items whose call has completed when the batch returns, in the order of
    completion, [oks] their outcomes and [pending] the items whose call is
    still in flight.  Either every call succeeded, nothing is pending and
    the batch returns normally; or the call that completed last failed,
    every call before it succeeded, and the batch throws the error of that
    item. *)
Definition batch_outcome {A} (error : A -> Error) (settled : list A)
    (oks : list bool) (pending : list A) (r : Res unit) : Prop :=
  (oks = repeat true (List.length settled) /\ pending = [] /\ r = Ok tt)
  \/ (exists before failed,
        settled = before ++ [failed]
        /\ oks = repeat true (List.length before) ++ [false]
        /\ r = Throw (error failed)).

(** The errors thrown for an item that could not be copied into a
    directory, or sent to the trash. *)
Definition copy_error {World} (fs : FileSystem World) (destinationDirectory : string)
    (i : IDirectoryItem) : Error :=
  DirectoryError "Failed to copy item" (path i)
    (Some (join fs destinationDirectory (basename fs (path i)))).

Definition trash_error (i : IDirectoryItem) : Error :=
  DirectoryError "Could not send item to trash" (path i) None.

(** ** The directory list component: selection, deletion, creation *)

(** types/DirectoryDirection *)
Inductive DirectoryDirection := up | down.

(** [items[index]] for an integer index: [undefined] out of range. *)
Definition index_at {A} (items : list A) (index : Z) : option A :=
  if (index <? 0)%Z then None else items !! Z.to_nat index.

(** [items.findIndex(predicate)] *)
Fixpoint findIndex {A} (predicate : A -> bool) (items : list A) : Z :=
  match items with
  | [] => (-1)%Z
  | x :: rest =>
      if predicate x then 0%Z
      else let i := findIndex predicate rest in
           if (i <? 0)%Z then (-1)%Z else (i + 1)%Z
  end.

(** The text a template literal prints for an item type. *)
Definition show_type (t : ItemType) : string :=
  match t with file => "file" | folder => "folder" end.

Definition set_creatingNewItem (v : option ItemType) (st : IDirectoryListState) :=
  mkDLState (directoryItems st) (chosenItems st) (selectedIndex st) (showHiddenItems st)
    v (renamingItem st) (itemDeleted st) (isGotoOpen st) (isFocused st).

Definition set_renamingItem (b : bool) (st : IDirectoryListState) :=
  mkDLState (directoryItems st) (chosenItems st) (selectedIndex st) (showHiddenItems st)
    (creatingNewItem st) b (itemDeleted st) (isGotoOpen st) (isFocused st).

(** The items [delete] works on: the chosen items when there are any,
    otherwise the one item under the selection, which is [undefined] when
    the selection is on no item ([None] here, as the method then throws on
    reading its name). *)
Definition selectedItems (st : IDirectoryListState) (nonHidden : list Obj)
  : option (list Obj) :=
  match chosenItems st with
  | [] =>
      match index_at nonHidden (selectedIndex st) with
      | Some o => Some [o]
      | None => None
      end
  | chosen => Some chosen
  end.

Section DirectoryListMore.

Context {World : Type}.
Variable fs : FileSystem World.
Variable wr : Writer World.
Variable parseItemType : IDirectoryItem -> ItemType.

(** [move] *)
Definition move (direction : DirectoryDirection) : M (DirectoryList World) unit :=
  this <- getThis ;;
  match direction with
  | up =>
      if (0 <? selectedIndex (state this))%Z
      then setState (fun prevState =>
                       set_selectedIndex (selectedIndex prevState - 1)%Z prevState)
      else ret tt
  | down =>
      if (selectedIndex (state this)
          <? Z.of_nat (List.length (nonHiddenDirectoryItems (state this))) - 1)%Z
      then setState (fun prevState =>
                       set_selectedIndex (selectedIndex prevState + 1)%Z prevState)
      else ret tt
  end.

(** [selectItem]; the value returned is the identifier sent up with
    [sendSelectedPaneUp], [id] being [this.props.id]. *)
Definition selectItem (id : string) (itemToSelect : IDirectoryItem)
  : M (DirectoryList World) string :=
  this <- getThis ;;
  let index := findIndex (fun o => String.eqb (name (snd o)) (name itemToSelect))
                 (nonHiddenDirectoryItems (state this)) in
  setState (set_selectedIndex index) ;;;
  ret id.

(** [refreshAfterDelete] *)
Definition refreshAfterDelete : M (DirectoryList World) unit :=
  setState (fun st => set_selectedIndex 0%Z (set_itemDeleted true st)).

(** The question [delete] puts to the user. *)
Definition delete_question (selectedItems : list Obj) : string :=
  let chosenItems :=
    if (1 <? List.length selectedItems)%nat then "the chosen items"
    else match selectedItems with
         | o :: _ => "'" +:+ name (snd o) +:+ "'"
         | [] => ""
         end in
  "Are you sure you want to permanently delete " +:+ chosenItems +:+ "?".

(** [delete].  [confirmationDialog] is the answer the user gives to the
    message shown; [order] is the order in which the deletions complete.
    The focus handed back to the key trapper is left out. *)
Definition DirectoryList_delete (confirmationDialog : string -> bool) (order : list nat)
  : M (DirectoryList World) unit :=
  this <- getThis ;;
  match selectedItems (state this) (nonHiddenDirectoryItems (state this)) with
  | None => throw (TypeError "Cannot read property 'name' of undefined")
  | Some items =>
      let confirmDelete := confirmationDialog (delete_question items) in
      if confirmDelete
      then
        ui (CTrace ("Requesting to delete " +:+ joined_paths items)) ;;;
        liftSys (deleteItems fs parseItemType order (map snd items)) ;;;
        refreshAfterDelete ;;;
        ui (CNotify "Deleted items")
      else ret tt
  end.

(** The component together with the log of creations and renamings. *)
Definition liftDL {A} (m : M (DirectoryList World) A)
  : M (DirectoryList World * list FsOp) A :=
  fun '(this, log) =>
    match m this with
    | (this', r) => ((this', log), r)
    end.

Definition liftWriter {A} (m : M (World * list FsOp) A)
  : M (DirectoryList World * list FsOp) A :=
  fun '(this, log) =>
    match m (world (sys this), log) with
    | ((w, log'), r) =>
        ((mkDL (props_path this) (state this) (model this)
            (mkSys w (calls (sys this)) (watcher (sys this))
               (open_watchers (sys this)) (next_watcher (sys this))
               (next_object (sys this)) (in_flight (sys this))),
          log'), r)
    end.

(** [createNewItem] *)
Definition DirectoryList_createNewItem (itemName : option string)
    (itemTypeToCreate : option ItemType) : M (DirectoryList World * list FsOp) unit :=
  match itemName, itemTypeToCreate with
  | Some n, Some t =>
      if truthy n
      then
        this <- liftDL getThis ;;
        liftDL (ui (CTrace ("Requesting to create " +:+ show_type t +:+ " called "
                              +:+ n +:+ " at " +:+ props_path this))) ;;;
        liftWriter (createItem wr n (props_path this) t) ;;;
        liftDL (setState (set_creatingNewItem None))
      else ret tt
  | _, _ => ret tt
  end.

(** [renameItem] of the component *)
Definition DirectoryList_renameItem (oldName newName : option string)
  : M (DirectoryList World * list FsOp) unit :=
  match oldName, newName with
  | Some o, Some n =>
      if truthy o && truthy n
      then
        this <- liftDL getThis ;;
        liftDL (ui (CTrace ("Requesting to rename item from " +:+ o +:+ " to " +:+ n))) ;;;
        liftWriter (renameItem wr o n (props_path this)) ;;;
        liftDL (setState (set_renamingItem false))
      else ret tt
  | _, _ => ret tt
  end.

End DirectoryListMore.

Definition is_watch (c : Call) : bool :=
  match c with CWatch _ _ => true | _ => false end.

(** What a method asks of its surroundings: the callbacks of the parent
    component and the scroll area of the context. *)
Inductive Upcall :=
| ScrollTop
| SendPathUp (p : string).

Section DirectoryListNavigation.

Context {World : Type}.
Variable fs : FileSystem World.

(** Modelled from the spec: [cacheNavigation] of objects/DirectoryListModel,
    which is not among the sources.  The entry is stored under its path and
    replaces an entry already there ("stores/overwrites by path"), and it is
    written only for a listing that is not empty ("written when leaving a
    path with un-empty view"). *)
Definition cacheNavigation (p : string) (index : Z) (items : list Obj)
  : M (DirectoryList World) unit :=
  fun this =>
    let m := model this in
    match items with
    | [] => (this, Ok tt)
    | _ :: _ =>
        (mkDL (props_path this) (state this)
           (mkModel (clipboardAction m) (clipboardItems m)
              (<[p := (index, items)]> (cachedNavigations m)))
           (sys this),
         Ok tt)
    end.

(** [goIn]; the value returned lists the calls made on the scroll area and
    on the parent. *)
Definition goIn (pathToDirectory : string) : M (DirectoryList World) (list Upcall) :=
  this <- getThis ;;
  cacheNavigation (props_path this) (selectedIndex (state this))
    (directoryItems (state this)) ;;;
  setState (set_selectedIndex 0%Z) ;;;
  ret [ScrollTop; SendPathUp pathToDirectory].

(** [goBack] *)
Definition goBack : M (DirectoryList World) (list Upcall) :=
  this <- getThis ;;
  let parentDirectory := join fs (props_path this) ".." in
  setState (set_selectedIndex 0%Z) ;;;
  ret [ScrollTop; SendPathUp parentDirectory].

(** [navigateToPath] *)
Definition navigateToPath (filePath : string) : M (DirectoryList World) (list Upcall) :=
  this <- getThis ;;
  if negb (String.eqb filePath (props_path this))
  then ret [SendPathUp filePath]
  else ret [].

(** What happens to a pane that stays on its path: its state is set (a key
    moves the selection, an item is chosen, an input opens), or React runs
    [componentDidUpdate] with the props unchanged. *)
Inductive PaneEvent :=
| StateSet (f : IDirectoryListState -> IDirectoryListState)
| Updated (prevState : IDirectoryListState).

Definition pane_event (e : PaneEvent) : M (DirectoryList World) unit :=
  match e with
  | StateSet f => setState f
  | Updated prevState =>
      this <- getThis ;;
      componentDidUpdate fs (props_path this) prevState
  end.

(** A sequence of such events; an update that throws leaves the pane as it
    was when it threw. *)
Fixpoint pane_events (es : list PaneEvent) (this : DirectoryList World)
  : DirectoryList World :=
  match es with
  | [] => this
  | e :: rest => pane_events rest (fst (pane_event e this))
  end.

End DirectoryListNavigation.

(** More instances, used to run the navigator further. *)
Module Runs.

(** [/a/b] has been prefetched, and [toChild] entered it while the listing
    of the parent of [/a] was still pending. *)
Definition entered_early : State :=
  fst (toChild "/a/b" (fst (complete Examples.tree 0 Examples.parent_known))).

(** A reader for the tree [/a/{b/,c}], and one for which [/a/c] cannot be
    stat'ed.  The default sorter puts directories first. *)
Definition directories_first (l : list IDirectoryItem) : list IDirectoryItem :=
  List.filter isDirectory l ++ List.filter (fun i => negb (isDirectory i)) l.

Definition reader : Reader :=
  mkReader
    (fun p => if String.eqb p "/a" || String.eqb p "/a/b" then Ok true
              else if String.eqb p "/a/c" then Ok false
              else Throw (SystemError "ENOENT"))
    (fun p => if String.eqb p "/a" then Ok ["c"; "b"]
              else if String.eqb p "/a/b" then Ok []
              else Throw (SystemError "ENOTDIR"))
    (fun _ _ => false)
    directories_first
    Examples.posix_join.

Definition no_options : IListDirectoryOptions := mkOptions false None None.

(** A pane on [/t] showing three files and hiding a fourth, with the
    selection on the second. *)
Definition hidden_file := mkItem ".git" "/t/.git" false true.

Definition listed_pane (d : Examples.Disk) : DirectoryList Examples.Disk :=
  mkDL "/t"
    (mkDLState [(0, hidden_file); (1, Examples.file_1); (2, Examples.file_2);
                (3, Examples.file_3)]
       [] 1 false None false false false true)
    (mkModel None None ∅)
    (mkSys d [] None [] 0 4 []).

Definition unlocked : Examples.Disk := Examples.mkDisk ["/t/1"; "/t/2"; "/t/3"] [].

(** [fs.rename], [fs.mkdir] and [fs.writeFile] on a disk: a path is created
    unless it exists or is locked. *)
Definition add_path (p : string) (d : Examples.Disk) : Examples.Disk * bool :=
  if Examples.has (Examples.present d) p || Examples.has (Examples.locked d) p
  then (d, false)
  else (Examples.mkDisk (Examples.present d ++ [p]) (Examples.locked d), true).

Definition disk_writer : Writer Examples.Disk :=
  mkWriter Examples.Disk
    (fun old new d =>
       if Examples.has (Examples.present d) old
          && negb (Examples.has (Examples.locked d) new)
       then (Examples.mkDisk
               (List.filter (fun q => negb (String.eqb old q)) (Examples.present d)
                  ++ [new])
               (Examples.locked d), true)
       else (d, false))
    add_path
    (fun p _ d => add_path p d)
    Examples.posix_join.

(** A disk holding [/t] and its three files, whose directory reads return
    the three files. *)
Definition t_disk : Examples.Disk :=
  Examples.mkDisk ["/t"; "/t/1"; "/t/2"; "/t/3"] [].

Definition t_fs : FileSystem Examples.Disk :=
  mkFS Examples.Disk
    (rmdirAsync Examples.disk_fs) (unlinkAsync Examples.disk_fs)
    (copyFileAsync Examples.disk_fs) (trash Examples.disk_fs)
    (watchable Examples.disk_fs)
    (fun p d => if String.eqb p "/t"
                then Ok [Examples.file_1; Examples.file_2; Examples.file_3]
                else readDirectory Examples.disk_fs p d)
    Examples.posix_basename Examples.posix_join.

(** A pane that is sent to [/t] with two items chosen, with or without a
    cached navigation for [/t]. *)
Definition arriving (cache : gmap string (Z * list Obj)) : DirectoryList Examples.Disk :=
  mkDL "/t"
    (mkDLState [(7, Examples.item_a)] [(1, Examples.file_1); (7, Examples.item_a)]
       0 false None false false false true)
    (mkModel None None cache)
    (mkSys t_disk [] None [] 0 8 []).

(** A disk holding [/t] with the directory [/t/d] and the file [/t/1]; only
    directories can be read, and [/t/d] is empty. *)
Definition dir_d := mkItem "d" "/t/d" true false.

Definition home_disk : Examples.Disk := Examples.mkDisk ["/t"; "/t/d"; "/t/1"] [].

Definition home_fs : FileSystem Examples.Disk :=
  mkFS Examples.Disk
    (rmdirAsync Examples.disk_fs) (unlinkAsync Examples.disk_fs)
    (copyFileAsync Examples.disk_fs) (trash Examples.disk_fs)
    (watchable Examples.disk_fs)
    (fun p d => if String.eqb p "/t" then Ok [dir_d; Examples.file_1]
                else if String.eqb p "/t/d" then Ok []
                else Throw (SystemError "ENOTDIR"))
    Examples.posix_basename Examples.posix_join.

(** A pane on [/t] showing both, with the selection on the file. *)
Definition home : DirectoryList Examples.Disk :=
  mkDL "/t"
    (mkDLState [(0, dir_d); (1, Examples.file_1)] [] 1 false None false false false true)
    (mkModel None None ∅)
    (mkSys home_disk [] None [] 0 2 []).

Definition cached_t : gmap string (Z * list Obj) :=
  {[ "/t" := (1%Z, [(1, Examples.file_1); (2, Examples.file_2)]) ]}.

End Runs.

(** * Properties *)

Lemma issued_app s s' l : trace s' = trace s ++ l -> issued s s' = l.
Proof.
  intros H. unfold issued. rewrite H. apply drop_app_length.
Qed.

(** ** Re-priming *)

Lemma retrieveGrandChildren_nav items : forall s,
  nav (retrieveGrandChildren items s) = nav s.
Proof.
  induction items as [|r rest IH]; intros s; simpl; [reflexivity|].
  destruct (heap s !! r) as [o|]; [|apply IH].
  destruct (isDirectory (item o)); rewrite IH; reflexivity.
Qed.

Lemma retrieveGrandChildren_heap items : forall s,
  heap (retrieveGrandChildren items s) = heap s.
Proof.
  induction items as [|r rest IH]; intros s; simpl; [reflexivity|].
  destruct (heap s !! r) as [o|]; [|apply IH].
  destruct (isDirectory (item o)); rewrite IH; reflexivity.
Qed.

Lemma retrieveGrandChildren_trace items : forall s,
  trace (retrieveGrandChildren items s)
  = trace s ++ map EvListDirectory (directory_paths (heap s) items).
Proof.
  induction items as [|r rest IH]; intros s; simpl.
  - symmetry. apply app_nil_r.
  - destruct (heap s !! r) as [o|]; [|apply IH].
    destruct (isDirectory (item o)); rewrite IH; simpl; [|reflexivity].
    rewrite <- app_assoc. reflexivity.
Qed.

Lemma listed_map_paths p l :
  EvListDirectory p ∈ map EvListDirectory l <-> p ∈ l.
Proof.
  rewrite !list_elem_of_In, in_map_iff. split.
  - intros (q & Heq & Hin). inversion Heq. subst. exact Hin.
  - intros Hin. exists p. split; [reflexivity|exact Hin].
Qed.

(** ** Resolving the parent *)

Lemma resolveParent_trace dirname dm p s :
  trace (resolveParent dirname dm p s) = trace s ++ parent_events dirname dm p.
Proof.
  unfold resolveParent, parent_events, onParentPath.
  destruct (exists_ dm (dirname p)); simpl; [|reflexivity].
  destruct (truthy (dirname p)); simpl; [|reflexivity].
  rewrite <- app_assoc. reflexivity.
Qed.

Lemma resolveParent_heap dirname dm p s :
  heap (resolveParent dirname dm p s) = heap s.
Proof.
  unfold resolveParent, onParentPath.
  destruct (exists_ dm (dirname p)); simpl; [|reflexivity].
  destruct (truthy (dirname p)); reflexivity.
Qed.

Lemma resolveParent_current dirname dm p s :
  currentPath (nav (resolveParent dirname dm p s)) = currentPath (nav s)
  /\ currentDirectoryItems (nav (resolveParent dirname dm p s))
     = currentDirectoryItems (nav s)
  /\ parentDirectoryItems (nav (resolveParent dirname dm p s))
     = parentDirectoryItems (nav s).
Proof.
  unfold resolveParent, onParentPath.
  destruct (exists_ dm (dirname p)); simpl; [|tauto].
  destruct (truthy (dirname p)); simpl; tauto.
Qed.

Lemma listed_parent_events dirname dm p q :
  EvListDirectory q ∈ parent_events dirname dm p -> q = dirname p.
Proof.
  unfold parent_events. intros H.
  apply elem_of_cons in H as [H|H]; [discriminate|].
  destruct (exists_ dm (dirname p) && truthy (dirname p)).
  - apply list_elem_of_singleton in H. inversion H. reflexivity.
  - inversion H.
Qed.

Lemma is_parent_true pp p : is_parent pp p = true <-> pp = PPath p.
Proof.
  destruct pp as [| |q]; simpl; split; try discriminate.
  - intros H. apply String.eqb_eq in H. subst. reflexivity.
  - intros H. inversion H. apply String.eqb_refl.
Qed.

(** ** Navigator *)

(** C10. [toChild] called while [currentDirectoryItems] is still undefined
    returns normally and changes nothing: neither a field of the navigator,
    nor the heap, nor the pending tasks, nor the trace. *)
Theorem toChild_before_listing (folderPath : string) (s : State) :
  currentDirectoryItems (nav s) = None ->
  toChild folderPath s = (s, Ok tt).
Proof.
  intros H. unfold toChild. rewrite H. reflexivity.
Qed.

Lemma toChild_before_listing_witness :
  toChild "/a/b" Examples.started = (Examples.started, Ok tt).
Proof.
  apply toChild_before_listing. reflexivity.
Defined.

Lemma find_path_Some h items p r :
  find_path h items p = Some r ->
  exists o, h !! r = Some o /\ path (item o) = p.
Proof.
  induction items as [|x rest IH]; simpl; [discriminate|].
  destruct (h !! x) as [o|] eqn:Hx; [|exact IH].
  destruct (String.eqb (path (item o)) p) eqn:Hp; [|exact IH].
  intros H. inversion H. subst. exists o. split; [exact Hx|].
  apply String.eqb_eq. exact Hp.
Qed.

(** [toChild] on an entry whose child list has been retrieved. *)
Lemma toChild_resolved c s items r o grandChildItems :
  currentDirectoryItems (nav s) = Some items ->
  find_path (heap s) items c = Some r ->
  heap s !! r = Some o ->
  childItems o = Some grandChildItems ->
  toChild c s =
    (retrieveGrandChildren grandChildItems
       (set_nav (mkNav (Some c) (Some grandChildItems)
                   (match currentPath (nav s) with
                    | Some p => PPath p
                    | None => PUndefined
                    end)
                   (Some items)) s),
     Ok tt).
Proof.
  intros Hi Hf Hh Hc. unfold toChild. rewrite Hi, Hf, Hh, Hc.
  destruct (find_path_Some _ _ _ _ Hf) as (o' & Ho' & Hp).
  rewrite Hh in Ho'. inversion Ho'. subst o'. rewrite Hp. reflexivity.
Qed.

(** C2, as the code has it.  For [childPath] an entry of the current
    listing: when the entry's child list has been retrieved, [toChild]
    succeeds, the retrieved list becomes the current entries, the previous
    entries become the parent entries, and the only calls issued are the
    listings that re-prime the directories of the new entries, so none for
    [childPath] unless it is among them; when the child list has not been
    retrieved, [toChild] throws a [LoggedError] and changes nothing, with no
    listing of [childPath]. *)
Theorem toChild_promotes_or_fails (childPath : string) (s : State)
    (items : list ref) (r : ref) (o : INavigatorDirectoryItem) :
  currentDirectoryItems (nav s) = Some items ->
  find_path (heap s) items childPath = Some r ->
  heap s !! r = Some o ->
  match childItems o with
  | Some grandChildItems =>
      let s' := fst (toChild childPath s) in
      snd (toChild childPath s) = Ok tt
      /\ currentPath (nav s') = Some childPath
      /\ currentDirectoryItems (nav s') = Some grandChildItems
      /\ parentDirectoryItems (nav s') = Some items
      /\ heap s' = heap s
      /\ issued s s' = map EvListDirectory (directory_paths (heap s) grandChildItems)
      /\ (childPath ∉ directory_paths (heap s) grandChildItems ->
          ~ listed childPath (issued s s'))
  | None =>
      toChild childPath s =
        (s, Throw (LoggedError
                     ("Child items for " +:+ childPath +:+ " have not begun retrieval")))
  end.
Proof.
  intros Hi Hf Hh.
  destruct (childItems o) as [gc|] eqn:Hc.
  - rewrite (toChild_resolved _ _ _ _ _ _ Hi Hf Hh Hc). simpl.
    rewrite retrieveGrandChildren_nav, retrieveGrandChildren_heap. simpl.
    assert (Hiss : issued s
              (retrieveGrandChildren gc
                 (set_nav (mkNav (Some childPath) (Some gc)
                             (match currentPath (nav s) with
                              | Some p => PPath p
                              | None => PUndefined
                              end) (Some items)) s))
            = map EvListDirectory (directory_paths (heap s) gc)).
    { apply issued_app. rewrite retrieveGrandChildren_trace. reflexivity. }
    repeat split; try reflexivity; [exact Hiss|].
    intros Hn Hl. unfold listed in Hl. rewrite Hiss in Hl.
    apply listed_map_paths in Hl. contradiction.
  - unfold toChild. rewrite Hi, Hf, Hh, Hc.
    destruct (find_path_Some _ _ _ _ Hf) as (o' & Ho' & Hp).
    rewrite Hh in Ho'. inversion Ho'. subst o'. rewrite Hp. reflexivity.
Qed.

Lemma toChild_promotes_or_fails_witness :
  let s' := fst (toChild "/a/b" Examples.primed) in
  snd (toChild "/a/b" Examples.primed) = Ok tt
  /\ currentPath (nav s') = Some "/a/b"
  /\ currentDirectoryItems (nav s') = Some [3]
  /\ parentDirectoryItems (nav s') = Some [0; 1]
  /\ heap s' = heap Examples.primed
  /\ issued Examples.primed s'
     = map EvListDirectory (directory_paths (heap Examples.primed) [3])
  /\ ("/a/b" ∉ directory_paths (heap Examples.primed) [3] ->
      ~ listed "/a/b" (issued Examples.primed s')).
Proof.
  apply (toChild_promotes_or_fails "/a/b" Examples.primed [0; 1] 0
           (mkNavItem Examples.item_b (Some [3]))); reflexivity.
Defined.

(** C2 as first stated does not hold: on a directory entry whose child list
    has not been retrieved, [toChild] throws and lists nothing. *)
Lemma toChild_has_no_fallback :
  currentDirectoryItems (nav Examples.listed_only) = Some [0; 1]
  /\ heap Examples.listed_only !! 0 = Some (mkNavItem Examples.item_b None)
  /\ isDirectory Examples.item_b = true
  /\ snd (toChild "/a/b" Examples.listed_only)
     = Throw (LoggedError "Child items for /a/b have not begun retrieval")
  /\ ~ listed "/a/b"
       (issued Examples.listed_only (fst (toChild "/a/b" Examples.listed_only))).
Proof.
  repeat split; try reflexivity.
  unfold listed. vm_compute. intros H. inversion H.
Qed.

(** [toParent] when the parent path is a string and the parent entries are
    tracked. *)
Lemma toParent_tracked dirname dm s pp items :
  parentDirectoryPath (nav s) = PPath pp ->
  parentDirectoryItems (nav s) = Some items ->
  toParent dirname dm s =
    (resolveParent dirname dm pp
       (retrieveGrandChildren items
          (set_nav (mkNav (Some pp) (Some items) (PPath pp) (Some items)) s)),
     Ok tt).
Proof.
  intros Hp Hi. unfold toParent. rewrite Hp, Hi. reflexivity.
Qed.

Lemma toParent_tracked_events dirname dm s pp items :
  parentDirectoryPath (nav s) = PPath pp ->
  parentDirectoryItems (nav s) = Some items ->
  trace (fst (toParent dirname dm s))
  = trace s ++ map EvListDirectory (directory_paths (heap s) items)
      ++ parent_events dirname dm pp.
Proof.
  intros Hp Hi. rewrite (toParent_tracked _ _ _ _ _ Hp Hi). simpl.
  rewrite resolveParent_trace, retrieveGrandChildren_trace. simpl.
  rewrite <- app_assoc. reflexivity.
Qed.

Lemma toParent_tracked_trace dirname dm s pp items :
  parentDirectoryPath (nav s) = PPath pp ->
  parentDirectoryItems (nav s) = Some items ->
  issued s (fst (toParent dirname dm s))
  = map EvListDirectory (directory_paths (heap s) items) ++ parent_events dirname dm pp.
Proof.
  intros Hp Hi. apply issued_app. apply toParent_tracked_events; assumption.
Qed.

(** [toParent] on a cursor whose parent path is a string and whose parent
    entries are tracked: what it leaves and what it issues. *)
Lemma toParent_promotes dirname dm s pp items :
  parentDirectoryPath (nav s) = PPath pp ->
  parentDirectoryItems (nav s) = Some items ->
  let s' := fst (toParent dirname dm s) in
  snd (toParent dirname dm s) = Ok tt
  /\ currentPath (nav s') = Some pp
  /\ currentDirectoryItems (nav s') = Some items
  /\ heap s' = heap s
  /\ issued s s'
     = map EvListDirectory (directory_paths (heap s) items)
       ++ parent_events dirname dm pp
  /\ (pp ∉ directory_paths (heap s) items -> dirname pp <> pp ->
      ~ listed pp (issued s s')).
Proof.
  intros Hp Hi s'.
  pose proof (toParent_tracked_trace dirname dm s pp items Hp Hi) as Htr.
  fold s' in Htr. subst s'.
  rewrite (toParent_tracked _ _ _ _ _ Hp Hi) in *. simpl in *.
  destruct (resolveParent_current dirname dm pp
              (retrieveGrandChildren items
                 (set_nav (mkNav (Some pp) (Some items) (PPath pp) (Some items)) s)))
    as (Hc & Hd & _).
  rewrite Hc, Hd, resolveParent_heap, retrieveGrandChildren_nav,
    retrieveGrandChildren_heap. simpl.
  split; [reflexivity|]. split; [reflexivity|]. split; [reflexivity|].
  split; [reflexivity|]. split; [exact Htr|].
  intros Hn Hd' Hl. unfold listed in Hl. rewrite Htr in Hl.
  apply elem_of_app in Hl as [Hl|Hl].
  - apply listed_map_paths in Hl. contradiction.
  - apply listed_parent_events in Hl. congruence.
Qed.







(** ** Jumping to the current path *)

Lemma retrieveGrandChildren_tasks items : forall s,
  tasks (retrieveGrandChildren items s) = tasks s ++ grandchild_tasks (heap s) items.
Proof.
  induction items as [|r rest IH]; intros s; simpl.
  - symmetry. apply app_nil_r.
  - destruct (heap s !! r) as [o|]; [|apply IH].
    destruct (isDirectory (item o)); rewrite IH; simpl; [|reflexivity].
    rewrite <- app_assoc. reflexivity.
Qed.

Lemma resolveParent_tasks dirname dm p s :
  tasks (resolveParent dirname dm p s)
  = tasks s ++ (if exists_ dm (dirname p) && truthy (dirname p)
                then [TParentItems (dirname p)] else []).
Proof.
  unfold resolveParent, onParentPath.
  destruct (exists_ dm (dirname p)); simpl; [|symmetry; apply app_nil_r].
  destruct (truthy (dirname p)); simpl; [reflexivity|symmetry; apply app_nil_r].
Qed.

Lemma resolveParent_parent dirname dm p s :
  parentDirectoryPath (nav (resolveParent dirname dm p s))
  = if exists_ dm (dirname p) then PPath (dirname p) else PNull.
Proof.
  unfold resolveParent, onParentPath.
  destruct (exists_ dm (dirname p)); simpl; [|reflexivity].
  destruct (truthy (dirname p)); reflexivity.
Qed.

(** C1, as the code has it.  [toDirectory p] with [p] the current path, [p]
    neither the tracked parent path nor the path of a current entry, keeps
    the current path but is not a no-op: it issues a listing of [p].  When
    the listing succeeds the current entries are replaced by the fresh
    objects it returned, their directories are listed for the prefetch, and
    the parent is resolved again: the existence of [dirname p] is asked,
    the parent path becomes [dirname p], or null when it does not exist, and
    a listing of the parent is issued when it does (the parent entries
    tracked so far stay until that listing completes).  When the listing of
    [p] fails the call fails with that error, nothing else is issued, and
    the entries and the parent stay as they were. *)
Theorem toDirectory_current_path_relists (dirname : string -> string)
    (dm : IDirectoryManager) (p : string) (s : State) :
  currentPath (nav s) = Some p ->
  parentDirectoryPath (nav s) <> PPath p ->
  match currentDirectoryItems (nav s) with
  | Some items => find_path (heap s) items p = None
  | None => True
  end ->
  let s' := fst (toDirectory dirname dm p s) in
  currentPath (nav s') = Some p
  /\ (exists rest, issued s s' = EvListDirectory p :: rest)
  /\ match listDirectory dm p with
     | Ok l =>
         let items := seq (List.length (heap s)) (List.length l) in
         snd (toDirectory dirname dm p s) = Ok tt
         /\ currentDirectoryItems (nav s') = Some items
         /\ heap s' = heap s ++ map (fun i => mkNavItem i None) l
         /\ parentDirectoryPath (nav s')
            = (if exists_ dm (dirname p) then PPath (dirname p) else PNull)
         /\ parentDirectoryItems (nav s') = parentDirectoryItems (nav s)
         /\ issued s s'
            = EvListDirectory p
              :: map EvListDirectory (directory_paths (heap s') items)
              ++ parent_events dirname dm p
         /\ tasks s'
            = tasks s ++ grandchild_tasks (heap s') items
              ++ (if exists_ dm (dirname p) && truthy (dirname p)
                  then [TParentItems (dirname p)] else [])
     | Throw e =>
         snd (toDirectory dirname dm p s) = Throw e
         /\ currentDirectoryItems (nav s') = currentDirectoryItems (nav s)
         /\ heap s' = heap s
         /\ parentDirectoryPath (nav s') = parentDirectoryPath (nav s)
         /\ parentDirectoryItems (nav s') = parentDirectoryItems (nav s)
         /\ issued s s' = [EvListDirectory p]
         /\ tasks s' = tasks s
     end.
Proof.
  intros Hcur Hpar Hnone s'.
  assert (Hfresh : toDirectory dirname dm p s = toDirectory_fresh dirname dm p s).
  { unfold toDirectory.
    destruct (is_parent (parentDirectoryPath (nav s)) p) eqn:Hip.
    - apply is_parent_true in Hip. contradiction.
    - destruct (currentDirectoryItems (nav s)) as [items|]; [|reflexivity].
      rewrite Hnone. reflexivity. }
  subst s'. rewrite Hfresh. unfold toDirectory_fresh.
  destruct (listDirectory dm p) as [l|e]; simpl.
  - match goal with
    | |- context [resolveParent ?d ?m ?q ?t] =>
        destruct (resolveParent_current d m q t) as (Hc & Hd & Hpi);
        pose proof (resolveParent_parent d m q t) as Hpp
    end.
    rewrite Hc, Hd, Hpi, Hpp, resolveParent_heap, retrieveGrandChildren_nav,
      retrieveGrandChildren_heap. simpl.
    assert (Hissued :
      issued s
        (resolveParent dirname dm p
           (retrieveGrandChildren (seq (List.length (heap s)) (List.length l))
              (set_nav
                 (mkNav (Some p) (Some (seq (List.length (heap s)) (List.length l)))
                    (parentDirectoryPath (nav s)) (parentDirectoryItems (nav s)))
                 (mkState
                    (mkNav (Some p) (currentDirectoryItems (nav s))
                       (parentDirectoryPath (nav s)) (parentDirectoryItems (nav s)))
                    (heap s ++ map (fun i => mkNavItem i None) l) (tasks s)
                    (trace s ++ [EvListDirectory p])))))
      = EvListDirectory p
        :: map EvListDirectory
             (directory_paths (heap s ++ map (fun i => mkNavItem i None) l)
                (seq (List.length (heap s)) (List.length l)))
        ++ parent_events dirname dm p).
    { apply issued_app.
      rewrite resolveParent_trace, retrieveGrandChildren_trace. simpl.
      rewrite <- !app_assoc. reflexivity. }
    split; [reflexivity|]. split; [eexists; exact Hissued|].
    split; [reflexivity|]. split; [reflexivity|]. split; [reflexivity|].
    split; [reflexivity|]. split; [reflexivity|]. split; [exact Hissued|].
    rewrite resolveParent_tasks, retrieveGrandChildren_tasks. simpl.
    rewrite <- app_assoc. reflexivity.
  - split; [reflexivity|].
    assert (Hissued : issued s
                        (emit (EvListDirectory p)
                           (set_nav
                              (mkNav (Some p) (currentDirectoryItems (nav s))
                                 (parentDirectoryPath (nav s))
                                 (parentDirectoryItems (nav s))) s))
                      = [EvListDirectory p]).
    { apply issued_app. reflexivity. }
    split; [eexists; exact Hissued|].
    split; [reflexivity|]. split; [reflexivity|]. split; [reflexivity|].
    split; [reflexivity|]. split; [reflexivity|]. split; [exact Hissued|reflexivity].
Qed.

Lemma toDirectory_current_path_relists_witness :
  let s' := fst (toDirectory Examples.posix_dirname Examples.tree "/a" Examples.primed) in
  snd (toDirectory Examples.posix_dirname Examples.tree "/a" Examples.primed) = Ok tt
  /\ currentPath (nav s') = Some "/a"
  /\ currentDirectoryItems (nav s') = Some [5; 6]
  /\ heap s' = heap Examples.primed
               ++ [mkNavItem Examples.item_b None; mkNavItem Examples.item_c None]
  /\ parentDirectoryPath (nav s') = PPath "/"
  /\ issued Examples.primed s'
     = [EvListDirectory "/a"; EvListDirectory "/a/b"; EvExists "/"; EvListDirectory "/"]
  /\ tasks s' = tasks Examples.primed ++ [TGrandChildren 5 "/a/b"; TParentItems "/"].
Proof.
  intros s'.
  destruct (toDirectory_current_path_relists Examples.posix_dirname Examples.tree
              "/a" Examples.primed) as (H1 & _ & H2 & H3 & H4 & H5 & _ & H6 & H7).
  - reflexivity.
  - vm_compute. discriminate.
  - reflexivity.
  - refine (conj H2 (conj H1 (conj H3 (conj H4 (conj H5 (conj H6 _)))))).
    exact H7.
Defined.

(** C1 as first stated does not hold: jumping to the current path lists that
    path again and replaces the current entries. *)
Lemma toDirectory_current_path_not_noop :
  let s' := fst (toDirectory Examples.posix_dirname Examples.tree "/a" Examples.primed) in
  currentPath (nav Examples.primed) = Some "/a"
  /\ listed "/a" (issued Examples.primed s')
  /\ currentDirectoryItems (nav Examples.primed) = Some [0; 1]
  /\ currentDirectoryItems (nav s') = Some [5; 6].
Proof.
  repeat split. vm_compute. apply list_elem_of_here.
Qed.

(** ** Failures of the prefetch *)



(** ** Directory manager: moving and deleting *)

Lemma lookup_map {A B} (f : A -> B) (l : list A) : forall k,
  map f l !! k = option_map f (l !! k).
Proof.
  induction l as [|x l IH]; intros [|k]; simpl; try reflexivity. apply IH.
Qed.

Section DirectoryManagerFacts.

Context {World : Type}.
Variable fs : FileSystem World.
Variable parseItemType : IDirectoryItem -> ItemType.

Lemma set_in_flight_id (st : Sys World) : set_in_flight (in_flight st) st = st.
Proof. destruct st. reflexivity. Qed.

Lemma perform_calls io (st : Sys World) :
  calls (fst (perform fs io st)) = calls st ++ [io_call io (snd (perform fs io st))]
  /\ in_flight (fst (perform fs io st)) = in_flight st
  /\ world (fst (perform fs io st)) = fst (io_effect fs io (world st))
  /\ snd (perform fs io st) = snd (io_effect fs io (world st)).
Proof.
  unfold perform. destruct (io_effect fs io (world st)) as [w ok]. simpl. auto.
Qed.

Lemma perform_set_in_flight io l (st : Sys World) :
  perform fs io (set_in_flight l st)
  = (set_in_flight l (fst (perform fs io st)), snd (perform fs io st)).
Proof.
  unfold perform. simpl. destruct (io_effect fs io (world st)) as [w ok]. reflexivity.
Qed.

Lemma perform_each_set_in_flight ios : forall l (st : Sys World),
  perform_each fs ios (set_in_flight l st)
  = (set_in_flight l (fst (perform_each fs ios st)), snd (perform_each fs ios st)).
Proof.
  induction ios as [|io ios IH]; intros l st; simpl; [reflexivity|].
  rewrite perform_set_in_flight.
  destruct (perform fs io st) as [st1 ok]. simpl. rewrite IH.
  destruct (perform_each fs ios st1) as [st2 oks]. reflexivity.
Qed.

Lemma perform_each_app ios1 ios2 (st : Sys World) :
  perform_each fs (ios1 ++ ios2) st
  = (fst (perform_each fs ios2 (fst (perform_each fs ios1 st))),
     snd (perform_each fs ios1 st)
     ++ snd (perform_each fs ios2 (fst (perform_each fs ios1 st)))).
Proof.
  revert st. induction ios1 as [|io ios1 IH]; intros st; simpl.
  - destruct (perform_each fs ios2 st). reflexivity.
  - destruct (perform fs io st) as [st1 ok]. rewrite IH.
    destruct (perform_each fs ios1 st1) as [st2 oks]. reflexivity.
Qed.

Lemma perform_each_in_flight ios : forall st : Sys World,
  in_flight (fst (perform_each fs ios st)) = in_flight st.
Proof.
  induction ios as [|io ios IH]; intros st; simpl; [reflexivity|].
  pose proof (perform_calls io st) as (_ & Hf & _).
  destruct (perform fs io st) as [st1 ok]. simpl in Hf.
  specialize (IH st1). destruct (perform_each fs ios st1) as [st2 oks].
  simpl in *. congruence.
Qed.

(** C8, as the code has it.  [moveItem] awaits the copy and then the
    deletion of the source.  When the copy fails, the file system is left as
    the failed copy left it, the only call made is that copy, and the caller
    gets a [DirectoryError] naming the source and the destination directory.
    When the copy reports success, the deletion of the source follows on
    what the copy left, and a failure of that deletion is reported the same
    way.  Among other promises, the move that is resumed with the outcome of
    its copy awaits the deletion only when the copy succeeded. *)
Theorem moveItem_copy_then_delete (itemPath destinationDirectory : string)
    (itemType : ItemType) (st : Sys World) :
  let destinationFileName := join fs destinationDirectory (basename fs itemPath) in
  let copied := copyFileAsync fs itemPath destinationFileName (world st) in
  let deleted :=
    match itemType with
    | folder => rmdirAsync fs itemPath (fst copied)
    | file => unlinkAsync fs itemPath (fst copied)
    end in
  let failure :=
    DirectoryError "Failed to copy item" itemPath (Some destinationDirectory) in
  let moved := await fs (moveItem fs itemPath destinationDirectory itemType) st in
  (snd copied = false ->
     moved = (call (CCopy itemPath destinationFileName false) (fst copied) st,
              Throw failure)
     /\ resume fs (moveItem fs itemPath destinationDirectory itemType) st
        = (fst moved, Settled (Throw failure)))
  /\ (snd copied = true ->
      moved = (call (deletion_call itemType itemPath (snd deleted)) (fst deleted)
                 (call (CCopy itemPath destinationFileName true) (fst copied) st),
               if snd deleted then Ok tt else Throw failure)
      /\ resume fs (moveItem fs itemPath destinationDirectory itemType) st
         = (call (CCopy itemPath destinationFileName true) (fst copied) st,
            catching (deleteItem itemPath itemType) failure)).
Proof.
  intros dst copied deleted failure moved. subst moved deleted.
  unfold moveItem, copyItem, try_await. fold dst. simpl.
  unfold perform. simpl. fold copied.
  destruct copied as [w ok] eqn:Hc. simpl. split; intros Hok; subst ok; simpl.
  - split; reflexivity.
  - destruct itemType; simpl; unfold perform; simpl.
    + destruct (unlinkAsync fs itemPath w) as [w' [|]]; split; reflexivity.
    + destruct (rmdirAsync fs itemPath w) as [w' [|]]; split; reflexivity.
Qed.

Lemma perform_each_effects ios : forall st : Sys World,
  world (fst (perform_each fs ios st)) = fst (effects fs ios (world st))
  /\ calls (fst (perform_each fs ios st))
     = calls st ++ zip_with io_call ios (snd (effects fs ios (world st)))
  /\ snd (perform_each fs ios st) = snd (effects fs ios (world st)).
Proof.
  induction ios as [|io ios IH]; intros st; simpl.
  - rewrite app_nil_r. auto.
  - unfold perform. destruct (io_effect fs io (world st)) as [w ok]. simpl.
    specialize (IH (call (io_call io ok) w st)). simpl in IH.
    destruct (perform_each fs ios (call (io_call io ok) w st)) as [st2 oks].
    destruct (effects fs ios w) as [w2 oks2]. simpl in *.
    destruct IH as (H1 & H2 & H3). rewrite H1, H2, H3, <- app_assoc. auto.
Qed.

End DirectoryManagerFacts.

Lemma moveItem_copy_then_delete_witness :
  (let st := Examples.boot Examples.full_destination in
   await Examples.disk_fs (moveItem Examples.disk_fs "/t/1" "/dst" file) st
   = (mkSys Examples.full_destination [CCopy "/t/1" "/dst/1" false] None [] 0 0 [],
      Throw (DirectoryError "Failed to copy item" "/t/1" (Some "/dst"))))
  /\ (let st := Examples.boot Examples.second_locked in
      await Examples.disk_fs (moveItem Examples.disk_fs "/t/2" "/dst" file) st
      = (mkSys (Examples.mkDisk ["/t/1"; "/t/2"; "/t/3"; "/dst/2"] ["/t/2"])
           [CCopy "/t/2" "/dst/2" true; CUnlink "/t/2" false] None [] 0 0 [],
         Throw (DirectoryError "Failed to copy item" "/t/2" (Some "/dst"))))
  /\ (let st := Examples.boot Examples.second_locked in
      await Examples.disk_fs (moveItem Examples.disk_fs "/t/1" "/dst" file) st
      = (mkSys (Examples.mkDisk ["/t/2"; "/t/3"; "/dst/1"] ["/t/2"])
           [CCopy "/t/1" "/dst/1" true; CUnlink "/t/1" true] None [] 0 0 [],
         Ok tt)).
Proof.
  split; [|split].
  - destruct (moveItem_copy_then_delete Examples.disk_fs "/t/1" "/dst" file
                (Examples.boot Examples.full_destination)) as [H _].
    destruct H as [H _]; [reflexivity|]. exact H.
  - destruct (moveItem_copy_then_delete Examples.disk_fs "/t/2" "/dst" file
                (Examples.boot Examples.second_locked)) as [_ H].
    destruct H as [H _]; [reflexivity|]. exact H.
  - destruct (moveItem_copy_then_delete Examples.disk_fs "/t/1" "/dst" file
                (Examples.boot Examples.second_locked)) as [_ H].
    destruct H as [H _]; [reflexivity|]. exact H.
Defined.

(** C8 as first stated does not hold: a move can lose data without any
    error.  [/t/1] is moved into [/dst], where [/dst/1] exists.  The copy
    reports success and the source is deleted.  When the copy replaces the
    destination, what [/dst/1] held is in no file afterwards; when it leaves
    the destination alone, what [/t/1] held is in none. *)
Lemma moveItem_loses_data :
  (let moved := await (Examples.files_fs true)
                  (moveItem (Examples.files_fs true) "/t/1" "/dst" file)
                  Examples.taken_destination in
   snd moved = Ok tt
   /\ world (fst moved) = [("/dst/1", "new")]
   /\ calls (fst moved) = [CCopy "/t/1" "/dst/1" true; CUnlink "/t/1" true])
  /\ (let moved := await (Examples.files_fs false)
                     (moveItem (Examples.files_fs false) "/t/1" "/dst" file)
                     Examples.taken_destination in
      snd moved = Ok tt
      /\ world (fst moved) = [("/dst/1", "old")]
      /\ calls (fst moved) = [CCopy "/t/1" "/dst/1" true; CUnlink "/t/1" true]).
Proof. repeat split. Qed.

(** ** Batches of single calls *)

Lemma rejection_insert ps : forall i e,
  rejection ps = None -> i < List.length ps ->
  rejection (<[i := Settled (Throw e)]> ps) = Some e.
Proof.
  induction ps as [|a ps IH]; intros i e Hr Hi; simpl in *; [lia|].
  destruct i as [|i]; simpl; [reflexivity|].
  destruct a as [[[]|e']|io k]; try discriminate; apply IH; auto; lia.
Qed.

Lemma pending_insert_settled ps : forall i r r',
  List.filter is_pending (<[i := Settled r]> ps)
  = List.filter is_pending (<[i := Settled r']> ps).
Proof.
  induction ps as [|a ps IH]; intros [|i] r r'; simpl; try reflexivity.
  rewrite (IH i r r'). reflexivity.
Qed.

Lemma map_insert {A B} (f : A -> B) (l : list A) : forall i x,
  map f (<[i := x]> l) = <[i := f x]> (map f l).
Proof.
  induction l as [|y l IH]; intros [|i] x; simpl; try reflexivity.
  rewrite IH. reflexivity.
Qed.

Lemma map_delete {A B} (f : A -> B) (l : list A) : forall i,
  map f (delete i l) = delete i (map f l).
Proof.
  induction l as [|y l IH]; intros [|i]; simpl; try reflexivity.
  rewrite IH. reflexivity.
Qed.

Lemma omap_insert_None {A} (entries : list (option A)) : forall i a,
  entries !! i = Some (Some a) ->
  Permutation (omap id entries) (a :: omap id (<[i := None]> entries)).
Proof.
  induction entries as [|e entries IH]; intros [|i] a Hi; simpl in *; try discriminate.
  - inversion Hi. subst. reflexivity.
  - destruct e as [b|]; simpl.
    + rewrite (IH i a Hi). apply perm_swap.
    + apply (IH i a Hi).
Qed.

Lemma repeat_true_cons n : true :: repeat true n = repeat true (S n).
Proof. reflexivity. Qed.

Section SingleCalls.

Context {World : Type} (fs : FileSystem World) {A : Type}.
Variables (io_of : A -> Io) (error : A -> Error).


Lemma rejection_single_calls (entries : list (option A)) :
  rejection (map (from_option (single_call io_of error) (Settled (Ok tt))) entries) = None.
Proof.
  induction entries as [|[a|] entries IH]; simpl; auto.
Qed.

Lemma pending_single_calls (entries : list (option A)) :
  List.filter is_pending
      (map (from_option (single_call io_of error) (Settled (Ok tt)))
        entries) = map (single_call io_of error) (omap id entries).
Proof.
  induction entries as [|[a|] entries IH]; simpl; [reflexivity| |exact IH].
  rewrite IH. reflexivity.
Qed.

Lemma promise_all_nil ps (st : Sys World) :
  rejection ps = None -> promise_all fs [] ps st = in_turn fs ps st.
Proof. intros H. simpl. rewrite H. reflexivity. Qed.

Lemma promise_all_cons i rest ps (st : Sys World) :
  rejection ps = None ->
  promise_all fs (i :: rest) ps st
  = match ps !! i with
    | Some a => promise_all fs rest (<[i := snd (resume fs a st)]> ps) (fst (resume fs a st))
    | None => promise_all fs rest ps st
    end.
Proof.
  intros H. simpl. rewrite H. destruct (ps !! i) as [a|]; [|reflexivity].
  destruct (resume fs a st). reflexivity.
Qed.

Lemma promise_all_rejected order ps e (st : Sys World) :
  rejection ps = Some e -> promise_all fs order ps st = (leave ps st, Throw e).
Proof. intros H. destruct order; simpl; rewrite H; reflexivity. Qed.

Lemma in_turn_single_calls (entries : list (option A)) : forall st : Sys World,
  exists settled pending,
    Permutation (settled ++ pending) (omap id entries)
    /\ fst (in_turn fs (map (from_option (single_call io_of error) (Settled (Ok tt))) entries) st)
       = set_in_flight (in_flight st ++ map (single_call io_of error) pending)
           (fst (perform_each fs (map io_of settled) st))
    /\ batch_outcome error settled (snd (perform_each fs (map io_of settled) st))
         pending (snd (in_turn fs
             (map (from_option (single_call io_of error) (Settled (Ok tt)))
               entries) st)).
Proof.
  induction entries as [|[a|] entries IH]; intros st.
  - exists [], []. simpl. rewrite app_nil_r, set_in_flight_id.
    split; [reflexivity|]. split; [reflexivity|]. left. auto.
  - simpl. destruct (perform fs (io_of a) st) as [st1 ok] eqn:Hp.
    pose proof (perform_calls fs (io_of a) st) as (_ & Hfl & _).
    rewrite Hp in Hfl. simpl in Hfl.
    destruct ok; simpl.
    + destruct (IH st1) as (settled & pending & Hperm & Hst & Hout).
      exists (a :: settled), pending. simpl. rewrite Hp.
      destruct (perform_each fs (map io_of settled) st1) as [st2 oks] eqn:He.
      simpl in *. split; [constructor; exact Hperm|].
      split; [rewrite Hst, Hfl; reflexivity|].
      destruct Hout as [(Ho & Hn & Hr)|(before & failed & Hs & Ho & Hr)].
      * left. subst oks. auto.
      * right. exists (a :: before), failed. subst settled oks. simpl. auto.
    + exists [a], (omap id entries). simpl. rewrite Hp. simpl.
      split; [reflexivity|]. unfold leave.
      rewrite pending_single_calls, Hfl.
      split; [reflexivity|]. right. exists [], a. auto.
  - simpl. apply IH.
Qed.

(** A batch of calls awaited together with [Promise.all]: the calls that
    have completed when it returns took effect one after the other, in some
    order, and the others are in flight. *)
Lemma promise_all_single_calls order : forall (entries : list (option A)) (st : Sys World),
  exists settled pending,
    Permutation (settled ++ pending) (omap id entries)
    /\ fst (promise_all fs order
        (map (from_option (single_call io_of error) (Settled (Ok tt)))
          entries) st)
       = set_in_flight (in_flight st ++ map (single_call io_of error) pending)
           (fst (perform_each fs (map io_of settled) st))
    /\ batch_outcome error settled (snd (perform_each fs (map io_of settled) st))
         pending (snd (promise_all fs order
             (map (from_option (single_call io_of error) (Settled (Ok tt)))
               entries) st)).
Proof.
  induction order as [|i rest IH]; intros entries st.
  - rewrite promise_all_nil by apply rejection_single_calls.
    apply in_turn_single_calls.
  - rewrite promise_all_cons by apply rejection_single_calls.
    rewrite lookup_map.
    destruct (entries !! i) as [[a|]|] eqn:Hi; simpl.
    + destruct (perform fs (io_of a) st) as [st1 ok] eqn:Hp. simpl.
      pose proof (perform_calls fs (io_of a) st) as (_ & Hfl & _).
      rewrite Hp in Hfl. simpl in Hfl.
      pose proof (omap_insert_None entries i a Hi) as Hperm0.
      destruct ok.
      * replace (<[i := Settled (Ok tt)]>
          (map (from_option (single_call io_of error) (Settled (Ok tt)))
            entries))
          with
              (map (from_option (single_call io_of error) (Settled (Ok tt)))
                (<[i := None]> entries))
          by (rewrite map_insert; reflexivity).
        destruct (IH (<[i := None]> entries) st1)
          as (settled & pending & Hperm & Hst & Hout).
        exists (a :: settled), pending. simpl. rewrite Hp.
        destruct (perform_each fs (map io_of settled) st1) as [st2 oks] eqn:He.
        simpl in *.
        split; [rewrite Hperm0; constructor; exact Hperm|].
        split; [rewrite Hst, Hfl; reflexivity|].
        destruct Hout as [(Ho & Hn & Hr)|(before & failed & Hs & Ho & Hr)].
        -- left. subst oks. auto.
        -- right. exists (a :: before), failed. subst settled oks. simpl. auto.
      * rewrite (promise_all_rejected rest _ (error a)).
        2:{ apply rejection_insert; [apply rejection_single_calls|].
            rewrite length_map. apply lookup_lt_Some in Hi. exact Hi. }
        exists [a], (omap id (<[i := None]> entries)). simpl. rewrite Hp. simpl.
        split; [symmetry; exact Hperm0|]. unfold leave.
        rewrite (pending_insert_settled _ i _ (Ok tt)).
        replace (<[i := Settled (Ok tt)]>
            (map (from_option (single_call io_of error) (Settled (Ok tt)))
              entries))
          with
              (map (from_option (single_call io_of error) (Settled (Ok tt)))
                (<[i := None]> entries))
          by (rewrite map_insert; reflexivity).
        rewrite pending_single_calls, Hfl.
        split; [reflexivity|]. right. exists [], a. auto.
    + rewrite list_insert_id by (rewrite lookup_map, Hi; reflexivity).
      apply IH.
    + apply IH.
Qed.

Lemma settle_each_single_calls (pending : list A) : forall st : Sys World,
  settle_each fs (map (single_call io_of error) pending) st
  = fst (perform_each fs (map io_of pending) st).
Proof.
  induction pending as [|a pending IH]; intros st; simpl; [reflexivity|].
  unfold single_call at 1, try_await. simpl.
  destruct (perform fs (io_of a) st) as [st1 ok]. simpl.
  rewrite IH. destruct (perform_each fs (map io_of pending) st1); reflexivity.
Qed.

Lemma finish_cons k later (st : Sys World) :
  finish fs (k :: later) st = finish fs later (settle fs k st).
Proof. reflexivity. Qed.

(** The calls left in flight complete one after the other, in some order. *)
Lemma finish_single_calls later : forall (pending : list A) (st : Sys World),
  in_flight st = map (single_call io_of error) pending ->
  exists afterwards,
    Permutation afterwards pending
    /\ finish fs later st
       = set_in_flight [] (fst (perform_each fs (map io_of afterwards) st)).
Proof.
  induction later as [|k later IH]; intros pending st Hfl.
  - exists pending. split; [reflexivity|].
    unfold finish. simpl. rewrite Hfl, settle_each_single_calls. reflexivity.
  - rewrite finish_cons. unfold settle. rewrite Hfl, lookup_map.
    destruct (pending !! k) as [a|] eqn:Hk; simpl.
    + destruct (perform fs (io_of a) st) as [st1 ok] eqn:Hp.
      destruct (IH (delete k pending)
                  (set_in_flight (delete k (map (single_call io_of error) pending)) st1))
        as (afterwards & Hperm & Hfin).
      { simpl. rewrite map_delete. reflexivity. }
      exists (a :: afterwards). split.
      * rewrite Hperm. symmetry. apply delete_Permutation. exact Hk.
      * replace (if is_pending (Settled (if ok then Ok tt else Throw (error a)))
                 then <[k := Settled (if ok then Ok tt else Throw (error a))]>
                        (map (single_call io_of error) pending)
                 else delete k (map (single_call io_of error) pending))
          with (delete k (map (single_call io_of error) pending)) by (destruct ok; reflexivity).
        rewrite Hfin, perform_each_set_in_flight. simpl. rewrite Hp.
        destruct (perform_each fs (map io_of afterwards) st1). reflexivity.
    + apply (IH pending st Hfl).
Qed.

(** A batch of single calls, from the call of [Promise.all] to the
    completion of the last call. *)
Lemma batch_single_calls order later (items : list A) (st : Sys World) :
  in_flight st = [] ->
  let batch := promise_all fs order (map (single_call io_of error) items) st in
  exists settled pending afterwards,
    Permutation (settled ++ pending) items
    /\ Permutation afterwards pending
    /\ fst batch
       = set_in_flight (map (single_call io_of error) pending)
           (fst (perform_each fs (map io_of settled) st))
    /\ batch_outcome error settled (snd (perform_each fs (map io_of settled) st))
         pending (snd batch)
    /\ finish fs later (fst batch)
       = fst (perform_each fs (map io_of (settled ++ afterwards)) st).
Proof.
  intros Hfl batch. subst batch.
  replace (map (single_call io_of error) items) with
      (map (from_option (single_call io_of error) (Settled (Ok tt)))
        (map Some items))
    by (rewrite map_map; reflexivity).
  destruct (promise_all_single_calls order (map Some items) st)
    as (settled & pending & Hperm & Hst & Hout).
  assert (Hitems : omap id (map Some items) = items).
  { clear. induction items as [|x l IH]; [reflexivity|].
    change (x :: omap id (map Some l) = x :: l). f_equal. exact IH. }
  rewrite Hitems in Hperm. rewrite Hfl in Hst. simpl in Hst.
  destruct (finish_single_calls later pending
              (fst (promise_all fs order
                  (map (from_option (single_call io_of error) (Settled (Ok tt)))
                    (map Some items)) st)))
    as (afterwards & Hperm' & Hfin).
  { rewrite Hst. reflexivity. }
  exists settled, pending, afterwards.
  split; [exact Hperm|]. split; [exact Hperm'|]. split; [exact Hst|].
  split; [exact Hout|].
  rewrite Hfin, Hst, perform_each_set_in_flight. simpl.
  rewrite map_app, perform_each_app. simpl.
  rewrite <- (set_in_flight_id
                (fst (perform_each fs (map io_of afterwards)
                        (fst (perform_each fs (map io_of settled) st))))).
  rewrite !perform_each_in_flight, Hfl. reflexivity.
Qed.

(** The same, read on the world and on the calls made. *)
Lemma batch_effects order later (items : list A) (st : Sys World) :
  in_flight st = [] ->
  let batch := promise_all fs order (map (single_call io_of error) items) st in
  let final := finish fs later (fst batch) in
  exists settled pending afterwards,
    Permutation (settled ++ pending) items
    /\ Permutation afterwards pending
    /\ (let first := effects fs (map io_of settled) (world st) in
        world (fst batch) = fst first
        /\ calls (fst batch) = calls st ++ zip_with io_call (map io_of settled) (snd first)
        /\ in_flight (fst batch) = map (single_call io_of error) pending
        /\ batch_outcome error settled (snd first) pending (snd batch))
    /\ (let all := effects fs (map io_of (settled ++ afterwards)) (world st) in
        world final = fst all
        /\ calls final
           = calls st ++ zip_with io_call (map io_of (settled ++ afterwards)) (snd all)
        /\ in_flight final = []).
Proof.
  intros Hfl batch final. subst final batch.
  destruct (batch_single_calls order later items st Hfl)
    as (settled & pending & afterwards & Hperm & Hperm' & Hst & Hout & Hfin).
  exists settled, pending, afterwards.
  split; [exact Hperm|]. split; [exact Hperm'|].
  destruct (perform_each_effects fs (map io_of settled) st) as (Hw & Hc & Ho).
  destruct (perform_each_effects fs (map io_of (settled ++ afterwards)) st)
    as (Hw' & Hc' & _).
  split.
  - rewrite Hst. simpl. rewrite Ho in Hout.
    split; [exact Hw|]. split; [exact Hc|]. split; [reflexivity|exact Hout].
  - rewrite Hfin. split; [exact Hw'|]. split; [exact Hc'|].
    rewrite perform_each_in_flight. exact Hfl.
Qed.

End SingleCalls.

(** What [deleteItems] has done when it returns. *)
Lemma deleteItems_settled {World : Type} (fs : FileSystem World)
    (parseItemType : IDirectoryItem -> ItemType) (order : list nat)
    (itemsToDelete : list IDirectoryItem) (st : Sys World) :
  in_flight st = [] ->
  let deleted := deleteItems fs parseItemType order itemsToDelete st in
  exists settled pending : list IDirectoryItem,
    Permutation (settled ++ pending) itemsToDelete
    /\ let first := effects fs (map (deletion parseItemType) settled) (world st) in
       world (fst deleted) = fst first
       /\ calls (fst deleted)
          = calls st ++ zip_with io_call (map (deletion parseItemType) settled) (snd first)
       /\ in_flight (fst deleted)
          = map (fun i => deleteItem (path i) (parseItemType i)) pending
       /\ batch_outcome (fun i => deletion_error (parseItemType i) (path i))
            settled (snd first) pending (snd deleted).
Proof.
  intros Hfl deleted. subst deleted. unfold deleteItems.
  assert (Hjobs : forall l,
            map (fun i => deleteItem (path i) (parseItemType i)) l
            = map (single_call (deletion parseItemType)
                     (fun i => deletion_error (parseItemType i) (path i))) l).
  { intros l. apply map_ext. intros i. unfold single_call, deletion, deleteItem.
    destruct (parseItemType i); reflexivity. }
  rewrite !Hjobs.
  destruct (batch_effects fs (deletion parseItemType)
              (fun i => deletion_error (parseItemType i) (path i))
              order [] itemsToDelete st Hfl)
    as (settled & pending & afterwards & Hperm & _ & H & _).
  exists settled, pending. rewrite Hjobs. split; [exact Hperm|exact H].
Qed.

Lemma effects_determined {World : Type} (fs : FileSystem World) {A : Type}
    (io_of : A -> Io) (fails : A -> bool) (l : list A) :
  (forall a w, a ∈ l -> snd (io_effect fs (io_of a) w) = negb (fails a)) ->
  forall w, snd (effects fs (map io_of l) w) = map (fun a => negb (fails a)) l.
Proof.
  induction l as [|a l IH]; intros H w; simpl; [reflexivity|].
  pose proof (H a w (list_elem_of_here _ _)) as Ha.
  destruct (io_effect fs (io_of a) w) as [w1 ok]. simpl in Ha. subst ok.
  rewrite <- (IH (fun a' w' Hin => H a' w' (list_elem_of_further _ _ _ Hin)) w1).
  destruct (effects fs (map io_of l) w1). reflexivity.
Qed.

Lemma zip_with_io_call {A : Type} (io_of : A -> Io) (outcome : A -> bool) (l : list A) :
  zip_with io_call (map io_of l) (map outcome l)
  = map (fun a => io_call (io_of a) (outcome a)) l.
Proof.
  induction l as [|a l IH]; simpl; [reflexivity|]. rewrite IH. reflexivity.
Qed.

Lemma batch_outcome_determined {A : Type} (error : A -> Error) (fails : A -> bool)
    (settled pending : list A) (r : Res unit) :
  batch_outcome error settled (map (fun a => negb (fails a)) settled) pending r ->
  (r = Ok tt /\ pending = [] /\ forall a, a ∈ settled -> fails a = false)
  \/ (exists failed, failed ∈ settled /\ fails failed = true /\ r = Throw (error failed)).
Proof.
  intros [(Ho & Hp & Hr)|(before & failed & Hs & Ho & Hr)].
  - left. split; [exact Hr|]. split; [exact Hp|].
    intros a Ha. apply list_elem_of_lookup_1 in Ha as [i Hi].
    assert (Hi' : map (fun a => negb (fails a)) settled !! i = Some (negb (fails a))).
    { rewrite lookup_map, Hi. reflexivity. }
    rewrite Ho in Hi'. apply list_elem_of_lookup_2, list_elem_of_In in Hi'.
    apply repeat_spec in Hi'. destruct (fails a); [discriminate|reflexivity].
  - right. exists failed. subst settled.
    split; [apply elem_of_app; right; apply list_elem_of_here|].
    split; [|exact Hr].
    rewrite map_app in Ho. apply app_inj_1 in Ho as [_ Ho].
    + simpl in Ho. inversion Ho as [Hf]. destruct (fails failed); [reflexivity|discriminate].
    + rewrite length_map, repeat_length. reflexivity.
Qed.

(** C7, as the code has it.  Whatever the order in which the deletions
    complete, [deleteItems] returns as soon as one deletion has failed, or
    when all have succeeded.  The deletions that have completed by then took
    effect on the file system one after the other and nothing else was
    called; those that have not are in flight, and once they have completed
    too, every item has been attempted exactly once and the file system is
    what these deletions made of it, the ones that succeeded being kept.
    The error thrown is that of the one deletion that failed first, naming
    that item alone.  In particular, when it is the item that decides
    whether its deletion fails, every item that does not fail is deleted,
    and the error thrown is that of an item that fails. *)
Theorem deleteItems_best_effort {World : Type} (fs : FileSystem World)
    (parseItemType : IDirectoryItem -> ItemType) (order later : list nat)
    (itemsToDelete : list IDirectoryItem) (st : Sys World) :
  in_flight st = [] ->
  let deleted := deleteItems fs parseItemType order itemsToDelete st in
  let final := finish fs later (fst deleted) in
  exists settled pending afterwards : list IDirectoryItem,
    Permutation (settled ++ pending) itemsToDelete
    /\ Permutation afterwards pending
    /\ (let first := effects fs (map (deletion parseItemType) settled) (world st) in
        world (fst deleted) = fst first
        /\ calls (fst deleted)
           = calls st ++ zip_with io_call (map (deletion parseItemType) settled) (snd first)
        /\ in_flight (fst deleted)
           = map (fun i => deleteItem (path i) (parseItemType i)) pending
        /\ batch_outcome (fun i => deletion_error (parseItemType i) (path i))
             settled (snd first) pending (snd deleted))
    /\ (let all := effects fs (map (deletion parseItemType) (settled ++ afterwards))
                     (world st) in
        world final = fst all
        /\ calls final
           = calls st
             ++ zip_with io_call (map (deletion parseItemType) (settled ++ afterwards))
                  (snd all)
        /\ in_flight final = [])
    /\ (forall fails : IDirectoryItem -> bool,
          (forall i w, i ∈ itemsToDelete ->
             snd (io_effect fs (deletion parseItemType i) w) = negb (fails i)) ->
          calls final
          = calls st
            ++ map (fun i => io_call (deletion parseItemType i) (negb (fails i)))
                 (settled ++ afterwards)
          /\ ((snd deleted = Ok tt /\ forall i, i ∈ itemsToDelete -> fails i = false)
              \/ (exists failed,
                    failed ∈ itemsToDelete /\ fails failed = true
                    /\ snd deleted
                       = Throw (deletion_error (parseItemType failed) (path failed))))).
Proof.
  intros Hfl deleted final. subst final deleted. unfold deleteItems.
  assert (Hjobs : forall l,
            map (fun i => deleteItem (path i) (parseItemType i)) l
            = map (single_call (deletion parseItemType)
                     (fun i => deletion_error (parseItemType i) (path i))) l).
  { intros l. apply map_ext. intros i. unfold single_call, deletion, deleteItem.
    destruct (parseItemType i); reflexivity. }
  rewrite !Hjobs.
  destruct (batch_effects fs (deletion parseItemType)
              (fun i => deletion_error (parseItemType i) (path i))
              order later itemsToDelete st Hfl)
    as (settled & pending & afterwards & Hperm & Hperm' & Hfirst & Hall).
  exists settled, pending, afterwards. rewrite Hjobs.
  split; [exact Hperm|]. split; [exact Hperm'|]. split; [exact Hfirst|].
  split; [exact Hall|].
  intros fails Hfails.
  assert (Hin : forall l, (forall i, i ∈ l -> i ∈ itemsToDelete) ->
                forall w, snd (effects fs (map (deletion parseItemType) l) w)
                          = map (fun i => negb (fails i)) l).
  { intros l Hl. apply effects_determined. intros a w Ha. apply Hfails, Hl, Ha. }
  assert (Hsettled : forall i, i ∈ settled -> i ∈ itemsToDelete).
  { intros i Hi. rewrite <- Hperm. apply elem_of_app. auto. }
  assert (Hevery : forall i, i ∈ settled ++ afterwards -> i ∈ itemsToDelete).
  { intros i Hi. rewrite <- Hperm, <- Hperm'. exact Hi. }
  destruct Hall as (_ & Hcalls & _). destruct Hfirst as (_ & _ & _ & Hout).
  rewrite (Hin _ Hevery) in Hcalls. rewrite (Hin _ Hsettled) in Hout.
  split; [rewrite Hcalls, zip_with_io_call; reflexivity|].
  apply batch_outcome_determined in Hout
    as [(Hr & Hp & Hnone)|(failed & Hf1 & Hf2 & Hr)].
  - left. split; [exact Hr|]. intros i Hi. apply Hnone.
    subst pending. rewrite app_nil_r in Hperm. rewrite Hperm. exact Hi.
  - right. exists failed. split; [apply Hsettled, Hf1|]. split; [exact Hf2|exact Hr].
Qed.

Lemma deleteItems_best_effort_witness :
  let st := Examples.boot Examples.second_locked in
  let deleted := deleteItems Examples.disk_fs Examples.kind_of [1; 0] Examples.three_files st in
  let final := finish Examples.disk_fs [1] (fst deleted) in
  (exists settled pending afterwards : list IDirectoryItem,
     Permutation (settled ++ pending) Examples.three_files
     /\ Permutation afterwards pending
     /\ (let first := effects Examples.disk_fs (map (deletion Examples.kind_of) settled)
                        (world st) in
         world (fst deleted) = fst first
         /\ calls (fst deleted)
            = calls st
              ++ zip_with io_call (map (deletion Examples.kind_of) settled) (snd first)
         /\ in_flight (fst deleted)
            = map (fun i => deleteItem (path i) (Examples.kind_of i)) pending
         /\ batch_outcome (fun i => deletion_error (Examples.kind_of i) (path i))
              settled (snd first) pending (snd deleted))
     /\ (let all := effects Examples.disk_fs
                      (map (deletion Examples.kind_of) (settled ++ afterwards))
                      (world st) in
         world final = fst all
         /\ calls final
            = calls st
              ++ zip_with io_call
                   (map (deletion Examples.kind_of) (settled ++ afterwards)) (snd all)
         /\ in_flight final = [])
     /\ (forall fails : IDirectoryItem -> bool,
           (forall i w, i ∈ Examples.three_files ->
              snd (io_effect Examples.disk_fs (deletion Examples.kind_of i) w)
              = negb (fails i)) ->
           calls final
           = calls st
             ++ map (fun i => io_call (deletion Examples.kind_of i) (negb (fails i)))
                  (settled ++ afterwards)
           /\ ((snd deleted = Ok tt
                /\ forall i, i ∈ Examples.three_files -> fails i = false)
               \/ (exists failed,
                     failed ∈ Examples.three_files /\ fails failed = true
                     /\ snd deleted
                        = Throw (deletion_error (Examples.kind_of failed)
                                   (path failed))))))
  /\ snd deleted = Throw (DirectoryError "Cannot remove file" "/t/2" None)
  /\ calls (fst deleted) = [CUnlink "/t/2" false]
  /\ calls final = [CUnlink "/t/2" false; CUnlink "/t/3" true; CUnlink "/t/1" true]
  /\ Examples.present (world final) = ["/t/2"].
Proof.
  intros st deleted final. split.
  - apply (deleteItems_best_effort Examples.disk_fs Examples.kind_of [1; 0] [1]
             Examples.three_files st).
    reflexivity.
  - repeat split.
Defined.

(** The scenario of three items of which the second cannot be deleted, the
    deletions completing in the order of the list: the first is deleted
    when [deleteItems] throws the error naming the second, the deletion of
    the third is in flight, and once it has completed the first and the third
    are gone and the second remains. *)
Example deleteItems_second_fails :
  let deleted :=
    deleteItems Examples.disk_fs Examples.kind_of [0; 1; 2] Examples.three_files
      (Examples.boot Examples.second_locked) in
  let final := finish Examples.disk_fs [] (fst deleted) in
  snd deleted = Throw (DirectoryError "Cannot remove file" "/t/2" None)
  /\ calls (fst deleted) = [CUnlink "/t/1" true; CUnlink "/t/2" false]
  /\ Examples.present (world (fst deleted)) = ["/t/2"; "/t/3"]
  /\ in_flight (fst deleted) = [deleteItem "/t/3" file]
  /\ calls final = [CUnlink "/t/1" true; CUnlink "/t/2" false; CUnlink "/t/3" true]
  /\ Examples.present (world final) = ["/t/2"].
Proof. repeat split. Qed.

(** C7 as first stated does not hold: when the second and the third deletion
    both fail, the error thrown names the second item only. *)
Lemma deleteItems_error_is_not_aggregated :
  let deleted :=
    deleteItems Examples.disk_fs Examples.kind_of [0; 1; 2] Examples.three_files
      (Examples.boot Examples.two_locked) in
  let final := finish Examples.disk_fs [] (fst deleted) in
  calls final = [CUnlink "/t/1" true; CUnlink "/t/2" false; CUnlink "/t/3" false]
  /\ snd deleted = Throw (DirectoryError "Cannot remove file" "/t/2" None).
Proof. split; reflexivity. Qed.

(** ** The watch on the current directory *)

(** [startWatching] opens a watcher and stores it in the [watcher] field; the
    watcher the field held before stays open. *)
Lemma startWatching_keeps_previous {World} (fs : FileSystem World)
    (p : string) (st : Sys World) :
  watchable fs p (world st) = true ->
  let st' := fst (startWatching fs p st) in
  open_watchers st' = open_watchers st ++ [(next_watcher st, p)]
  /\ watcher st' = Some (next_watcher st)
  /\ calls st' = calls st ++ [CWatch p true].
Proof.
  intros H. unfold startWatching. rewrite H. simpl. auto.
Qed.

(** Whenever the pane's path changes and the new path can be watched,
    [componentDidUpdate] opens one more watcher and closes none, whatever
    else it does. *)
Lemma componentDidUpdate_opens_watcher {World} (fs : FileSystem World)
    (prevPath : string) (prevState : IDirectoryListState) (this : DirectoryList World) :
  prevPath <> props_path this ->
  watchable fs (props_path this) (world (sys this)) = true ->
  let this' := fst (componentDidUpdate fs prevPath prevState this) in
  open_watchers (sys this')
  = open_watchers (sys this) ++ [(next_watcher (sys this), props_path this)]
  /\ List.filter is_close (calls (sys this')) = List.filter is_close (calls (sys this)).
Proof.
  intros Hne Hw.
  assert (He : String.eqb prevPath (props_path this) = false).
  { apply String.eqb_neq. exact Hne. }
  unfold componentDidUpdate, bind, getThis, ui, setState, watchPath, rethrow,
    liftSys, startWatching, popCachedNavigation, listDirectoryObjects, ret, call.
  simpl. rewrite He. simpl.
  destruct (itemDeleted prevState); simpl; rewrite Hw; simpl;
    destruct (cachedNavigations (model this) !! props_path this) as [[i l]|]; simpl;
    try (destruct (readDirectory fs (props_path this) (world (sys this))); simpl);
    rewrite ?List.filter_app; simpl; rewrite ?app_nil_r; auto.
Qed.

(** C3 fails on the code.  A pane mounted on [/a] and sent to [/b], [/c] and
    [/d] ends with four watchers open and [close] never called; unmounting
    it then closes the last one only. *)
Theorem navigation_leaves_watchers_open :
  let final := fst Examples.visited in
  snd Examples.visited = Ok tt
  /\ open_watchers (sys final) = [(0, "/a"); (1, "/b"); (2, "/c"); (3, "/d")]
  /\ List.filter is_close (calls (sys final)) = []
  /\ open_watchers (sys (fst (componentWillUnmount final)))
     = [(0, "/a"); (1, "/b"); (2, "/c")].
Proof. vm_compute. repeat split. Qed.

(** ** Pasting *)

(** C4, as the code has it.  [pasteFromClipboard] with no clipboard action
    set returns normally and does nothing: no call reaches the directory
    manager, and neither the component's state nor its model changes. *)
Theorem pasteFromClipboard_without_action {World} (fs : FileSystem World)
    (parseItemType : IDirectoryItem -> ItemType) (order : list nat)
    (this : DirectoryList World) :
  clipboardAction (model this) = None ->
  let pasted := pasteFromClipboard fs parseItemType order this in
  snd pasted = Ok tt
  /\ fst pasted = this
  /\ Forall (fun c => is_store_call c = false)
       (drop (List.length (calls (sys this))) (calls (sys (fst pasted)))).
Proof.
  intros H pasted. subst pasted.
  unfold pasteFromClipboard, bind, getThis. rewrite H. simpl.
  split; [reflexivity|]. split; [reflexivity|].
  rewrite drop_all. constructor.
Qed.

Lemma pasteFromClipboard_without_action_witness :
  let this := Examples.pane Examples.four_directories in
  let pasted := pasteFromClipboard Examples.disk_fs Examples.kind_of [] this in
  snd pasted = Ok tt
  /\ fst pasted = this
  /\ Forall (fun c => is_store_call c = false)
       (drop (List.length (calls (sys this))) (calls (sys (fst pasted)))).
Proof.
  apply pasteFromClipboard_without_action. reflexivity.
Defined.

(** With an action set, the paste does reach the directory manager: a copy
    copies and lists, a cut copies, deletes the source and lists. *)
Example pasteFromClipboard_copy :
  let pasted := pasteFromClipboard Examples.disk_fs Examples.kind_of [0]
                  (Examples.pane_with copy) in
  snd pasted = Ok tt
  /\ calls (sys (fst pasted))
     = [CTrace "Requesting to copy /t/1 to /dst"; CCopy "/t/1" "/dst/1" true;
        CList "/dst"; CNotify "Copied items"]
  /\ Examples.present (world (sys (fst pasted))) = ["/t/1"; "/dst"; "/dst/1"].
Proof. repeat split. Qed.

Example pasteFromClipboard_cut :
  let pasted := pasteFromClipboard Examples.disk_fs Examples.kind_of [0]
                  (Examples.pane_with cut) in
  snd pasted = Ok tt
  /\ calls (sys (fst pasted))
     = [CTrace "Requesting to move /t/1 to [object Object]";
        CCopy "/t/1" "/dst/1" true; CUnlink "/t/1" true;
        CList "/dst"; CNotify "Cut items"]
  /\ Examples.present (world (sys (fst pasted))) = ["/dst"; "/dst/1"].
Proof. repeat split. Qed.

(** C4 as first stated does not hold: the paste does not fail. *)
Lemma pasteFromClipboard_without_action_succeeds :
  clipboardAction (model (Examples.pane Examples.four_directories)) = None
  /\ clipboardItems (model (Examples.pane Examples.four_directories)) = None
  /\ is_ok (snd (pasteFromClipboard Examples.disk_fs Examples.kind_of []
                   (Examples.pane Examples.four_directories))) = true.
Proof. repeat split. Qed.

(** * Further properties of the navigator *)

Lemma grandchild_tasks_sound h items t :
  t ∈ grandchild_tasks h items ->
  exists r o, t = TGrandChildren r (path (item o))
              /\ h !! r = Some o /\ isDirectory (item o) = true.
Proof.
  induction items as [|x rest IH]; simpl; intros H; [inversion H|].
  destruct (h !! x) as [o|] eqn:Hx; [|auto].
  destruct (isDirectory (item o)) eqn:Hd; [|auto].
  apply elem_of_cons in H as [H|H]; [|auto].
  exists x, o. auto.
Qed.

(** ** Heaps only grow, and items do not change *)

Lemma valid_mono h h' items :
  valid h items -> List.length h <= List.length h' -> valid h' items.
Proof.
  unfold valid. intros Hv Hl. eapply Forall_impl; [exact Hv|].
  simpl. intros r Hr. lia.
Qed.


Lemma valid_fresh (h : Heap) (l : list IDirectoryItem) :
  valid (h ++ map (fun i => mkNavItem i None) l) (seq (List.length h) (List.length l)).
Proof.
  unfold valid. apply Forall_forall. intros r Hr.
  apply list_elem_of_In, in_seq in Hr.
  rewrite length_app, length_map. lia.
Qed.

Lemma heap_extends_refl h : heap_extends h h.
Proof. intros r o H. exists o. auto. Qed.

Lemma heap_extends_trans h1 h2 h3 :
  heap_extends h1 h2 -> heap_extends h2 h3 -> heap_extends h1 h3.
Proof.
  intros H12 H23 r o H.
  destruct (H12 r o H) as (o2 & H2 & E2).
  destruct (H23 r o2 H2) as (o3 & H3 & E3).
  exists o3. split; [exact H3|congruence].
Qed.

Lemma heap_extends_app h l : heap_extends h (h ++ l).
Proof.
  intros r o H. exists o. split; [|reflexivity].
  apply lookup_app_l_Some. exact H.
Qed.

Lemma heap_extends_insert (h : list INavigatorDirectoryItem) r o o' :
  h !! r = Some o -> item o' = item o -> heap_extends h (<[r := o']> h).
Proof.
  intros Hr Hi x ox Hx. unfold Heap, ref in *.
  destruct (decide (x = r)) as [->|Hne].
  - exists o'. split.
    + apply list_lookup_insert_eq. eapply lookup_lt_Some. exact Hr.
    + rewrite Hr in Hx. inversion Hx. subst. exact Hi.
  - exists ox. split; [|reflexivity].
    rewrite list_lookup_insert_ne by congruence. exact Hx.
Qed.

Lemma heap_extends_length h h' : heap_extends h h' -> List.length h <= List.length h'.
Proof.
  unfold heap_extends, Heap, ref. intros H.
  destruct (decide (List.length h <= List.length h')) as [|Hn]; [assumption|].
  destruct h as [|o h0] using rev_ind; [simpl; lia|].
  rewrite length_app in *. simpl in *.
  destruct (H (List.length h0) o) as (o' & Ho' & _).
  { rewrite lookup_app_r by lia. rewrite Nat.sub_diag. reflexivity. }
  apply lookup_lt_Some in Ho'. lia.
Qed.

(** ** Well-formedness is kept by every step *)

Lemma wf_set_nav n s :
  well_formed s ->
  (forall items, currentDirectoryItems n = Some items -> valid (heap s) items) ->
  (forall items, parentDirectoryItems n = Some items -> valid (heap s) items) ->
  well_formed (set_nav n s).
Proof.
  intros [Hc Hp Hch Ht] Hc' Hp'. constructor; simpl; assumption.
Qed.

Lemma wf_emit e s : well_formed s -> well_formed (emit e s).
Proof. intros [Hc Hp Hch Ht]. constructor; simpl; assumption. Qed.

Lemma wf_spawn t s :
  well_formed s ->
  (forall r p, t = TGrandChildren r p ->
     exists o, heap s !! r = Some o /\ isDirectory (item o) = true /\ path (item o) = p) ->
  well_formed (spawn t s).
Proof.
  intros [Hc Hp Hch Ht] Hnew. constructor; simpl; try assumption.
  intros r p Hin. apply elem_of_app in Hin as [Hin|Hin]; [auto|].
  apply list_elem_of_singleton in Hin. auto.
Qed.

Lemma wf_tasks_sub ts s :
  well_formed s ->
  (forall t, t ∈ ts -> t ∈ tasks s) ->
  well_formed (mkState (nav s) (heap s) ts (trace s)).
Proof.
  intros [Hc Hp Hch Ht] Hsub. constructor; simpl; try assumption.
  intros r p Hin. apply Ht, Hsub, Hin.
Qed.

Lemma wf_retrieveGrandChildren items s :
  well_formed s -> well_formed (retrieveGrandChildren items s).
Proof.
  intros [Hc Hp Hch Ht]. constructor;
    rewrite ?retrieveGrandChildren_nav, ?retrieveGrandChildren_heap,
      ?retrieveGrandChildren_tasks; try assumption.
  intros r p Hin. apply elem_of_app in Hin as [Hin|Hin]; [auto|].
  apply grandchild_tasks_sound in Hin as (r' & o & Heq & Hr & Hd).
  inversion Heq. subst. exists o. auto.
Qed.

Lemma wf_alloc l s : well_formed s -> well_formed (fst (alloc l s)).
Proof.
  intros [Hc Hp Hch Ht]. unfold alloc. constructor; simpl.
  - intros items Hi. eapply valid_mono; [apply Hc, Hi|]. rewrite length_app. lia.
  - intros items Hi. eapply valid_mono; [apply Hp, Hi|]. rewrite length_app. lia.
  - unfold Heap, ref in *. intros r o gc Hr Hg.
    apply lookup_app_Some in Hr as [Hr|[_ Hr]].
    + destruct (Hch r o gc Hr Hg) as [Hv Hd]. split; [|exact Hd].
      eapply valid_mono; [exact Hv|]. rewrite length_app. lia.
    + apply list_elem_of_lookup_2, list_elem_of_In, in_map_iff in Hr
        as (i & Hi & _). subst o. discriminate.
  - unfold Heap, ref in *. intros r p Hin. destruct (Ht r p Hin) as (o & Ho & Hd & Hpth).
    exists o. split; [|auto]. apply lookup_app_l_Some. exact Ho.
Qed.

Lemma wf_alloc_valid l s : valid (heap (fst (alloc l s))) (snd (alloc l s)).
Proof. unfold alloc. simpl. apply valid_fresh. Qed.

Lemma wf_prime r o grandChildItems s :
  well_formed s ->
  heap s !! r = Some o ->
  isDirectory (item o) = true ->
  valid (heap s) grandChildItems ->
  well_formed (mkState (nav s)
                 (<[r := mkNavItem (item o) (Some grandChildItems)]> (heap s))
                 (tasks s) (trace s)).
Proof.
  intros [Hc Hp Hch Ht] Hr Hd Hv. unfold valid, Heap, ref in *.
  constructor; simpl; unfold valid; rewrite ?length_insert; try assumption.
  - intros x ox gc Hx Hg. unfold Heap, ref in *. destruct (decide (x = r)) as [->|Hne].
    + rewrite list_lookup_insert_eq in Hx by (eapply lookup_lt_Some; exact Hr).
      inversion Hx. subst ox. simpl in *. inversion Hg. subst gc. auto.
    + rewrite list_lookup_insert_ne in Hx by congruence. eauto.
  - intros x p Hin. destruct (Ht x p Hin) as (ox & Hx & Hdx & Hpx).
    unfold Heap, ref in *. destruct (decide (x = r)) as [->|Hne].
    + exists (mkNavItem (item o) (Some grandChildItems)).
      rewrite list_lookup_insert_eq by (eapply lookup_lt_Some; exact Hr).
      rewrite Hr in Hx. inversion Hx. subst ox. simpl. auto.
    + exists ox. rewrite list_lookup_insert_ne by congruence. auto.
Qed.

Lemma wf_onParentPath parentPath s :
  well_formed s -> well_formed (onParentPath parentPath s).
Proof.
  intros Hw. pose proof Hw as [Hc Hp Hch Ht]. unfold onParentPath.
  destruct parentPath as [pp|].
  - destruct (truthy pp).
    + apply wf_spawn; [|discriminate]. apply wf_emit.
      apply wf_set_nav; simpl; assumption.
    + apply wf_set_nav; simpl; assumption.
  - apply wf_set_nav; simpl; assumption.
Qed.

Lemma wf_resolveParent dirname dm p s :
  well_formed s -> well_formed (resolveParent dirname dm p s).
Proof.
  intros Hw. unfold resolveParent. apply wf_onParentPath, wf_emit, Hw.
Qed.

Lemma wf_construct dirname p : well_formed (construct dirname p).
Proof.
  constructor; simpl; try discriminate.
  intros r q H. repeat (apply elem_of_cons in H as [H|H]; [discriminate|]).
  inversion H.
Qed.

Lemma wf_toParent dirname dm s :
  well_formed s -> well_formed (fst (toParent dirname dm s)).
Proof.
  intros Hw. pose proof Hw as [Hc Hp Hch Ht]. unfold toParent.
  assert (H1 : forall cp, well_formed
            (set_nav (mkNav cp (parentDirectoryItems (nav s))
                        (parentDirectoryPath (nav s)) (parentDirectoryItems (nav s))) s)).
  { intros cp. apply wf_set_nav; simpl; assumption. }
  destruct (parentDirectoryPath (nav s)) as [| |pp]; simpl; [|exact Hw|].
  - destruct (parentDirectoryItems (nav s)) as [items|] eqn:Hi; simpl.
    + apply wf_retrieveGrandChildren. apply (H1 None).
    + apply (H1 None).
  - destruct (parentDirectoryItems (nav s)) as [items|] eqn:Hi; simpl.
    + apply wf_resolveParent, wf_retrieveGrandChildren. apply (H1 (Some pp)).
    + apply (H1 (Some pp)).
Qed.

Lemma wf_toChild folderPath s :
  well_formed s -> well_formed (fst (toChild folderPath s)).
Proof.
  intros Hw. pose proof Hw as [Hc Hp Hch Ht]. unfold toChild.
  destruct (currentDirectoryItems (nav s)) as [items|] eqn:Hi; [|exact Hw].
  destruct (find_path (heap s) items folderPath) as [r|]; [|exact Hw].
  destruct (heap s !! r) as [o|] eqn:Hr; [|exact Hw].
  destruct (childItems o) as [gc|] eqn:Hg; [|exact Hw]. simpl.
  apply wf_retrieveGrandChildren, wf_set_nav; [exact Hw| |]; simpl.
  - intros l Hl. inversion Hl. subst l. apply (Hch r o gc Hr Hg).
  - intros l Hl. inversion Hl. subst l. apply Hc. reflexivity.
Qed.

Lemma wf_fresh_listing l n1 s :
  well_formed s ->
  well_formed
    (set_nav (mkNav n1 (Some (snd (alloc l s)))
                (parentDirectoryPath (nav s)) (parentDirectoryItems (nav s)))
       (fst (alloc l s))).
Proof.
  intros Hw. apply wf_set_nav; [apply wf_alloc, Hw| |].
  - simpl. intros items Hi. inversion Hi. apply valid_fresh.
  - simpl. intros items Hi. destruct Hw as [_ Hp _ _].
    eapply valid_mono; [apply Hp, Hi|]. rewrite length_app. lia.
Qed.

Lemma wf_toDirectory_fresh dirname dm folderPath s :
  well_formed s -> well_formed (fst (toDirectory_fresh dirname dm folderPath s)).
Proof.
  intros Hw. pose proof Hw as [Hc Hp Hch Ht]. unfold toDirectory_fresh.
  assert (H2 : well_formed
                 (emit (EvListDirectory folderPath)
                    (set_nav (mkNav (Some folderPath) (currentDirectoryItems (nav s))
                                (parentDirectoryPath (nav s))
                                (parentDirectoryItems (nav s))) s))).
  { apply wf_emit, wf_set_nav; simpl; assumption. }
  destruct (listDirectory dm folderPath) as [l|e]; [|exact H2].
  apply wf_resolveParent, wf_retrieveGrandChildren.
  exact (wf_fresh_listing l (Some folderPath) _ H2).
Qed.

Lemma wf_toDirectory dirname dm folderPath s :
  well_formed s -> well_formed (fst (toDirectory dirname dm folderPath s)).
Proof.
  intros Hw. unfold toDirectory.
  destruct (is_parent (parentDirectoryPath (nav s)) folderPath).
  - apply wf_toParent, Hw.
  - destruct (currentDirectoryItems (nav s)) as [items|].
    + destruct (find_path (heap s) items folderPath) as [r|].
      * destruct (heap s !! r) as [o|].
        -- apply wf_toChild, Hw.
        -- apply wf_toDirectory_fresh, Hw.
      * apply wf_toDirectory_fresh, Hw.
    + apply wf_toDirectory_fresh, Hw.
Qed.

Lemma wf_retrieveDirectoryItems dm s :
  well_formed s -> well_formed (fst (retrieveDirectoryItems dm s)).
Proof.
  intros Hw. unfold retrieveDirectoryItems.
  destruct (currentDirectoryItems (nav s)) as [items|]; [exact Hw|].
  destruct (currentPath (nav s)) as [p|] eqn:Hp; [|exact Hw].
  destruct (listDirectory dm p) as [l|e]; [|apply wf_emit, Hw].
  apply wf_retrieveGrandChildren.
  pose proof (wf_fresh_listing l (Some p) _ (wf_emit (EvListDirectory p) s Hw)) as H.
  simpl in *. rewrite Hp. exact H.
Qed.

Lemma wf_run_task dm t s :
  well_formed s ->
  (forall r p, t = TGrandChildren r p ->
     exists o, heap s !! r = Some o /\ isDirectory (item o) = true /\ path (item o) = p) ->
  well_formed (fst (run_task dm t s)).
Proof.
  intros Hw Ht. destruct t as [p|pp|p|r p]; simpl.
  - destruct (listDirectory dm p) as [l|e]; [|exact Hw]. simpl.
    pose proof (wf_fresh_listing l (currentPath (nav s)) s Hw) as H.
    apply wf_set_nav; simpl;
      rewrite ?retrieveGrandChildren_nav, ?retrieveGrandChildren_heap; simpl.
    + apply wf_retrieveGrandChildren, wf_retrieveGrandChildren. exact H.
    + intros items Hi. inversion Hi. apply valid_fresh.
    + intros items Hi. destruct Hw as [_ Hp _ _].
      eapply valid_mono; [apply Hp, Hi|]. rewrite length_app. lia.
  - apply wf_onParentPath, Hw.
  - destruct (listDirectory dm p) as [l|e]; [|exact Hw]. simpl.
    apply wf_retrieveGrandChildren, wf_set_nav; [apply (wf_alloc l), Hw| |]; simpl.
    + intros items Hi. destruct Hw as [Hc _ _ _].
      eapply valid_mono; [apply Hc, Hi|]. rewrite length_app. lia.
    + intros items Hi. inversion Hi. apply valid_fresh.
  - destruct (Ht r p eq_refl) as (o & Ho & Hd & Hp).
    destruct (listDirectory dm p) as [l|e]; [|apply wf_emit, Hw]. simpl.
    unfold Heap, ref in *. rewrite (lookup_app_l_Some _ _ _ _ Ho).
    exact (wf_prime r o _ _ (wf_alloc l s Hw) (lookup_app_l_Some _ _ _ _ Ho) Hd
             (valid_fresh (heap s) l)).
Qed.

Lemma wf_complete dm k s :
  well_formed s -> well_formed (fst (complete dm k s)).
Proof.
  intros Hw. unfold complete.
  destruct (tasks s !! k) as [t|] eqn:Hk; [|exact Hw].
  apply wf_run_task.
  - apply wf_tasks_sub; [exact Hw|]. intros t'. apply list_elem_of_delete_inv.
  - intros r p ->. simpl. destruct Hw as [_ _ _ Ht]. apply Ht.
    eapply list_elem_of_lookup_2. exact Hk.
Qed.

Lemma wf_step dirname s s' : step dirname s s' -> well_formed s -> well_formed s'.
Proof.
  intros Hs Hw. destruct Hs.
  - apply wf_toParent, Hw.
  - apply wf_toChild, Hw.
  - apply wf_toDirectory, Hw.
  - apply wf_retrieveDirectoryItems, Hw.
  - apply wf_complete, Hw.
Qed.

Lemma wf_reachable dirname s : reachable dirname s -> well_formed s.
Proof.
  induction 1 as [p|s s' _ IH Hs].
  - apply wf_construct.
  - eapply wf_step; eassumption.
Qed.

Lemma reachable_complete dirname dm k s :
  reachable dirname s -> reachable dirname (fst (complete dm k s)).
Proof. intros H. eapply reachable_step; [exact H|apply step_complete]. Qed.

Lemma reachable_listed_only : reachable Examples.posix_dirname Examples.listed_only.
Proof. apply reachable_complete, reachable_construct. Qed.

Lemma reachable_parent_known : reachable Examples.posix_dirname Examples.parent_known.
Proof. apply reachable_complete, reachable_listed_only. Qed.

Lemma reachable_primed : reachable Examples.posix_dirname Examples.primed.
Proof. do 3 apply reachable_complete. apply reachable_parent_known. Qed.

Lemma reachable_entered_early : reachable Examples.posix_dirname Runs.entered_early.
Proof.
  eapply reachable_step; [|apply step_toChild].
  apply reachable_complete, reachable_parent_known.
Qed.

(** X1. In every state a navigator can reach, the current entries, the
    parent entries and every retrieved child list name objects that exist; a
    child list hangs on directories only; and every pending grandchild
    retrieval is for a directory object, under that object's own path. *)
Theorem reachable_well_formed (dirname : string -> string) (s : State) :
  reachable dirname s -> well_formed s.
Proof. apply wf_reachable. Qed.

Lemma reachable_well_formed_witness : well_formed Examples.primed.
Proof.
  apply (reachable_well_formed Examples.posix_dirname). apply reachable_primed.
Defined.

(** X2. In a reachable state, [toChild] into an entry that is a file always
    throws the "have not begun retrieval" error and changes nothing: a file
    never receives a child list. *)
Theorem toChild_into_file_fails (dirname : string -> string) (s : State)
    (folderPath : string) (items : list ref) (r : ref) (o : INavigatorDirectoryItem) :
  reachable dirname s ->
  currentDirectoryItems (nav s) = Some items ->
  find_path (heap s) items folderPath = Some r ->
  heap s !! r = Some o ->
  isDirectory (item o) = false ->
  toChild folderPath s
  = (s, Throw (LoggedError
                 ("Child items for " +:+ folderPath +:+ " have not begun retrieval"))).
Proof.
  intros Hr Hi Hf Ho Hd.
  destruct (wf_reachable _ _ Hr) as [_ _ Hch _].
  assert (Hc : childItems o = None).
  { destruct (childItems o) as [gc|] eqn:Hc; [|reflexivity].
    destruct (Hch r o gc Ho Hc) as [_ Hd']. congruence. }
  unfold toChild. rewrite Hi, Hf, Ho, Hc.
  destruct (find_path_Some _ _ _ _ Hf) as (o' & Ho' & Hp).
  rewrite Ho in Ho'. inversion Ho'. subst o'. rewrite Hp. reflexivity.
Qed.

Lemma toChild_into_file_fails_witness :
  toChild "/a/c" Examples.primed
  = (Examples.primed,
     Throw (LoggedError "Child items for /a/c have not begun retrieval")).
Proof.
  apply (toChild_into_file_fails Examples.posix_dirname Examples.primed "/a/c"
           [0; 1] 1 (mkNavItem Examples.item_c None)); try reflexivity.
  apply reachable_primed.
Defined.

Lemma toParent_heap dirname dm s : heap (fst (toParent dirname dm s)) = heap s.
Proof.
  unfold toParent.
  destruct (parentDirectoryPath (nav s)) as [| |pp]; simpl; try reflexivity;
    destruct (parentDirectoryItems (nav s)); simpl;
    rewrite ?resolveParent_heap, ?retrieveGrandChildren_heap; reflexivity.
Qed.

Lemma toChild_heap folderPath s : heap (fst (toChild folderPath s)) = heap s.
Proof.
  unfold toChild.
  destruct (currentDirectoryItems (nav s)) as [items|]; [|reflexivity].
  destruct (find_path (heap s) items folderPath) as [r|]; [|reflexivity].
  destruct (heap s !! r) as [o|]; [|reflexivity].
  destruct (childItems o); [|reflexivity]. simpl.
  rewrite retrieveGrandChildren_heap. reflexivity.
Qed.

Lemma toDirectory_fresh_heap dirname dm folderPath s :
  heap_extends (heap s) (heap (fst (toDirectory_fresh dirname dm folderPath s))).
Proof.
  unfold toDirectory_fresh.
  destruct (listDirectory dm folderPath) as [l|e]; simpl.
  - rewrite resolveParent_heap, retrieveGrandChildren_heap. simpl.
    apply heap_extends_app.
  - apply heap_extends_refl.
Qed.

Lemma step_heap_extends dirname s s' :
  step dirname s s' -> heap_extends (heap s) (heap s').
Proof.
  intros Hs. destruct Hs.
  - rewrite toParent_heap. apply heap_extends_refl.
  - rewrite toChild_heap. apply heap_extends_refl.
  - unfold toDirectory.
    destruct (is_parent (parentDirectoryPath (nav s)) folderPath).
    { rewrite toParent_heap. apply heap_extends_refl. }
    destruct (currentDirectoryItems (nav s)) as [items|];
      [|apply toDirectory_fresh_heap].
    destruct (find_path (heap s) items folderPath) as [r|];
      [|apply toDirectory_fresh_heap].
    destruct (heap s !! r) as [o|]; [|apply toDirectory_fresh_heap].
    rewrite toChild_heap. apply heap_extends_refl.
  - unfold retrieveDirectoryItems.
    destruct (currentDirectoryItems (nav s)); [apply heap_extends_refl|].
    destruct (currentPath (nav s)) as [p|]; [|apply heap_extends_refl].
    destruct (listDirectory dm p) as [l|e]; simpl; [|apply heap_extends_refl].
    rewrite retrieveGrandChildren_heap. simpl. apply heap_extends_app.
  - unfold complete. destruct (tasks s !! k) as [t|]; [|apply heap_extends_refl].
    destruct t as [p|pp|p|r p]; simpl.
    + destruct (listDirectory dm p) as [l|e]; simpl; [|apply heap_extends_refl].
      rewrite !retrieveGrandChildren_heap. simpl. apply heap_extends_app.
    + unfold onParentPath. destruct (exists_ dm pp); simpl;
        [destruct (truthy pp)|]; apply heap_extends_refl.
    + destruct (listDirectory dm p) as [l|e]; simpl; [|apply heap_extends_refl].
      rewrite retrieveGrandChildren_heap. simpl. apply heap_extends_app.
    + destruct (listDirectory dm p) as [l|e]; simpl; [|apply heap_extends_refl].
      match goal with
      | |- context [match ?x with Some _ => _ | None => _ end] =>
          destruct x as [o|] eqn:Ho
      end; simpl; [|apply heap_extends_app].
      eapply heap_extends_trans; [apply heap_extends_app|].
      eapply heap_extends_insert; [exact Ho|reflexivity].
Qed.

(** X3. Objects are never dropped and their item data never changes:
    whatever steps a navigator takes, every object of the heap is still
    there afterwards with the same name, path and flags; only its child list
    may have been set. *)
Theorem items_are_immutable (dirname : string -> string) (s s' : State) :
  rtc (step dirname) s s' -> heap_extends (heap s) (heap s').
Proof.
  induction 1 as [s|s s1 s2 H1 _ IH].
  - apply heap_extends_refl.
  - eapply heap_extends_trans; [eapply step_heap_extends; exact H1|exact IH].
Qed.

Lemma items_are_immutable_witness :
  heap_extends (heap Examples.started) (heap Examples.listed_only)
  /\ heap_extends (heap Examples.listed_only)
       (heap (fst (toChild "/a/b" Examples.primed))).
Proof.
  split.
  - apply (items_are_immutable Examples.posix_dirname).
    apply rtc_once. apply step_complete.
  - apply (items_are_immutable Examples.posix_dirname).
    eapply rtc_l; [apply (step_complete _ Examples.tree 0)|].
    eapply rtc_l; [apply (step_complete _ Examples.tree 0)|].
    eapply rtc_l; [apply (step_complete _ Examples.tree 0)|].
    eapply rtc_l; [apply (step_complete _ Examples.tree 0)|].
    apply rtc_once. apply step_toChild.
Defined.

(** ** Retrieving the current entries *)

(** X4. Once [retrieveDirectoryItems] has succeeded, calling it again,
    against any directory manager, returns the same entries without a call
    and without changing the navigator. *)
Theorem retrieveDirectoryItems_is_cached (dm dm' : IDirectoryManager) (s : State)
    (v : option (list ref)) :
  snd (retrieveDirectoryItems dm s) = Ok v ->
  retrieveDirectoryItems dm' (fst (retrieveDirectoryItems dm s))
  = (fst (retrieveDirectoryItems dm s), Ok v).
Proof.
  unfold retrieveDirectoryItems at 1 3 4.
  destruct (currentDirectoryItems (nav s)) as [items|] eqn:Hi; simpl.
  - intros H. inversion H. subst v. unfold retrieveDirectoryItems. rewrite Hi.
    reflexivity.
  - destruct (currentPath (nav s)) as [p|]; simpl; [|discriminate].
    destruct (listDirectory dm p) as [l|e]; simpl; [|discriminate].
    intros H. inversion H. subst v. unfold retrieveDirectoryItems.
    rewrite retrieveGrandChildren_nav. reflexivity.
Qed.

Lemma retrieveDirectoryItems_is_cached_witness :
  retrieveDirectoryItems Examples.tree_unreadable_b
    (fst (retrieveDirectoryItems Examples.tree Examples.started))
  = (fst (retrieveDirectoryItems Examples.tree Examples.started), Ok (Some [0; 1])).
Proof.
  apply (retrieveDirectoryItems_is_cached Examples.tree Examples.tree_unreadable_b
           Examples.started (Some [0; 1])).
  reflexivity.
Defined.

(** ** Dispatch of [toDirectory] *)

Lemma find_path_None h items p :
  (forall r o, r ∈ items -> h !! r = Some o -> path (item o) <> p) ->
  find_path h items p = None.
Proof.
  induction items as [|x rest IH]; intros H; simpl; [reflexivity|].
  destruct (h !! x) as [o|] eqn:Hx.
  - destruct (String.eqb (path (item o)) p) eqn:Hp.
    + apply String.eqb_eq in Hp. exfalso.
      apply (H x o); [apply list_elem_of_here|exact Hx|exact Hp].
    + apply IH. intros r o' Hin. apply H. apply list_elem_of_further, Hin.
  - apply IH. intros r o' Hin. apply H. apply list_elem_of_further, Hin.
Qed.

(** X5. [toDirectory] takes its shortcuts in a fixed order: to the tracked
    parent path it is [toParent], even when a current entry carries that path
    too; otherwise, to the path of a current entry it is [toChild]; and when
    the path is neither, it lists the target afresh. *)
Theorem toDirectory_shortcuts (dirname : string -> string) (dm : IDirectoryManager)
    (folderPath : string) (s : State) :
  (parentDirectoryPath (nav s) = PPath folderPath ->
   toDirectory dirname dm folderPath s = toParent dirname dm s)
  /\ (parentDirectoryPath (nav s) <> PPath folderPath ->
      forall items r,
        currentDirectoryItems (nav s) = Some items ->
        find_path (heap s) items folderPath = Some r ->
        toDirectory dirname dm folderPath s = toChild folderPath s)
  /\ (parentDirectoryPath (nav s) <> PPath folderPath ->
      (forall items r o,
         currentDirectoryItems (nav s) = Some items ->
         r ∈ items -> heap s !! r = Some o -> path (item o) <> folderPath) ->
      toDirectory dirname dm folderPath s = toDirectory_fresh dirname dm folderPath s
      /\ exists rest,
           issued s (fst (toDirectory dirname dm folderPath s))
           = EvListDirectory folderPath :: rest).
Proof.
  split; [|split].
  - intros Hp. unfold toDirectory.
    rewrite (proj2 (is_parent_true _ _) Hp). reflexivity.
  - intros Hp items r Hi Hf. unfold toDirectory.
    destruct (is_parent (parentDirectoryPath (nav s)) folderPath) eqn:Hip.
    { apply is_parent_true in Hip. contradiction. }
    rewrite Hi, Hf. destruct (find_path_Some _ _ _ _ Hf) as (o & Ho & Hpath).
    rewrite Ho, Hpath. reflexivity.
  - intros Hp Hnone.
    assert (Hfresh : toDirectory dirname dm folderPath s
                     = toDirectory_fresh dirname dm folderPath s).
    { unfold toDirectory.
      destruct (is_parent (parentDirectoryPath (nav s)) folderPath) eqn:Hip.
      { apply is_parent_true in Hip. contradiction. }
      destruct (currentDirectoryItems (nav s)) as [items|] eqn:Hi; [|reflexivity].
      rewrite (find_path_None (heap s) items folderPath); [reflexivity|].
      intros r o. apply Hnone. reflexivity. }
    split; [exact Hfresh|]. rewrite Hfresh. unfold toDirectory_fresh.
    destruct (listDirectory dm folderPath) as [l|e]; simpl.
    + eexists. apply issued_app.
      rewrite resolveParent_trace, retrieveGrandChildren_trace. simpl.
      rewrite <- !app_assoc. simpl. reflexivity.
    + exists []. apply issued_app. reflexivity.
Qed.

Lemma toDirectory_shortcuts_witness :
  toDirectory Examples.posix_dirname Examples.tree "/" Examples.primed
  = toParent Examples.posix_dirname Examples.tree Examples.primed
  /\ toDirectory Examples.posix_dirname Examples.tree "/a/b" Examples.primed
     = toChild "/a/b" Examples.primed.
Proof.
  split.
  - apply (toDirectory_shortcuts Examples.posix_dirname Examples.tree "/"
             Examples.primed). reflexivity.
  - destruct (toDirectory_shortcuts Examples.posix_dirname Examples.tree "/a/b"
                Examples.primed) as (_ & H & _).
    apply (H ltac:(vm_compute; discriminate) [0; 1] 0); reflexivity.
Defined.

(** X6. [toChild] with a path that no current entry carries throws a
    [TypeError] and changes nothing: no field, no call, no pending task. *)
Theorem toChild_unknown_path (folderPath : string) (s : State) (items : list ref) :
  currentDirectoryItems (nav s) = Some items ->
  (forall r o, r ∈ items -> heap s !! r = Some o -> path (item o) <> folderPath) ->
  toChild folderPath s
  = (s, Throw (TypeError "Cannot read property 'childItems' of undefined")).
Proof.
  intros Hi Hn. unfold toChild. rewrite Hi, (find_path_None _ _ _ Hn). reflexivity.
Qed.

Lemma toChild_unknown_path_witness :
  toChild "/elsewhere" Examples.primed
  = (Examples.primed,
     Throw (TypeError "Cannot read property 'childItems' of undefined")).
Proof.
  apply (toChild_unknown_path "/elsewhere" Examples.primed [0; 1]);
    [reflexivity|].
  intros r o Hin Hr.
  apply elem_of_cons in Hin as [->|Hin];
    [|apply list_elem_of_singleton in Hin; subst r];
    vm_compute in Hr; inversion Hr; subst o; vm_compute; discriminate.
Defined.

(** ** Prefetch and navigation *)

Lemma find_path_ext (h h' : list INavigatorDirectoryItem) items p :
  (forall x, x ∈ items -> item <$> (h' !! x) = item <$> (h !! x)) ->
  find_path h' items p = find_path h items p.
Proof.
  induction items as [|x rest IH]; intros H; simpl; [reflexivity|].
  pose proof (H x (list_elem_of_here _ _)) as Hx.
  assert (IH' : find_path h' rest p = find_path h rest p).
  { apply IH. intros y Hy. apply H, list_elem_of_further, Hy. }
  unfold Heap, ref in *.
  destruct (h' !! x) as [o'|], (h !! x) as [o|]; simpl in Hx;
    try discriminate; [|exact IH'].
  inversion Hx as [Hitem]. rewrite Hitem, IH'. reflexivity.
Qed.

Lemma directory_paths_listing (h : list INavigatorDirectoryItem) l : forall n,
  (forall i it, l !! i = Some it -> item <$> (h !! (n + i)) = Some it) ->
  directory_paths h (seq n (List.length l)) = directories l.
Proof.
  unfold directories.
  induction l as [|it l IH]; intros n H; simpl; [reflexivity|].
  pose proof (H 0 it eq_refl) as H0. rewrite Nat.add_0_r in H0.
  assert (IH' : directory_paths h (seq (S n) (List.length l))
                = map path (List.filter isDirectory l)).
  { apply IH. intros i it' Hi. specialize (H (S i) it' Hi).
    replace (S n + i) with (n + S i) by lia. exact H. }
  unfold Heap, ref in *.
  destruct (h !! n) as [o|]; simpl in H0; [|discriminate].
  inversion H0 as [Hitem]. subst it.
  destruct (isDirectory (item o)); simpl; rewrite IH'; reflexivity.
Qed.

Lemma primed_lookup_old (h new : list INavigatorDirectoryItem) r o c x :
  h !! r = Some o ->
  x < List.length h ->
  item <$> (<[r := mkNavItem (item o) c]> (h ++ new) !! x) = item <$> (h !! x).
Proof.
  intros Hr Hx. destruct (decide (x = r)) as [->|Hne].
  - rewrite list_lookup_insert_eq by (rewrite length_app; lia).
    rewrite Hr. reflexivity.
  - rewrite list_lookup_insert_ne by congruence.
    rewrite lookup_app_l by exact Hx. reflexivity.
Qed.

Lemma primed_lookup_new (h : list INavigatorDirectoryItem) (l : list IDirectoryItem)
    r o' i it :
  r < List.length h ->
  l !! i = Some it ->
  <[r := o']> (h ++ map (fun j => mkNavItem j None) l) !! (List.length h + i)
  = Some (mkNavItem it None).
Proof.
  intros Hr Hi. rewrite list_lookup_insert_ne by lia.
  rewrite lookup_app_r by lia.
  replace (List.length h + i - List.length h) with i by lia.
  rewrite lookup_map, Hi. reflexivity.
Qed.

(** [complete] on a grandchild retrieval whose listing succeeds. *)
Lemma complete_grandchildren dm k s r p l o :
  tasks s !! k = Some (TGrandChildren r p) ->
  listDirectory dm p = Ok l ->
  heap s !! r = Some o ->
  complete dm k s
  = (mkState (nav s)
       (<[r := mkNavItem (item o) (Some (seq (List.length (heap s)) (List.length l)))]>
          (heap s ++ map (fun i => mkNavItem i None) l))
       (delete k (tasks s)) (trace s),
     None).
Proof.
  intros Hk Hl Hr. unfold complete. rewrite Hk. simpl. rewrite Hl. simpl.
  unfold Heap, ref in *. rewrite (lookup_app_l_Some _ _ _ _ Hr). reflexivity.
Qed.

(** X7. Once the prefetch of a current entry has completed with a
    successful listing, [toChild] into that entry succeeds and takes the
    prefetched objects as the current entries: they carry the items the
    listing returned, and the only calls [toChild] then issues are the
    listings of the directories among those items. *)
Theorem prefetched_child_needs_no_listing (dirname : string -> string)
    (dm : IDirectoryManager) (k : nat) (s : State) (r : ref) (p : string)
    (l : list IDirectoryItem) (items : list ref) :
  reachable dirname s ->
  tasks s !! k = Some (TGrandChildren r p) ->
  listDirectory dm p = Ok l ->
  currentDirectoryItems (nav s) = Some items ->
  find_path (heap s) items p = Some r ->
  let s1 := fst (complete dm k s) in
  let s2 := fst (toChild p s1) in
  snd (complete dm k s) = None
  /\ snd (toChild p s1) = Ok tt
  /\ currentPath (nav s2) = Some p
  /\ currentDirectoryItems (nav s2) = Some (seq (List.length (heap s)) (List.length l))
  /\ parentDirectoryItems (nav s2) = Some items
  /\ (forall i it, l !! i = Some it ->
        heap s2 !! (List.length (heap s) + i) = Some (mkNavItem it None))
  /\ issued s1 s2 = map EvListDirectory (directories l).
Proof.
  intros Hreach Hk Hl Hi Hf s1 s2.
  pose proof (wf_reachable _ _ Hreach) as [Hc _ _ _].
  destruct (find_path_Some _ _ _ _ Hf) as (o & Ho & Hpath).
  pose proof (lookup_lt_Some _ _ _ Ho) as Hlt.
  pose proof (complete_grandchildren dm k s r p l o Hk Hl Ho) as Hcomp.
  set (fresh := seq (List.length (heap s)) (List.length l)) in *.
  set (h1 := <[r := mkNavItem (item o) (Some fresh)]>
               (heap s ++ map (fun i => mkNavItem i None) l)) in *.
  subst s2.
  assert (Hs1 : s1 = mkState (nav s) h1 (delete k (tasks s)) (trace s)).
  { unfold s1. rewrite Hcomp. reflexivity. }
  clearbody s1. subst s1.
  assert (Hf1 : find_path h1 items p = Some r).
  { rewrite <- Hf. apply find_path_ext. intros x Hx.
    apply primed_lookup_old; [exact Ho|].
    specialize (Hc items Hi). unfold valid in Hc.
    rewrite Forall_forall in Hc. apply Hc, Hx. }
  assert (Hr1 : h1 !! r = Some (mkNavItem (item o) (Some fresh))).
  { unfold h1. apply list_lookup_insert_eq. rewrite length_app. lia. }
  assert (Hnew : forall i it, l !! i = Some it ->
                   h1 !! (List.length (heap s) + i) = Some (mkNavItem it None)).
  { intros i it Hit. unfold h1. apply primed_lookup_new; assumption. }
  rewrite (toChild_resolved p (mkState (nav s) h1 (delete k (tasks s)) (trace s))
             items r (mkNavItem (item o) (Some fresh)) fresh Hi Hf1 Hr1 eq_refl).
  simpl. rewrite retrieveGrandChildren_nav, retrieveGrandChildren_heap. simpl.
  split; [rewrite Hcomp; reflexivity|].
  split; [reflexivity|]. split; [reflexivity|]. split; [reflexivity|].
  split; [reflexivity|]. split; [exact Hnew|].
  apply issued_app. rewrite retrieveGrandChildren_trace. simpl. f_equal. f_equal.
  apply directory_paths_listing.
  intros i it Hit. rewrite (Hnew i it Hit). reflexivity.
Qed.

Lemma prefetched_child_needs_no_listing_witness :
  let s1 := fst (complete Examples.tree 1 Examples.listed_only) in
  let s2 := fst (toChild "/a/b" s1) in
  snd (complete Examples.tree 1 Examples.listed_only) = None
  /\ snd (toChild "/a/b" s1) = Ok tt
  /\ currentPath (nav s2) = Some "/a/b"
  /\ currentDirectoryItems (nav s2) = Some [2]
  /\ parentDirectoryItems (nav s2) = Some [0; 1]
  /\ (forall i it, [Examples.item_d] !! i = Some it ->
        heap s2 !! (2 + i) = Some (mkNavItem it None))
  /\ issued s1 s2 = [].
Proof.
  apply (prefetched_child_needs_no_listing Examples.posix_dirname Examples.tree 1
           Examples.listed_only 0 "/a/b" [Examples.item_d] [0; 1]);
    try reflexivity.
  apply reachable_listed_only.
Defined.

Lemma fresh_lookup (h : list INavigatorDirectoryItem) (l : list IDirectoryItem) i it :
  l !! i = Some it ->
  (h ++ map (fun j => mkNavItem j None) l) !! (List.length h + i)
  = Some (mkNavItem it None).
Proof.
  intros Hi. rewrite lookup_app_r by lia.
  replace (List.length h + i - List.length h) with i by lia.
  rewrite lookup_map, Hi. reflexivity.
Qed.

Lemma directory_paths_fresh (h : list INavigatorDirectoryItem) (l : list IDirectoryItem) :
  directory_paths (h ++ map (fun j => mkNavItem j None) l)
    (seq (List.length h) (List.length l))
  = directories l.
Proof.
  apply directory_paths_listing. intros i it Hi.
  rewrite (fresh_lookup h l i it Hi). reflexivity.
Qed.

(** X8. When the listing started by the constructor completes with success,
    the objects it returned become the current entries, whatever the
    navigator has done meanwhile, and each directory among them is listed
    twice in a row for the prefetch.  When it fails, nothing changes and a
    [LoggedError] wrapping the failure is left unhandled. *)
Theorem initial_listing_completion (dm : IDirectoryManager) (k : nat) (s : State)
    (p : string) :
  tasks s !! k = Some (TInitialItems p) ->
  match listDirectory dm p with
  | Ok l =>
      let s' := fst (complete dm k s) in
      snd (complete dm k s) = None
      /\ currentDirectoryItems (nav s')
         = Some (seq (List.length (heap s)) (List.length l))
      /\ currentPath (nav s') = currentPath (nav s)
      /\ parentDirectoryPath (nav s') = parentDirectoryPath (nav s)
      /\ parentDirectoryItems (nav s') = parentDirectoryItems (nav s)
      /\ heap s' = heap s ++ map (fun i => mkNavItem i None) l
      /\ issued s s' = map EvListDirectory (directories l ++ directories l)
  | Throw e =>
      complete dm k s
      = (mkState (nav s) (heap s) (delete k (tasks s)) (trace s),
         Some (LoggedErrorFrom
                 ("Could not retrieve directory items for "
                    +:+ show_path (currentPath (nav s))) e))
  end.
Proof.
  intros Hk. unfold complete. rewrite Hk. simpl.
  destruct (listDirectory dm p) as [l|e]; [|reflexivity]. simpl.
  rewrite !retrieveGrandChildren_nav, !retrieveGrandChildren_heap. simpl.
  repeat (split; [reflexivity|]).
  apply issued_app. simpl.
  rewrite !retrieveGrandChildren_trace, retrieveGrandChildren_heap. simpl.
  unfold Heap, ref in *. rewrite directory_paths_fresh.
  rewrite <- app_assoc, map_app. reflexivity.
Qed.

Lemma initial_listing_completion_witness :
  let s' := fst (complete Examples.tree 0 Examples.started) in
  snd (complete Examples.tree 0 Examples.started) = None
  /\ currentDirectoryItems (nav s') = Some [0; 1]
  /\ currentPath (nav s') = Some "/a"
  /\ parentDirectoryPath (nav s') = PUndefined
  /\ parentDirectoryItems (nav s') = None
  /\ heap s' = [mkNavItem Examples.item_b None; mkNavItem Examples.item_c None]
  /\ issued Examples.started s'
     = [EvListDirectory "/a/b"; EvListDirectory "/a/b"].
Proof.
  apply (initial_listing_completion Examples.tree 0 Examples.started "/a").
  reflexivity.
Defined.

Lemma resolveParent_found dirname dm p s :
  exists_ dm (dirname p) = true ->
  truthy (dirname p) = true ->
  resolveParent dirname dm p s
  = mkState (mkNav (currentPath (nav s)) (currentDirectoryItems (nav s))
               (PPath (dirname p)) (parentDirectoryItems (nav s)))
      (heap s) (tasks s ++ [TParentItems (dirname p)])
      ((trace s ++ [EvExists (dirname p)]) ++ [EvListDirectory (dirname p)]).
Proof.
  intros He Ht. unfold resolveParent, onParentPath. rewrite He, Ht. reflexivity.
Qed.

(** [complete] on a parent listing that succeeds. *)
Lemma complete_parent_items dm k s q l :
  tasks s !! k = Some (TParentItems q) ->
  listDirectory dm q = Ok l ->
  complete dm k s
  = (retrieveGrandChildren (seq (List.length (heap s)) (List.length l))
       (mkState (mkNav (currentPath (nav s)) (currentDirectoryItems (nav s))
                   (parentDirectoryPath (nav s))
                   (Some (seq (List.length (heap s)) (List.length l))))
          (heap s ++ map (fun i => mkNavItem i None) l)
          (delete k (tasks s)) (trace s)),
     None).
Proof.
  intros Hk Hl. unfold complete. rewrite Hk. simpl. rewrite Hl. reflexivity.
Qed.

(** X9. Right after a successful [toParent] whose new parent exists, the
    parent entries are still the entries just promoted, and the listing of
    the new parent is the last pending task; when that listing completes,
    its objects become the parent entries, and the current path and entries
    are untouched. *)
Theorem parent_listing_after_toParent (dirname : string -> string)
    (dm dm' : IDirectoryManager) (s : State) (pp : string) (items : list ref)
    (l : list IDirectoryItem) :
  parentDirectoryPath (nav s) = PPath pp ->
  parentDirectoryItems (nav s) = Some items ->
  exists_ dm (dirname pp) = true ->
  truthy (dirname pp) = true ->
  listDirectory dm' (dirname pp) = Ok l ->
  let s1 := fst (toParent dirname dm s) in
  let k := List.length (tasks s1) - 1 in
  let s2 := fst (complete dm' k s1) in
  tasks s1 !! k = Some (TParentItems (dirname pp))
  /\ parentDirectoryPath (nav s1) = PPath (dirname pp)
  /\ parentDirectoryItems (nav s1) = Some items
  /\ currentDirectoryItems (nav s1) = Some items
  /\ parentDirectoryItems (nav s2) = Some (seq (List.length (heap s)) (List.length l))
  /\ heap s2 = heap s ++ map (fun i => mkNavItem i None) l
  /\ parentDirectoryPath (nav s2) = PPath (dirname pp)
  /\ currentPath (nav s2) = Some pp
  /\ currentDirectoryItems (nav s2) = Some items.
Proof.
  intros Hp Hi He Ht Hl s1 k s2.
  assert (Hs1 : s1 = resolveParent dirname dm pp
                       (retrieveGrandChildren items
                          (set_nav (mkNav (Some pp) (Some items) (PPath pp) (Some items)) s))).
  { unfold s1. rewrite (toParent_tracked _ _ _ _ _ Hp Hi). reflexivity. }
  rewrite (resolveParent_found _ _ _ _ He Ht) in Hs1.
  rewrite retrieveGrandChildren_nav, retrieveGrandChildren_heap in Hs1.
  simpl in Hs1.
  assert (Hk : tasks s1 !! k = Some (TParentItems (dirname pp))).
  { unfold k. rewrite Hs1. simpl. rewrite length_app. simpl.
    rewrite lookup_app_r by lia.
    replace (_ - _) with 0 by lia. reflexivity. }
  subst s2. clearbody k. clearbody s1. subst s1.
  rewrite (complete_parent_items dm' k _ _ l Hk Hl). simpl.
  rewrite !retrieveGrandChildren_nav, !retrieveGrandChildren_heap. simpl.
  repeat (split; [first [exact Hk|reflexivity]|]). reflexivity.
Qed.

Lemma parent_listing_after_toParent_witness :
  let s := fst (toChild "/a/b" Examples.primed) in
  let s1 := fst (toParent Examples.posix_dirname Examples.tree s) in
  let k := List.length (tasks s1) - 1 in
  let s2 := fst (complete Examples.tree k s1) in
  tasks s1 !! k = Some (TParentItems "/")
  /\ parentDirectoryPath (nav s1) = PPath "/"
  /\ parentDirectoryItems (nav s1) = Some [0; 1]
  /\ currentDirectoryItems (nav s1) = Some [0; 1]
  /\ parentDirectoryItems (nav s2) = Some [5]
  /\ heap s2 = heap s ++ [mkNavItem Examples.item_a None]
  /\ parentDirectoryPath (nav s2) = PPath "/"
  /\ currentPath (nav s2) = Some "/a"
  /\ currentDirectoryItems (nav s2) = Some [0; 1].
Proof.
  apply (parent_listing_after_toParent Examples.posix_dirname Examples.tree
           Examples.tree (fst (toChild "/a/b" Examples.primed)) "/a" [0; 1]
           [Examples.item_a]); reflexivity.
Defined.

(** X10. A parent listing that completes is stored as the parent entries
    whatever path it was started for: the tracked parent path is not
    compared with it.  A [toParent] that follows promotes those objects
    under the tracked parent path. *)
Theorem parent_listing_is_not_checked (dirname : string -> string)
    (dm dm' : IDirectoryManager) (k : nat) (s : State) (q pp : string)
    (l : list IDirectoryItem) :
  tasks s !! k = Some (TParentItems q) ->
  listDirectory dm q = Ok l ->
  parentDirectoryPath (nav s) = PPath pp ->
  let s1 := fst (complete dm k s) in
  let s2 := fst (toParent dirname dm' s1) in
  parentDirectoryPath (nav s1) = PPath pp
  /\ parentDirectoryItems (nav s1) = Some (seq (List.length (heap s)) (List.length l))
  /\ heap s1 = heap s ++ map (fun i => mkNavItem i None) l
  /\ snd (toParent dirname dm' s1) = Ok tt
  /\ currentPath (nav s2) = Some pp
  /\ currentDirectoryItems (nav s2) = Some (seq (List.length (heap s)) (List.length l))
  /\ heap s2 = heap s1.
Proof.
  intros Hk Hl Hp s1 s2.
  assert (Hp1 : parentDirectoryPath (nav s1) = PPath pp).
  { unfold s1. rewrite (complete_parent_items dm k s q l Hk Hl). simpl.
    rewrite retrieveGrandChildren_nav. exact Hp. }
  assert (Hi1 : parentDirectoryItems (nav s1)
                = Some (seq (List.length (heap s)) (List.length l))).
  { unfold s1. rewrite (complete_parent_items dm k s q l Hk Hl). simpl.
    rewrite retrieveGrandChildren_nav. reflexivity. }
  assert (Hh1 : heap s1 = heap s ++ map (fun i => mkNavItem i None) l).
  { unfold s1. rewrite (complete_parent_items dm k s q l Hk Hl). simpl.
    rewrite retrieveGrandChildren_heap. reflexivity. }
  destruct (toParent_promotes dirname dm' s1 pp _ Hp1 Hi1)
    as (Hok & Hcp & Hci & Hh & _).
  fold s2 in Hcp, Hci, Hh. auto 10.
Qed.

Lemma parent_listing_is_not_checked_witness :
  let s1 := fst (complete Examples.tree 1 Runs.entered_early) in
  let s2 := fst (toParent Examples.posix_dirname Examples.tree s1) in
  parentDirectoryPath (nav s1) = PPath "/a"
  /\ parentDirectoryItems (nav s1) = Some [3]
  /\ heap s1 = heap Runs.entered_early ++ [mkNavItem Examples.item_a None]
  /\ snd (toParent Examples.posix_dirname Examples.tree s1) = Ok tt
  /\ currentPath (nav s2) = Some "/a"
  /\ currentDirectoryItems (nav s2) = Some [3]
  /\ heap s2 = heap s1.
Proof.
  apply (parent_listing_is_not_checked Examples.posix_dirname Examples.tree
           Examples.tree 1 Runs.entered_early "/" "/a" [Examples.item_a]);
    reflexivity.
Defined.

(** * Further properties of the directory manager *)

(** ** Listing a directory *)

Lemma await_all_Ok {A} race (results : list (Res A)) v :
  await_all race results = Ok v -> rejected results = [] /\ v = fulfilled results.
Proof.
  unfold await_all. destruct (rejected results); [|discriminate].
  intros H. inversion H. auto.
Qed.

Lemma statFile_Ok rd filePath hide n it :
  statFile rd filePath hide n = Ok it ->
  name it = n
  /\ path it = joinPath rd filePath (name it)
  /\ lstatAsync rd (path it) = Ok (isDirectory it)
  /\ isHidden it = isHiddenPath rd (path it) hide.
Proof.
  unfold statFile.
  destruct (lstatAsync rd (joinPath rd filePath n)) as [d|e] eqn:Hn; [|discriminate].
  intros H. inversion H. subst it. simpl. auto.
Qed.

Lemma statFile_is_ok rd filePath hide n :
  is_ok (statFile rd filePath hide n) = is_ok (lstatAsync rd (joinPath rd filePath n)).
Proof.
  unfold statFile. destruct (lstatAsync rd (joinPath rd filePath n)); reflexivity.
Qed.

Lemma statFile_rejected rd filePath hide names :
  rejected (map (statFile rd filePath hide) names) = []
  <-> forall n, n ∈ names -> is_ok (lstatAsync rd (joinPath rd filePath n)) = true.
Proof.
  induction names as [|n names IH]; simpl.
  - split; [|reflexivity]. intros _ n H. inversion H.
  - pose proof (statFile_is_ok rd filePath hide n) as Hn.
    destruct (statFile rd filePath hide n) as [it|e]; simpl in Hn.
    + rewrite IH. split.
      * intros H m Hm. apply elem_of_cons in Hm as [->|Hm]; [auto|auto].
      * intros H m Hm. apply H. apply list_elem_of_further, Hm.
    + split; [discriminate|]. intros H.
      specialize (H n (list_elem_of_here _ _)). congruence.
Qed.

Lemma statFile_fulfilled rd filePath hide names :
  rejected (map (statFile rd filePath hide) names) = [] ->
  map name (fulfilled (map (statFile rd filePath hide) names)) = names
  /\ forall it, it ∈ fulfilled (map (statFile rd filePath hide) names) ->
       name it ∈ names
       /\ path it = joinPath rd filePath (name it)
       /\ lstatAsync rd (path it) = Ok (isDirectory it)
       /\ isHidden it = isHiddenPath rd (path it) hide.
Proof.
  induction names as [|n names IH]; simpl.
  - intros _. split; [reflexivity|]. intros it H. inversion H.
  - destruct (statFile rd filePath hide n) as [x|e] eqn:Hx; simpl; [|discriminate].
    destruct (statFile_Ok _ _ _ _ _ Hx) as (Hname & Hrest).
    intros Hr. destruct (IH Hr) as [Hm Hall]. split; [rewrite Hm, Hname; reflexivity|].
    intros it Hit. apply elem_of_cons in Hit as [->|Hit].
    + split; [rewrite Hname; apply list_elem_of_here|exact Hrest].
    + destruct (Hall it Hit) as (H1 & H2). split; [apply list_elem_of_further, H1|exact H2].
Qed.

Lemma filter_all {A} (l : list A) : List.filter (fun _ => true) l = l.
Proof. induction l as [|x l IH]; simpl; [reflexivity|]. rewrite IH. reflexivity. Qed.

(** The sorter a call uses. *)
Lemma listDirectory_Ok rd race filePath options items :
  DirectoryManager_listDirectory rd race filePath options = Ok items ->
  exists fileList,
    lstatAsync rd filePath = Ok true
    /\ getDirectoryPaths rd filePath = Ok fileList
    /\ rejected (map (statFile rd filePath (hideUnixStyleHiddenItems options)) fileList) = []
    /\ items
       = List.filter (match filterCondition options with
                      | Some f => f
                      | None => fun _ => true
                      end)
           ((match sort options with
             | Some f => f
             | None => sortByTypeThenAlphaNumery rd
             end)
              (fulfilled (map (statFile rd filePath (hideUnixStyleHiddenItems options))
                            fileList))).
Proof.
  unfold DirectoryManager_listDirectory.
  destruct (lstatAsync rd filePath) as [[|]|e]; try discriminate.
  destruct (getDirectoryPaths rd filePath) as [fileList|e]; try discriminate.
  destruct (await_all race _) as [files|e] eqn:Ha; try discriminate.
  intros H. inversion H. subst items.
  destruct (await_all_Ok _ _ _ Ha) as [Hr Hf]. subst files.
  exists fileList. auto.
Qed.

(** X11. When [listDirectory] succeeds with a sorter that only reorders,
    every item returned is an entry that [readdir] named: its path is the
    directory joined with its name, its flags are those [lstat] and
    [Utils.isHidden] gave for that path, and it passes the filter; without a
    filter the names returned are exactly the names read, reordered. *)
Theorem listDirectory_items (rd : Reader) (race : nat) (filePath : string)
    (options : IListDirectoryOptions) (items : list IDirectoryItem) :
  DirectoryManager_listDirectory rd race filePath options = Ok items ->
  (forall l, Permutation
               ((match sort options with
                 | Some f => f
                 | None => sortByTypeThenAlphaNumery rd
                 end) l) l) ->
  exists fileList,
    getDirectoryPaths rd filePath = Ok fileList
    /\ (forall it, it ∈ items ->
          name it ∈ fileList
          /\ path it = joinPath rd filePath (name it)
          /\ lstatAsync rd (path it) = Ok (isDirectory it)
          /\ isHidden it = isHiddenPath rd (path it) (hideUnixStyleHiddenItems options)
          /\ forall f, filterCondition options = Some f -> f it = true)
    /\ (filterCondition options = None -> Permutation (map name items) fileList).
Proof.
  intros Hok Hsort.
  destruct (listDirectory_Ok _ _ _ _ _ Hok) as (fileList & _ & Hread & Hrej & Hitems).
  destruct (statFile_fulfilled _ _ _ _ Hrej) as [Hnames Hall].
  exists fileList. split; [exact Hread|]. split.
  - intros it Hit. subst items.
    apply list_elem_of_In, filter_In in Hit as [Hin Hf].
    apply list_elem_of_In in Hin. rewrite (Hsort _) in Hin.
    destruct (Hall it Hin) as (H1 & H2 & H3 & H4).
    repeat (split; [assumption|]).
    intros f Hfc. rewrite Hfc in Hf. exact Hf.
  - intros Hnone. subst items. rewrite Hnone, filter_all.
    rewrite <- Hnames at 2. apply Permutation_map, Hsort.
Qed.

Lemma directories_first_permutes l : Permutation (Runs.directories_first l) l.
Proof.
  unfold Runs.directories_first. induction l as [|x l IH]; simpl; [constructor|].
  destruct (isDirectory x); simpl.
  - constructor. exact IH.
  - rewrite <- Permutation_middle. constructor. exact IH.
Qed.

Lemma listDirectory_items_witness :
  exists fileList,
    getDirectoryPaths Runs.reader "/a" = Ok fileList
    /\ (forall it, it ∈ [Examples.item_b; Examples.item_c] ->
          name it ∈ fileList
          /\ path it = Examples.posix_join "/a" (name it)
          /\ lstatAsync Runs.reader (path it) = Ok (isDirectory it)
          /\ isHidden it = false
          /\ forall f, filterCondition Runs.no_options = Some f -> f it = true)
    /\ (filterCondition Runs.no_options = None ->
        Permutation (map name [Examples.item_b; Examples.item_c]) fileList).
Proof.
  apply (listDirectory_items Runs.reader 0 "/a" Runs.no_options
           [Examples.item_b; Examples.item_c]).
  - reflexivity.
  - intros l. apply directories_first_permutes.
Defined.

(** X12. [listDirectory] succeeds exactly when the path is a directory, its
    names can be read and every name can be stat'ed: one entry that cannot
    be stat'ed fails the whole call, never a shorter listing.  A path that
    is not a directory and a directory that cannot be read each give their
    own [DirectoryError]. *)
Theorem listDirectory_all_or_nothing (rd : Reader) (race : nat) (filePath : string)
    (options : IListDirectoryOptions) :
  (is_ok (DirectoryManager_listDirectory rd race filePath options) = true
   <-> lstatAsync rd filePath = Ok true
       /\ exists fileList,
            getDirectoryPaths rd filePath = Ok fileList
            /\ forall n, n ∈ fileList ->
                 is_ok (lstatAsync rd (joinPath rd filePath n)) = true)
  /\ (lstatAsync rd filePath = Ok false ->
      DirectoryManager_listDirectory rd race filePath options
      = Throw (DirectoryError "Cannot call listDirectory on a non-directory item"
                 filePath None))
  /\ (lstatAsync rd filePath = Ok true ->
      is_ok (getDirectoryPaths rd filePath) = false ->
      DirectoryManager_listDirectory rd race filePath options
      = Throw (DirectoryError "Could not list items in directory" filePath None)).
Proof.
  split; [|split].
  - split.
    + intros H.
      destruct (DirectoryManager_listDirectory rd race filePath options)
        as [items|e] eqn:Hl; [|discriminate].
      destruct (listDirectory_Ok _ _ _ _ _ Hl) as (fileList & H1 & H2 & H3 & _).
      split; [exact H1|]. exists fileList. split; [exact H2|].
      exact (proj1 (statFile_rejected _ _ _ _) H3).
    + intros (H1 & fileList & H2 & H3).
      unfold DirectoryManager_listDirectory. rewrite H1, H2.
      pose proof (proj2 (statFile_rejected rd filePath
                           (hideUnixStyleHiddenItems options) fileList) H3) as H4.
      unfold await_all. rewrite H4. reflexivity.
  - intros H. unfold DirectoryManager_listDirectory. rewrite H. reflexivity.
  - intros H1 H2. unfold DirectoryManager_listDirectory. rewrite H1.
    destruct (getDirectoryPaths rd filePath); [discriminate|reflexivity].
Qed.

Lemma listDirectory_all_or_nothing_witness :
  DirectoryManager_listDirectory Runs.reader 0 "/a/c" Runs.no_options
  = Throw (DirectoryError "Cannot call listDirectory on a non-directory item"
             "/a/c" None)
  /\ is_ok (DirectoryManager_listDirectory Runs.reader 0 "/a" Runs.no_options) = true.
Proof.
  destruct (listDirectory_all_or_nothing Runs.reader 0 "/a/c" Runs.no_options)
    as (_ & H & _).
  destruct (listDirectory_all_or_nothing Runs.reader 0 "/a" Runs.no_options)
    as (H' & _).
  split; [apply H; reflexivity|].
  apply H'. split; [reflexivity|]. exists ["c"; "b"]. split; [reflexivity|].
  intros n Hn. apply elem_of_cons in Hn as [->|Hn]; [reflexivity|].
  apply list_elem_of_singleton in Hn. subst n. reflexivity.
Defined.

(** ** Watching *)

Lemma filter_other_watchers (l : list (nat * string)) (w : nat) :
  (forall e, e ∈ l -> fst e < w) ->
  filter (fun e => negb (Nat.eqb (fst e) w)) l = l.
Proof.
  induction l as [|e l IH]; intros H; [reflexivity|].
  rewrite filter_cons_True.
  - rewrite IH; [reflexivity|]. intros x Hx. apply H, list_elem_of_further, Hx.
  - specialize (H e (list_elem_of_here _ _)).
    destruct (Nat.eqb_spec (fst e) w) as [Heq|Hne]; [lia|exact I].
Qed.

(** X13. Starting a watch and stopping it closes exactly the watcher that
    was opened: the watchers open before are open after, and none more.
    Stopping a second time calls [close] on the same watcher again and
    changes nothing.  (Watcher identities are fresh: those open are below the
    next one.) *)
Theorem watch_round_trip {World} (fs : FileSystem World) (p : string) (st : Sys World) :
  watchable fs p (world st) = true ->
  (forall e, e ∈ open_watchers st -> fst e < next_watcher st) ->
  let started := fst (startWatching fs p st) in
  let stopped := fst (stopWatching started) in
  open_watchers started = open_watchers st ++ [(next_watcher st, p)]
  /\ open_watchers stopped = open_watchers st
  /\ calls stopped = calls st ++ [CWatch p true; CClose (next_watcher st)]
  /\ open_watchers (fst (stopWatching stopped)) = open_watchers st
  /\ calls (fst (stopWatching stopped))
     = calls stopped ++ [CClose (next_watcher st)].
Proof.
  intros Hw Hfresh. unfold startWatching. rewrite Hw. simpl.
  unfold stopWatching. simpl.
  rewrite filter_app, (filter_other_watchers _ _ Hfresh).
  rewrite filter_cons_False, filter_nil, app_nil_r
    by (simpl; rewrite Nat.eqb_refl; simpl; tauto).
  rewrite (filter_other_watchers _ _ Hfresh), <- app_assoc. simpl. auto.
Qed.

Lemma watch_round_trip_witness :
  let st := Examples.boot Examples.four_directories in
  let started := fst (startWatching Examples.disk_fs "/a" st) in
  let stopped := fst (stopWatching started) in
  open_watchers started = [(0, "/a")]
  /\ open_watchers stopped = []
  /\ calls stopped = [CWatch "/a" true; CClose 0]
  /\ open_watchers (fst (stopWatching stopped)) = []
  /\ calls (fst (stopWatching stopped)) = calls stopped ++ [CClose 0].
Proof.
  apply (watch_round_trip Examples.disk_fs "/a"
           (Examples.boot Examples.four_directories)).
  - reflexivity.
  - intros e H. inversion H.
Defined.


(** ** Batches *)

Section BatchInvariant.

Context {World : Type} (fs : FileSystem World).

(** [I] is kept by the calls made; [J] holds of a promise given the calls
    made so far. *)
Variable I : list Call -> Prop.
Variable J : list Call -> Async -> Prop.

Hypothesis step : forall made io k ok,
  I made -> J made (Await io k) ->
  I (made ++ [io_call io ok]) /\ J (made ++ [io_call io ok]) (k ok).
Hypothesis mono : forall made c a, J made a -> J (made ++ [c]) a.

Lemma resume_invariant a (st : Sys World) :
  I (calls st) -> J (calls st) a ->
  I (calls (fst (resume fs a st)))
  /\ J (calls (fst (resume fs a st))) (snd (resume fs a st))
  /\ in_flight (fst (resume fs a st)) = in_flight st
  /\ (forall b, J (calls st) b -> J (calls (fst (resume fs a st))) b).
Proof.
  destruct a as [r|io k]; simpl; intros HI HJ; [auto|].
  unfold perform. destruct (io_effect fs io (world st)) as [w ok]. simpl.
  destruct (step _ io k ok HI HJ) as [H1 H2].
  split; [exact H1|]. split; [exact H2|]. split; [reflexivity|].
  intros b Hb. apply mono. exact Hb.
Qed.

Lemma await_invariant a : forall st : Sys World,
  I (calls st) -> J (calls st) a ->
  I (calls (fst (await fs a st)))
  /\ in_flight (fst (await fs a st)) = in_flight st
  /\ (forall b, J (calls st) b -> J (calls (fst (await fs a st))) b).
Proof.
  induction a as [r|io k IH]; intros st HI HJ; simpl; [auto|].
  unfold perform. destruct (io_effect fs io (world st)) as [w ok]. simpl.
  destruct (step _ io k ok HI HJ) as [H1 H2].
  destruct (IH ok (call (io_call io ok) w st) H1 H2) as (H3 & H4 & H5).
  split; [exact H3|]. split; [rewrite H4; reflexivity|].
  intros b Hb. apply H5. simpl. apply mono. exact Hb.
Qed.

Lemma in_turn_invariant ps : forall st : Sys World,
  I (calls st) -> Forall (J (calls st)) ps -> Forall (J (calls st)) (in_flight st) ->
  I (calls (fst (in_turn fs ps st)))
  /\ Forall (J (calls (fst (in_turn fs ps st)))) (in_flight (fst (in_turn fs ps st))).
Proof.
  induction ps as [|a ps IH]; intros st HI Hps Hfl; simpl; [auto|].
  inversion Hps as [|? ? Ha Hrest]; subst.
  destruct (await_invariant a st HI Ha) as (H1 & H2 & H3).
  destruct (await fs a st) as [st1 [[]|e]]; simpl in *.
  - apply IH; [exact H1| |rewrite H2].
    + eapply Forall_impl; [exact Hrest|exact H3].
    + eapply Forall_impl; [exact Hfl|exact H3].
  - split; [exact H1|]. rewrite H2. apply Forall_app. split.
    + eapply Forall_impl; [exact Hfl|exact H3].
    + apply List.Forall_forall. intros x Hx. apply List.filter_In in Hx as [Hx _].
      apply H3. rewrite List.Forall_forall in Hrest. apply Hrest. exact Hx.
Qed.

Lemma leave_invariant ps (st : Sys World) :
  Forall (J (calls st)) ps -> Forall (J (calls st)) (in_flight st) ->
  Forall (J (calls (leave ps st))) (in_flight (leave ps st)).
Proof.
  intros Hps Hfl. simpl. apply Forall_app. split; [exact Hfl|].
  apply List.Forall_forall. intros x Hx. apply List.filter_In in Hx as [Hx _].
  rewrite List.Forall_forall in Hps. apply Hps. exact Hx.
Qed.

Lemma promise_all_invariant order : forall ps (st : Sys World),
  I (calls st) -> Forall (J (calls st)) ps -> Forall (J (calls st)) (in_flight st) ->
  I (calls (fst (promise_all fs order ps st)))
  /\ Forall (J (calls (fst (promise_all fs order ps st))))
       (in_flight (fst (promise_all fs order ps st))).
Proof.
  induction order as [|i rest IH]; intros ps st HI Hps Hfl.
  - simpl. destruct (rejection ps) as [e|].
    + split; [exact HI|]. apply leave_invariant; assumption.
    + apply in_turn_invariant; assumption.
  - simpl. destruct (rejection ps) as [e|].
    + split; [exact HI|]. apply leave_invariant; assumption.
    + destruct (ps !! i) as [a|] eqn:Hi; [|apply IH; assumption].
      assert (Ha : J (calls st) a).
      { rewrite Forall_lookup in Hps. apply (Hps i a Hi). }
      destruct (resume_invariant a st HI Ha) as (H1 & H2 & H3 & H4).
      destruct (resume fs a st) as [st1 a1]. simpl in *.
      apply IH; [exact H1| |rewrite H3].
      * apply Forall_insert; [|exact H2].
        eapply Forall_impl; [exact Hps|exact H4].
      * eapply Forall_impl; [exact Hfl|exact H4].
Qed.

Lemma settle_invariant k (st : Sys World) :
  I (calls st) -> Forall (J (calls st)) (in_flight st) ->
  I (calls (settle fs k st))
  /\ Forall (J (calls (settle fs k st))) (in_flight (settle fs k st)).
Proof.
  intros HI Hfl. unfold settle.
  destruct (in_flight st !! k) as [a|] eqn:Hk; [|auto].
  assert (Ha : J (calls st) a).
  { rewrite Forall_lookup in Hfl. apply (Hfl k a Hk). }
  destruct (resume_invariant a st HI Ha) as (H1 & H2 & H3 & H4).
  destruct (resume fs a st) as [st1 a1]. simpl in *.
  split; [exact H1|].
  assert (Hfl1 : Forall (J (calls st1)) (in_flight st)).
  { eapply Forall_impl; [exact Hfl|exact H4]. }
  destruct (is_pending a1).
  - apply Forall_insert; assumption.
  - apply Forall_delete. exact Hfl1.
Qed.

Lemma settle_each_invariant ps : forall st : Sys World,
  I (calls st) -> Forall (J (calls st)) ps -> I (calls (settle_each fs ps st)).
Proof.
  induction ps as [|a ps IH]; intros st HI Hps; simpl; [exact HI|].
  inversion Hps as [|? ? Ha Hrest]; subst.
  destruct (await_invariant a st HI Ha) as (H1 & _ & H3).
  apply IH; [exact H1|]. eapply Forall_impl; [exact Hrest|exact H3].
Qed.

Lemma finish_invariant later : forall st : Sys World,
  I (calls st) -> Forall (J (calls st)) (in_flight st) ->
  I (calls (finish fs later st)).
Proof.
  induction later as [|k later IH]; intros st HI Hfl.
  - unfold finish. simpl. apply settle_each_invariant; assumption.
  - change (finish fs (k :: later) st) with (finish fs later (settle fs k st)).
    destruct (settle_invariant k st HI Hfl). apply IH; assumption.
Qed.

End BatchInvariant.

(** Whatever a batch and the promises it leaves in flight do, the calls they
    add are file-system calls: nothing is sent to the status bar. *)
Lemma promise_all_calls {World} (fs : FileSystem World) order later ps (st : Sys World) :
  (exists made,
     calls (fst (promise_all fs order ps st)) = calls st ++ made
     /\ Forall (fun c => is_notify c = false) made)
  /\ (exists made,
        calls (finish fs later (fst (promise_all fs order ps st))) = calls st ++ made
        /\ Forall (fun c => is_notify c = false) made).
Proof.
  set (I := fun l => exists made, l = calls st ++ made
                                  /\ Forall (fun c => is_notify c = false) made).
  assert (Hstep : forall made io (k : bool -> Async) ok,
            I made -> True -> I (made ++ [io_call io ok]) /\ True).
  { intros made io k ok (new & -> & Hnew) _. split; [|exact Logic.I].
    exists (new ++ [io_call io ok]). split; [rewrite app_assoc; reflexivity|].
    apply Forall_app. split; [exact Hnew|]. constructor; [|constructor].
    destruct io; reflexivity. }
  assert (H0 : I (calls st)).
  { exists []. split; [rewrite app_nil_r; reflexivity|constructor]. }
  destruct (promise_all_invariant fs I (fun _ _ => True) Hstep (fun _ _ _ _ => Logic.I)
              order ps st H0) as (H1 & H2).
  - apply Forall_forall. auto.
  - apply Forall_forall. auto.
  - split; [exact H1|].
    apply (finish_invariant fs I (fun _ _ => True) Hstep (fun _ _ _ _ => Logic.I));
      assumption.
Qed.







(** The copies of a batch move are all under way before any deletion: the
    two copies can complete before either source is deleted. *)
Example moveItems_copies_first :
  calls (fst (moveItems Examples.disk_fs Examples.kind_of [0; 1; 0; 1]
                [Examples.file_1; Examples.file_3] "/dst"
                (Examples.boot Examples.second_locked)))
  = [CCopy "/t/1" "/dst/1" true; CCopy "/t/3" "/dst/3" true;
     CUnlink "/t/1" true; CUnlink "/t/3" true].
Proof. reflexivity. Qed.

(** X24. Whatever the order in which the copies complete, [copyItems]
    returns as soon as one copy has failed, or when all have succeeded.  The
    copies that have completed by then took effect on the file system one
    after the other, each into the destination directory under the base name
    of its source, and nothing else was called; those that have not are in
    flight, and once they have completed too every item has been copied
    exactly once and the file system is what these copies made of it.  The
    error thrown is that of the one copy that failed first, naming its
    source and its destination. *)
Theorem copyItems_best_effort {World} (fs : FileSystem World) (order later : list nat)
    (itemsToCopy : list IDirectoryItem) (destinationDirectory : string)
    (st : Sys World) :
  in_flight st = [] ->
  let copied := copyItems fs order itemsToCopy destinationDirectory st in
  let final := finish fs later (fst copied) in
  exists settled pending afterwards : list IDirectoryItem,
    Permutation (settled ++ pending) itemsToCopy
    /\ Permutation afterwards pending
    /\ (let first := effects fs (map (copying fs destinationDirectory) settled)
                       (world st) in
        world (fst copied) = fst first
        /\ calls (fst copied)
           = calls st
             ++ zip_with io_call (map (copying fs destinationDirectory) settled)
                  (snd first)
        /\ in_flight (fst copied)
           = map (fun i => copyItem fs (path i) destinationDirectory) pending
        /\ batch_outcome (copy_error fs destinationDirectory) settled (snd first)
             pending (snd copied))
    /\ (let all := effects fs
                     (map (copying fs destinationDirectory) (settled ++ afterwards))
                     (world st) in
        world final = fst all
        /\ calls final
           = calls st
             ++ zip_with io_call
                  (map (copying fs destinationDirectory) (settled ++ afterwards))
                  (snd all)
        /\ in_flight final = []).
Proof.
  intros Hfl.
  apply (batch_effects fs (copying fs destinationDirectory)
           (copy_error fs destinationDirectory) order later itemsToCopy st Hfl).
Qed.

Lemma copyItems_best_effort_witness :
  let st := Examples.boot (Examples.mkDisk ["/t/1"; "/t/2"; "/dst"] ["/dst/2"]) in
  let copied := copyItems Examples.disk_fs [1; 0] [Examples.file_1; Examples.file_2]
                  "/dst" st in
  let final := finish Examples.disk_fs [] (fst copied) in
  (exists settled pending afterwards : list IDirectoryItem,
     Permutation (settled ++ pending) [Examples.file_1; Examples.file_2]
     /\ Permutation afterwards pending
     /\ (let first := effects Examples.disk_fs
                        (map (copying Examples.disk_fs "/dst") settled) (world st) in
         world (fst copied) = fst first
         /\ calls (fst copied)
            = calls st
              ++ zip_with io_call (map (copying Examples.disk_fs "/dst") settled)
                   (snd first)
         /\ in_flight (fst copied)
            = map (fun i => copyItem Examples.disk_fs (path i) "/dst") pending
         /\ batch_outcome (copy_error Examples.disk_fs "/dst") settled (snd first)
              pending (snd copied))
     /\ (let all := effects Examples.disk_fs
                      (map (copying Examples.disk_fs "/dst") (settled ++ afterwards))
                      (world st) in
         world final = fst all
         /\ calls final
            = calls st
              ++ zip_with io_call
                   (map (copying Examples.disk_fs "/dst") (settled ++ afterwards))
                   (snd all)
         /\ in_flight final = []))
  /\ snd copied = Throw (DirectoryError "Failed to copy item" "/t/2" (Some "/dst/2"))
  /\ calls (fst copied) = [CCopy "/t/2" "/dst/2" false]
  /\ in_flight (fst copied) = [copyItem Examples.disk_fs "/t/1" "/dst"]
  /\ calls final = [CCopy "/t/2" "/dst/2" false; CCopy "/t/1" "/dst/1" true]
  /\ world final = Examples.mkDisk ["/t/1"; "/t/2"; "/dst"; "/dst/1"] ["/dst/2"].
Proof.
  intros st copied final. split.
  - apply (copyItems_best_effort Examples.disk_fs [1; 0] []
             [Examples.file_1; Examples.file_2] "/dst" st).
    reflexivity.
  - repeat split.
Defined.

(** X25. Whatever the order in which they complete, [sendItemsToTrash]
    returns as soon as one item could not be sent to the trash, or when all
    have been.  The calls that have completed by then took effect on the
    file system one after the other and nothing else was called; those that
    have not are in flight, and once they have completed too every item has
    been sent to the trash exactly once and the file system is what these
    calls made of it.  The error thrown is that of the one call that failed
    first, naming that item only. *)
Theorem sendItemsToTrash_best_effort {World} (fs : FileSystem World)
    (order later : list nat) (itemsToTrash : list IDirectoryItem) (st : Sys World) :
  in_flight st = [] ->
  let trashed := sendItemsToTrash fs order itemsToTrash st in
  let final := finish fs later (fst trashed) in
  exists settled pending afterwards : list IDirectoryItem,
    Permutation (settled ++ pending) itemsToTrash
    /\ Permutation afterwards pending
    /\ (let first := effects fs (map trashing settled) (world st) in
        world (fst trashed) = fst first
        /\ calls (fst trashed)
           = calls st ++ zip_with io_call (map trashing settled) (snd first)
        /\ in_flight (fst trashed)
           = map (fun i => sendItemToTrash (path i)) pending
        /\ batch_outcome trash_error settled (snd first) pending (snd trashed))
    /\ (let all := effects fs (map trashing (settled ++ afterwards)) (world st) in
        world final = fst all
        /\ calls final
           = calls st ++ zip_with io_call (map trashing (settled ++ afterwards)) (snd all)
        /\ in_flight final = []).
Proof.
  intros Hfl.
  apply (batch_effects fs trashing trash_error order later itemsToTrash st Hfl).
Qed.

Lemma sendItemsToTrash_best_effort_witness :
  let st := Examples.boot Examples.second_locked in
  let trashed := sendItemsToTrash Examples.disk_fs [2; 1] Examples.three_files st in
  let final := finish Examples.disk_fs [] (fst trashed) in
  (exists settled pending afterwards : list IDirectoryItem,
     Permutation (settled ++ pending) Examples.three_files
     /\ Permutation afterwards pending
     /\ (let first := effects Examples.disk_fs (map trashing settled) (world st) in
         world (fst trashed) = fst first
         /\ calls (fst trashed)
            = calls st ++ zip_with io_call (map trashing settled) (snd first)
         /\ in_flight (fst trashed)
            = map (fun i => sendItemToTrash (path i)) pending
         /\ batch_outcome trash_error settled (snd first) pending (snd trashed))
     /\ (let all := effects Examples.disk_fs (map trashing (settled ++ afterwards))
                      (world st) in
         world final = fst all
         /\ calls final
            = calls st
              ++ zip_with io_call (map trashing (settled ++ afterwards)) (snd all)
         /\ in_flight final = []))
  /\ snd trashed = Throw (DirectoryError "Could not send item to trash" "/t/2" None)
  /\ calls final = [CTrash "/t/3" true; CTrash "/t/2" false; CTrash "/t/1" true]
  /\ Examples.present (world final) = ["/t/2"].
Proof.
  intros st trashed final. split.
  - apply (sendItemsToTrash_best_effort Examples.disk_fs [2; 1] []
             Examples.three_files st).
    reflexivity.
  - repeat split.
Defined.

(** * Further properties of the directory list *)

(** ** Moving the selection *)

(** X15. [move] keeps the selection on the list: an index between 0 and the
    last displayed item stays so (on an empty list it stays 0), it changes
    by one step at most, moving up at the top or down at the bottom changes
    nothing, and nothing but the index is touched. *)
Theorem move_keeps_selection_in_range {World} (direction : DirectoryDirection)
    (this : DirectoryList World) :
  let last := (Z.of_nat (List.length (nonHiddenDirectoryItems (state this))) - 1)%Z in
  (0 <= selectedIndex (state this) <= Z.max 0 last)%Z ->
  let moved := move direction this in
  let index := selectedIndex (state (fst moved)) in
  snd moved = Ok tt
  /\ (0 <= index <= Z.max 0 last)%Z
  /\ fst moved
     = mkDL (props_path this) (set_selectedIndex index (state this)) (model this)
         (sys this)
  /\ index = match direction with
             | up => if (0 <? selectedIndex (state this))%Z
                     then (selectedIndex (state this) - 1)%Z
                     else selectedIndex (state this)
             | down => if (selectedIndex (state this) <? last)%Z
                       then (selectedIndex (state this) + 1)%Z
                       else selectedIndex (state this)
             end.
Proof.
  intros last Hrange moved index. subst moved index.
  unfold move, bind, getThis, setState, ret. simpl. fold last.
  destruct this as [pp st md sy]. destruct st. simpl in *.
  destruct direction.
  - destruct (0 <? selectedIndex0)%Z eqn:Hc; simpl;
      (split; [reflexivity|]); (split; [|split; reflexivity]).
    + apply Z.ltb_lt in Hc. lia.
    + exact Hrange.
  - destruct (selectedIndex0 <? last)%Z eqn:Hc; simpl;
      (split; [reflexivity|]); (split; [|split; reflexivity]).
    + apply Z.ltb_lt in Hc. lia.
    + exact Hrange.
Qed.

Lemma move_keeps_selection_in_range_witness :
  let this := Runs.listed_pane Runs.unlocked in
  let moved := move down this in
  snd moved = Ok tt
  /\ (0 <= selectedIndex (state (fst moved)) <= 2)%Z.
Proof.
  intros this moved.
  destruct (move_keeps_selection_in_range down this) as (H1 & H2 & _).
  - vm_compute. split; discriminate.
  - split; [exact H1|exact H2].
Defined.

Lemma move_down_on_a_list :
  let this := Runs.listed_pane Examples.second_locked in
  selectedIndex (state (fst (move down this))) = 2%Z
  /\ selectedIndex (state (fst (move down (fst (move down this))))) = 2%Z.
Proof. split; reflexivity. Qed.

(** ** Selecting an item *)

Lemma findIndex_spec {A} (f : A -> bool) (l : list A) :
  (findIndex f l = (-1)%Z /\ forall x, x ∈ l -> f x = false)
  \/ (exists x, index_at l (findIndex f l) = Some x /\ f x = true
                /\ (0 <= findIndex f l)%Z).
Proof.
  induction l as [|y l IH]; simpl.
  - left. split; [reflexivity|]. intros x H. inversion H.
  - destruct (f y) eqn:Hy.
    + right. exists y. unfold index_at. simpl. auto with zarith.
    + destruct IH as [[Hi Hall]|(x & Hx & Hfx & Hpos)].
      * left. rewrite Hi. simpl. split; [reflexivity|].
        intros x Hx. apply elem_of_cons in Hx as [->|Hx]; auto.
      * right. exists x.
        destruct (findIndex f l <? 0)%Z eqn:Hneg; [apply Z.ltb_lt in Hneg; lia|].
        split; [|split; [exact Hfx|lia]].
        unfold index_at in *. rewrite Hneg in Hx.
        destruct (findIndex f l + 1 <? 0)%Z eqn:Hneg'; [apply Z.ltb_lt in Hneg'; lia|].
        replace (Z.to_nat (findIndex f l + 1)) with (S (Z.to_nat (findIndex f l))) by lia.
        exact Hx.
Qed.

(** X16. [selectItem] selects by name among the displayed items: afterwards
    the selection is on a displayed item with the name asked for, or, when
    no displayed item has that name (the item is hidden, or gone), the index
    is -1 and on no item.  Only the index changes, and the pane's identifier
    is sent up in both cases. *)
Theorem selectItem_by_name {World} (id : string) (itemToSelect : IDirectoryItem)
    (this : DirectoryList World) :
  let selected := selectItem id itemToSelect this in
  let index := selectedIndex (state (fst selected)) in
  let shown := nonHiddenDirectoryItems (state this) in
  snd selected = Ok id
  /\ fst selected
     = mkDL (props_path this) (set_selectedIndex index (state this)) (model this)
         (sys this)
  /\ ((index = (-1)%Z
       /\ index_at shown index = None
       /\ forall o, o ∈ shown -> name (snd o) <> name itemToSelect)
      \/ exists o, index_at shown index = Some o
                   /\ name (snd o) = name itemToSelect).
Proof.
  intros selected index shown.
  assert (Heq : selected
                = (mkDL (props_path this)
                     (set_selectedIndex
                        (findIndex (fun o : Obj =>
                                      String.eqb (name (snd o)) (name itemToSelect))
                           shown) (state this))
                     (model this) (sys this), Ok id)) by reflexivity.
  subst index. clearbody selected. subst selected. simpl.
  split; [reflexivity|]. split; [reflexivity|].
  destruct (findIndex_spec
              (fun o : Obj => String.eqb (name (snd o)) (name itemToSelect)) shown)
    as [[Hi Hall]|(o & Ho & Hf & _)].
  - left. rewrite Hi. split; [reflexivity|]. split; [reflexivity|].
    intros o Ho Heq. specialize (Hall o Ho). simpl in Hall.
    rewrite Heq, String.eqb_refl in Hall. discriminate.
  - right. exists o. split; [exact Ho|]. apply String.eqb_eq. exact Hf.
Qed.

Example selectItem_shown_and_hidden :
  let this := Runs.listed_pane Examples.second_locked in
  selectedIndex (state (fst (selectItem "left" Examples.file_3 this))) = 2%Z
  /\ selectedIndex (state (fst (selectItem "left" Runs.hidden_file this))) = (-1)%Z.
Proof. split; reflexivity. Qed.

(** ** Creating and renaming *)

Lemma truthy_true s : s <> "" -> truthy s = true.
Proof.
  intros H. unfold truthy. destruct (String.eqb_spec s ""); [contradiction|reflexivity].
Qed.

(** X18. [createNewItem].  Without a name, with an empty name or without a
    type it does nothing at all.  Otherwise it makes one file-system call on
    the pane's path joined with the name, [mkdir] for a folder and
    [writeFile] with empty content for a file; when the call succeeds the
    input is closed ([creatingNewItem] becomes false), and when it fails the
    [DirectoryError] names the full path and the pane's state is untouched,
    so the input stays open. *)
Theorem createNewItem_outcomes {World} (wr : Writer World) (itemName : option string)
    (itemTypeToCreate : option ItemType) (this : DirectoryList World)
    (log : list FsOp) :
  let created := DirectoryList_createNewItem wr itemName itemTypeToCreate (this, log) in
  ((itemName = None \/ itemName = Some "" \/ itemTypeToCreate = None) ->
   created = ((this, log), Ok tt))
  /\ (forall n t,
        itemName = Some n -> n <> "" -> itemTypeToCreate = Some t ->
        let fullItemName := joinName wr (props_path this) n in
        exists ok,
          snd (fst created)
          = log ++ [match t with
                    | folder => OpMkdir fullItemName ok
                    | file => OpWriteFile fullItemName "" ok
                    end]
          /\ props_path (fst (fst created)) = props_path this
          /\ model (fst (fst created)) = model this
          /\ if ok
             then snd created = Ok tt
                  /\ state (fst (fst created)) = set_creatingNewItem None (state this)
             else snd created
                  = Throw (DirectoryError
                             (match t with
                              | folder => "Could not create directory"
                              | file => "Could not create file"
                              end) fullItemName None)
                  /\ state (fst (fst created)) = state this).
Proof.
  intros created. subst created. split.
  - intros [->|[->| ->]];
      [reflexivity|destruct itemTypeToCreate; reflexivity|destruct itemName; reflexivity].
  - intros n t -> Hn -> full.
    unfold DirectoryList_createNewItem. rewrite (truthy_true n Hn).
    unfold bind, liftDL, liftWriter, getThis, ui, setState, createItem. simpl.
    fold full. destruct t.
    + destruct (writeFileAsync wr full "" (world (sys this))) as [w ok].
      exists ok. destruct ok; simpl; auto.
    + destruct (mkdirAsync wr full (world (sys this))) as [w ok].
      exists ok. destruct ok; simpl; auto.
Qed.

Lemma createNewItem_outcomes_witness :
  let this := Runs.listed_pane Runs.unlocked in
  DirectoryList_createNewItem Runs.disk_writer None (Some file) (this, [])
  = ((this, []), Ok tt)
  /\ exists ok,
       snd (fst (DirectoryList_createNewItem Runs.disk_writer (Some "1") (Some folder)
                   (this, [])))
       = [OpMkdir "/t/1" ok].
Proof.
  intros this.
  destruct (createNewItem_outcomes Runs.disk_writer None (Some file) this [])
    as (H & _).
  destruct (createNewItem_outcomes Runs.disk_writer (Some "1") (Some folder) this [])
    as (_ & H').
  split; [apply H; left; reflexivity|].
  destruct (H' "1" folder eq_refl ltac:(discriminate) eq_refl) as (ok & Hlog & _).
  exists ok. exact Hlog.
Defined.

(** Creating a folder whose name is taken fails and leaves the input open. *)
Example createNewItem_name_taken :
  let this := Runs.listed_pane Runs.unlocked in
  let created := DirectoryList_createNewItem Runs.disk_writer (Some "1") (Some folder)
                   (mkDL "/t" (set_creatingNewItem (Some folder) (state this))
                      (model this) (sys this), []) in
  snd created = Throw (DirectoryError "Could not create directory" "/t/1" None)
  /\ creatingNewItem (state (fst (fst created))) = Some folder
  /\ snd (fst created) = [OpMkdir "/t/1" false].
Proof. repeat split. Qed.

(** X19. [renameItem] of the pane.  Without both names (absent or empty)
    it does nothing.  With the same name twice it touches nothing on disk
    and closes the rename input.  With two different names it makes one
    [rename] call from and to the pane's path joined with each name; on
    success the input is closed, on failure the [DirectoryError] carries both
    full paths and the pane's state is untouched. *)
Theorem renameItem_outcomes {World} (wr : Writer World) (oldName newName : option string)
    (this : DirectoryList World) (log : list FsOp) :
  let renamed := DirectoryList_renameItem wr oldName newName (this, log) in
  ((oldName = None \/ oldName = Some "" \/ newName = None \/ newName = Some "") ->
   renamed = ((this, log), Ok tt))
  /\ (forall o n,
        oldName = Some o -> newName = Some n -> o <> "" -> n <> "" ->
        props_path (fst (fst renamed)) = props_path this
        /\ model (fst (fst renamed)) = model this
        /\ (o = n ->
            snd renamed = Ok tt
            /\ snd (fst renamed) = log
            /\ world (sys (fst (fst renamed))) = world (sys this)
            /\ state (fst (fst renamed)) = set_renamingItem false (state this))
        /\ (o <> n ->
            let oldNameFull := joinName wr (props_path this) o in
            let newNameFull := joinName wr (props_path this) n in
            exists ok,
              snd (fst renamed) = log ++ [OpRename oldNameFull newNameFull ok]
              /\ if ok
                 then snd renamed = Ok tt
                      /\ state (fst (fst renamed)) = set_renamingItem false (state this)
                 else snd renamed
                      = Throw (DirectoryError "Could not rename item" oldNameFull
                                 (Some newNameFull))
                      /\ state (fst (fst renamed)) = state this)).
Proof.
  intros renamed. subst renamed. split.
  - intros [->|[->|[->| ->]]].
    + reflexivity.
    + destruct newName; reflexivity.
    + destruct oldName; reflexivity.
    + destruct oldName as [o|]; [|reflexivity].
      unfold DirectoryList_renameItem. rewrite andb_false_r. reflexivity.
  - intros o n -> -> Ho Hn.
    unfold DirectoryList_renameItem. rewrite (truthy_true o Ho), (truthy_true n Hn).
    unfold bind, liftDL, liftWriter, getThis, ui, setState, renameItem. simpl.
    destruct (String.eqb_spec o n) as [Heq|Hne].
    + simpl. split; [reflexivity|]. split; [reflexivity|]. split; [auto|].
      intros Hc. contradiction.
    + destruct (renameAsync wr (joinName wr (props_path this) o)
                  (joinName wr (props_path this) n) (world (sys this))) as [w ok].
      split; [destruct ok; reflexivity|]. split; [destruct ok; reflexivity|].
      split; [intros Hc; contradiction|].
      intros _. exists ok. destruct ok; simpl; auto.
Qed.

Lemma renameItem_outcomes_witness :
  let this := Runs.listed_pane Runs.unlocked in
  let same := DirectoryList_renameItem Runs.disk_writer (Some "1") (Some "1")
                (this, []) in
  snd same = Ok tt
  /\ snd (fst same) = []
  /\ world (sys (fst (fst same))) = world (sys this)
  /\ state (fst (fst same)) = set_renamingItem false (state this).
Proof.
  intros this same.
  destruct (renameItem_outcomes Runs.disk_writer (Some "1") (Some "1") this [])
    as (_ & H).
  destruct (H "1" "1" eq_refl eq_refl ltac:(discriminate) ltac:(discriminate))
    as (_ & _ & Hsame & _).
  apply Hsame. reflexivity.
Defined.

Example renameItem_on_disk :
  let this := Runs.listed_pane Runs.unlocked in
  let renamed := DirectoryList_renameItem Runs.disk_writer (Some "1") (Some "one")
                   (this, []) in
  snd renamed = Ok tt
  /\ snd (fst renamed) = [OpRename "/t/1" "/t/one" true]
  /\ Examples.present (world (sys (fst (fst renamed)))) = ["/t/2"; "/t/3"; "/t/one"].
Proof. repeat split. Qed.

(** ** Updates of the pane *)

(** X21. A [componentDidUpdate] on an unchanged path never touches the
    watch: no watcher is opened and none is closed.  When moreover no item
    was being created or renamed and none was deleted, it only reports the
    two counts to the status bar: nothing is listed and the pane's state and
    model are as before. *)
Theorem componentDidUpdate_same_path {World} (fs : FileSystem World)
    (prevState : IDirectoryListState) (this : DirectoryList World) :
  let updated := componentDidUpdate fs (props_path this) prevState this in
  let made := drop (List.length (calls (sys this))) (calls (sys (fst updated))) in
  open_watchers (sys (fst updated)) = open_watchers (sys this)
  /\ watcher (sys (fst updated)) = watcher (sys this)
  /\ Forall (fun c => is_watch c = false /\ is_close c = false) made
  /\ (creatingNewItem prevState = None ->
      renamingItem prevState = false ->
      itemDeleted (state this) = false ->
      snd updated = Ok tt
      /\ state (fst updated) = state this
      /\ model (fst updated) = model this
      /\ made = [CSetItemCount (List.length (nonHiddenDirectoryItems (state this)));
                 CSetChosenCount (List.length (chosenItems (state this)))]).
Proof.
  intros updated made. subst updated made.
  unfold componentDidUpdate, bind, getThis, ui, setState, watchPath, rethrow,
    liftSys, popCachedNavigation, listDirectoryObjects, ret, call.
  simpl. rewrite String.eqb_refl. simpl.
  destruct (creatingNewItem prevState) as [t|]; simpl;
    destruct (renamingItem prevState); simpl;
    destruct (itemDeleted (state this)); simpl;
    destruct (itemDeleted prevState); simpl;
    destruct (cachedNavigations (model this) !! props_path this) as [[i l]|]; simpl;
    try (destruct (readDirectory fs (props_path this) (world (sys this))); simpl);
    rewrite <- ?app_assoc; simpl; rewrite drop_app_length;
    (split; [reflexivity|]); (split; [reflexivity|]);
    (split; [repeat constructor|]);
    intros; try discriminate; auto.
Qed.

(** The update when a cached navigation is found. *)
Lemma componentDidUpdate_cached {World} (fs : FileSystem World)
    (prevPath : string) (prevState : IDirectoryListState) (this : DirectoryList World)
    (index : Z) (items : list Obj) :
  prevPath <> props_path this ->
  watchable fs (props_path this) (world (sys this)) = true ->
  cachedNavigations (model this) !! props_path this = Some (index, items) ->
  let updated := componentDidUpdate fs prevPath prevState this in
  snd updated = Ok tt
  /\ directoryItems (state (fst updated)) = items
  /\ selectedIndex (state (fst updated)) = index
  /\ chosenItems (state (fst updated)) = keep (includes items) (chosenItems (state this))
  /\ cachedNavigations (model (fst updated)) !! props_path this = None
  /\ calls (sys (fst updated))
     = calls (sys this)
       ++ [CSetItemCount (List.length (nonHiddenDirectoryItems (state this)));
           CSetChosenCount (List.length (chosenItems (state this)));
           CWatch (props_path this) true].
Proof.
  intros Hne Hw Hcache updated. subst updated.
  assert (He : String.eqb prevPath (props_path this) = false).
  { apply String.eqb_neq. exact Hne. }
  unfold componentDidUpdate, bind, getThis, ui, setState, watchPath, rethrow,
    liftSys, startWatching, popCachedNavigation, listDirectoryObjects, ret, call.
  simpl. rewrite He. simpl.
  destruct (itemDeleted prevState); simpl; rewrite Hw; simpl; rewrite Hcache; simpl;
    rewrite lookup_delete_eq, <- !app_assoc; simpl; auto 10.
Qed.

(** X22. When the model holds a cached navigation for the path the pane
    moves to, [componentDidUpdate] takes the listing and the selection from
    it without listing the directory: the calls it makes are the two counts
    and the watch; the chosen items that are not objects of the cached
    listing are dropped; and the cached entry is consumed. *)
Theorem componentDidUpdate_restores_cached {World} (fs : FileSystem World)
    (prevPath : string) (prevState : IDirectoryListState) (this : DirectoryList World)
    (index : Z) (items : list Obj) :
  prevPath <> props_path this ->
  watchable fs (props_path this) (world (sys this)) = true ->
  cachedNavigations (model this) !! props_path this = Some (index, items) ->
  let updated := componentDidUpdate fs prevPath prevState this in
  snd updated = Ok tt
  /\ directoryItems (state (fst updated)) = items
  /\ selectedIndex (state (fst updated)) = index
  /\ chosenItems (state (fst updated)) = keep (includes items) (chosenItems (state this))
  /\ cachedNavigations (model (fst updated)) !! props_path this = None
  /\ calls (sys (fst updated))
     = calls (sys this)
       ++ [CSetItemCount (List.length (nonHiddenDirectoryItems (state this)));
           CSetChosenCount (List.length (chosenItems (state this)));
           CWatch (props_path this) true].
Proof.
  apply componentDidUpdate_cached.
Qed.

Lemma includes_fresh (l : list IDirectoryItem) (o : Obj) : forall n,
  fst o < n -> includes (zip (seq n (List.length l)) l) o = false.
Proof.
  unfold includes. induction l as [|x l IH]; intros n Hlt; simpl; [reflexivity|].
  rewrite (IH (S n)) by lia. rewrite orb_false_r.
  apply Nat.eqb_neq. lia.
Qed.

Lemma keep_includes_fresh (l : list IDirectoryItem) (chosen : list Obj) n :
  (forall o, o ∈ chosen -> fst o < n) ->
  keep (includes (zip (seq n (List.length l)) l)) chosen = [].
Proof.
  unfold keep. induction chosen as [|o chosen IH]; intros H; simpl; [reflexivity|].
  rewrite (includes_fresh l o n) by (apply H, list_elem_of_here).
  apply IH. intros x Hx. apply H, list_elem_of_further, Hx.
Qed.

(** X23. When the pane moves to a path for which nothing is cached and the
    listing succeeds, the fresh objects become the listing and no item stays
    chosen: the chosen items are compared by identity with objects that
    were just made.  The selection index is left as it was.  (Objects in
    hand are older than the next one to be made.) *)
Theorem componentDidUpdate_fresh_listing {World} (fs : FileSystem World)
    (prevPath : string) (prevState : IDirectoryListState) (this : DirectoryList World)
    (l : list IDirectoryItem) :
  prevPath <> props_path this ->
  watchable fs (props_path this) (world (sys this)) = true ->
  cachedNavigations (model this) !! props_path this = None ->
  readDirectory fs (props_path this) (world (sys this)) = Ok l ->
  (forall o, o ∈ chosenItems (state this) -> fst o < next_object (sys this)) ->
  let updated := componentDidUpdate fs prevPath prevState this in
  snd updated = Ok tt
  /\ directoryItems (state (fst updated))
     = zip (seq (next_object (sys this)) (List.length l)) l
  /\ chosenItems (state (fst updated)) = []
  /\ selectedIndex (state (fst updated)) = selectedIndex (state this)
  /\ next_object (sys (fst updated)) = next_object (sys this) + List.length l.
Proof.
  intros Hne Hw Hcache Hread Hold updated. subst updated.
  assert (He : String.eqb prevPath (props_path this) = false).
  { apply String.eqb_neq. exact Hne. }
  unfold componentDidUpdate, bind, getThis, ui, setState, watchPath, rethrow,
    liftSys, startWatching, popCachedNavigation, listDirectoryObjects, ret, call.
  simpl. rewrite He. simpl.
  destruct (itemDeleted prevState); simpl; rewrite Hw; simpl; rewrite Hcache; simpl;
    rewrite Hread; simpl; rewrite (keep_includes_fresh l _ _ Hold); auto.
Qed.

Lemma componentDidUpdate_restores_cached_witness :
  let this := Runs.arriving Runs.cached_t in
  let updated := componentDidUpdate Runs.t_fs "/" (state this) this in
  snd updated = Ok tt
  /\ directoryItems (state (fst updated)) = [(1, Examples.file_1); (2, Examples.file_2)]
  /\ selectedIndex (state (fst updated)) = 1%Z
  /\ chosenItems (state (fst updated))
     = keep (includes [(1, Examples.file_1); (2, Examples.file_2)])
         (chosenItems (state this))
  /\ cachedNavigations (model (fst updated)) !! "/t" = None
  /\ calls (sys (fst updated))
     = [CSetItemCount 1; CSetChosenCount 2; CWatch "/t" true].
Proof.
  apply (componentDidUpdate_restores_cached Runs.t_fs "/"
           (state (Runs.arriving Runs.cached_t)) (Runs.arriving Runs.cached_t)
           1%Z [(1, Examples.file_1); (2, Examples.file_2)]).
  - discriminate.
  - reflexivity.
  - reflexivity.
Defined.

Lemma componentDidUpdate_fresh_listing_witness :
  let this := Runs.arriving ∅ in
  let updated := componentDidUpdate Runs.t_fs "/" (state this) this in
  snd updated = Ok tt
  /\ directoryItems (state (fst updated))
     = [(8, Examples.file_1); (9, Examples.file_2); (10, Examples.file_3)]
  /\ chosenItems (state (fst updated)) = []
  /\ selectedIndex (state (fst updated)) = 0%Z
  /\ next_object (sys (fst updated)) = 11.
Proof.
  apply (componentDidUpdate_fresh_listing Runs.t_fs "/" (state (Runs.arriving ∅))
           (Runs.arriving ∅) [Examples.file_1; Examples.file_2; Examples.file_3]).
  - discriminate.
  - reflexivity.
  - reflexivity.
  - reflexivity.
  - intros o Ho. apply elem_of_cons in Ho as [->|Ho]; [simpl; lia|].
    apply list_elem_of_singleton in Ho. subst o. simpl. lia.
Defined.

(** ** Mounting and unmounting *)

(** X27. [componentDidMount] sets the watch before it lists.  If the watch
    cannot be set it throws "Could not set watcher" and lists nothing.  If
    the watch is set, the directory is listed once; when that listing fails
    the error is passed on, the pane's state is untouched and the watcher
    stays open.  In both cases [componentWillUnmount] closes that watcher
    and leaves open the watchers that were open before the mount.  (Watcher
    identities are fresh: those open are below the next one.) *)
Theorem componentDidMount_outcomes {World} (fs : FileSystem World)
    (this : DirectoryList World) :
  let p := props_path this in
  let mounted := componentDidMount fs this in
  let made := drop (List.length (calls (sys this))) (calls (sys (fst mounted))) in
  (watchable fs p (world (sys this)) = false ->
   snd mounted = Throw (DirectoryError "Could not set watcher" p None)
   /\ made = [CWatch p false]
   /\ state (fst mounted) = state this
   /\ open_watchers (sys (fst mounted)) = open_watchers (sys this))
  /\ (watchable fs p (world (sys this)) = true ->
      made = [CWatch p true; CList p]
      /\ open_watchers (sys (fst mounted))
         = open_watchers (sys this) ++ [(next_watcher (sys this), p)]
      /\ match readDirectory fs p (world (sys this)) with
         | Ok l =>
             snd mounted = Ok tt
             /\ state (fst mounted)
                = set_directoryItems
                    (zip (seq (next_object (sys this)) (List.length l)) l) (state this)
         | Throw e => snd mounted = Throw e /\ state (fst mounted) = state this
         end
      /\ ((forall e, e ∈ open_watchers (sys this) -> fst e < next_watcher (sys this)) ->
          open_watchers (sys (fst (componentWillUnmount (fst mounted))))
          = open_watchers (sys this))).
Proof.
  intros p mounted made. subst mounted made.
  unfold componentDidMount, componentWillUnmount, bind, getThis, watchPath, rethrow,
    liftSys, startWatching, stopWatching, listDirectoryObjects, setState, call.
  fold p. split; intros Hw; rewrite Hw; simpl.
  - rewrite drop_app_length. auto.
  - destruct (readDirectory fs p (world (sys this))) as [l|e]; simpl;
      rewrite <- app_assoc; simpl; rewrite drop_app_length;
      (split; [reflexivity|]); (split; [reflexivity|]); (split; [auto|]);
      intros Hfresh; rewrite filter_app, (filter_other_watchers _ _ Hfresh);
      rewrite filter_cons_False, filter_nil, app_nil_r
        by (simpl; rewrite Nat.eqb_refl; simpl; tauto);
      reflexivity.
Qed.

Lemma componentDidMount_outcomes_witness :
  let this := Runs.listed_pane Runs.t_disk in
  let mounted := componentDidMount Runs.t_fs this in
  calls (sys (fst mounted)) = [CWatch "/t" true; CList "/t"]
  /\ open_watchers (sys (fst mounted)) = [(0, "/t")]
  /\ open_watchers (sys (fst (componentWillUnmount (fst mounted)))) = [].
Proof.
  intros this mounted.
  destruct (componentDidMount_outcomes Runs.t_fs this) as (_ & H).
  destruct H as (H1 & H2 & _ & H4); [reflexivity|].
  split; [exact H1|]. split; [exact H2|].
  apply H4. intros e He. inversion He.
Defined.

Lemma selectItem_by_name_witness :
  snd (selectItem "left" Examples.file_3 (Runs.listed_pane Runs.unlocked)) = Ok "left".
Proof.
  destruct (selectItem_by_name "left" Examples.file_3 (Runs.listed_pane Runs.unlocked))
    as (H & _).
  exact H.
Defined.

Lemma componentDidUpdate_same_path_witness :
  let this := Runs.listed_pane Runs.t_disk in
  let updated := componentDidUpdate Runs.t_fs "/t" (state this) this in
  snd updated = Ok tt
  /\ state (fst updated) = state this
  /\ model (fst updated) = model this
  /\ calls (sys (fst updated)) = [CSetItemCount 3; CSetChosenCount 0].
Proof.
  intros this updated.
  destruct (componentDidUpdate_same_path Runs.t_fs (state this) this)
    as (_ & _ & _ & H).
  destruct H as (H1 & H2 & H3 & H4); try reflexivity.
  split; [exact H1|]. split; [exact H2|]. split; [exact H3|exact H4].
Defined.

(** ** Deleting the selection *)

(** What [delete] does once the user has confirmed. *)
Lemma DirectoryList_delete_confirmed {World} (fs : FileSystem World) parseItemType
    confirmationDialog order (this : DirectoryList World) items :
  selectedItems (state this) (nonHiddenDirectoryItems (state this)) = Some items ->
  confirmationDialog (delete_question items) = true ->
  DirectoryList_delete fs parseItemType confirmationDialog order this
  = match deleteItems fs parseItemType order (map snd items)
            (call (CTrace ("Requesting to delete " +:+ joined_paths items))
               (world (sys this)) (sys this)) with
    | (st, Ok _) =>
        (mkDL (props_path this)
           (set_selectedIndex 0%Z (set_itemDeleted true (state this)))
           (model this) (call (CNotify "Deleted items") (world st) st), Ok tt)
    | (st, Throw e) => (mkDL (props_path this) (state this) (model this) st, Throw e)
    end.
Proof.
  intros Hsel Hconfirm.
  unfold DirectoryList_delete, bind, getThis. rewrite Hsel, Hconfirm.
  unfold ui, liftSys, refreshAfterDelete, setState. simpl.
  destruct (deleteItems fs parseItemType order (map snd items) _) as [st [[]|e]];
    reflexivity.
Qed.

(** X17. [delete] (Shift+Delete in the pane).  With nothing chosen and the
    selection on no item it throws a [TypeError] at once.  When the user
    declines, nothing happens.  When the user confirms, the trace line is
    followed by the deletions of the selected items and they are all that
    reaches the file system.  If one deletion fails, [delete] throws the
    error of that deletion, which is the call made last, the deletions not
    completed yet stay in flight, the pane's state is untouched and nothing
    more is called.  If all succeed, the pane is marked for refresh with the
    selection back at 0 and "Deleted items" is the call made last.  The
    model and the path never change. *)
Theorem DirectoryList_delete_outcomes {World} (fs : FileSystem World)
    (parseItemType : IDirectoryItem -> ItemType) (confirmationDialog : string -> bool)
    (order : list nat) (this : DirectoryList World) :
  let deleted := DirectoryList_delete fs parseItemType confirmationDialog order this in
  let made := drop (List.length (calls (sys this))) (calls (sys (fst deleted))) in
  (selectedItems (state this) (nonHiddenDirectoryItems (state this)) = None ->
   deleted = (this, Throw (TypeError "Cannot read property 'name' of undefined")))
  /\ (forall items,
        selectedItems (state this) (nonHiddenDirectoryItems (state this)) = Some items ->
        confirmationDialog (delete_question items) = false ->
        deleted = (this, Ok tt))
  /\ model (fst deleted) = model this
  /\ props_path (fst deleted) = props_path this
  /\ (forall items,
        selectedItems (state this) (nonHiddenDirectoryItems (state this)) = Some items ->
        confirmationDialog (delete_question items) = true ->
        in_flight (sys this) = [] ->
        exists settled pending : list IDirectoryItem,
          Permutation (settled ++ pending) (map snd items)
          /\ let first := effects fs (map (deletion parseItemType) settled)
                            (world (sys this)) in
             let deletions :=
               zip_with io_call (map (deletion parseItemType) settled) (snd first) in
             world (sys (fst deleted)) = fst first
             /\ in_flight (sys (fst deleted))
                = map (fun i => deleteItem (path i) (parseItemType i)) pending
             /\ batch_outcome (fun i => deletion_error (parseItemType i) (path i))
                  settled (snd first) pending (snd deleted)
             /\ match snd deleted with
                | Ok _ =>
                    state (fst deleted)
                    = set_selectedIndex 0%Z (set_itemDeleted true (state this))
                    /\ made = CTrace ("Requesting to delete " +:+ joined_paths items)
                              :: deletions ++ [CNotify "Deleted items"]
                | Throw _ =>
                    state (fst deleted) = state this
                    /\ made = CTrace ("Requesting to delete " +:+ joined_paths items)
                              :: deletions
                end).
Proof.
  intros deleted made.
  destruct (selectedItems (state this) (nonHiddenDirectoryItems (state this)))
    as [items|] eqn:Hsel.
  - destruct (confirmationDialog (delete_question items)) eqn:Hconfirm.
    + pose proof (DirectoryList_delete_confirmed fs parseItemType confirmationDialog
                    order this items Hsel Hconfirm) as Heq.
      fold deleted in Heq.
      set (st0 := call (CTrace ("Requesting to delete " +:+ joined_paths items))
                    (world (sys this)) (sys this)) in *.
      assert (Hparts : model (fst deleted) = model this
                       /\ props_path (fst deleted) = props_path this).
      { rewrite Heq.
        destruct (deleteItems fs parseItemType order (map snd items) st0)
          as [st [[]|e]]; split; reflexivity. }
      destruct Hparts as [Hm Hp].
      split; [discriminate|]. split; [intros ? Hi; inversion Hi; subst; congruence|].
      split; [exact Hm|]. split; [exact Hp|].
      intros items' Hi _ Hfl. inversion Hi. subst items'. clear Hi.
      destruct (deleteItems_settled fs parseItemType order (map snd items) st0 Hfl)
        as (settled & pending & Hperm & Hw & Hc & Hf & Hout).
      exists settled, pending. split; [exact Hperm|].
      subst made. clearbody deleted. subst deleted.
      destruct (deleteItems fs parseItemType order (map snd items) st0)
        as [st [[]|e]]; simpl in *.
      * split; [exact Hw|]. split; [exact Hf|]. split; [exact Hout|].
        split; [reflexivity|].
        rewrite Hc, <- !app_assoc. simpl. apply drop_app_length.
      * split; [exact Hw|]. split; [exact Hf|]. split; [exact Hout|].
        split; [reflexivity|].
        rewrite Hc, <- !app_assoc. simpl. apply drop_app_length.
    + assert (Heq : deleted = (this, Ok tt)).
      { unfold deleted, DirectoryList_delete, bind, getThis.
        rewrite Hsel, Hconfirm. reflexivity. }
      subst made. clearbody deleted. subst deleted. simpl.
      split; [discriminate|]. split; [reflexivity|]. split; [reflexivity|].
      split; [reflexivity|].
      intros items' Hi Hc. inversion Hi. subst. congruence.
  - assert (Heq : deleted
                  = (this, Throw (TypeError "Cannot read property 'name' of undefined"))).
    { unfold deleted, DirectoryList_delete, bind, getThis. rewrite Hsel. reflexivity. }
    subst made. clearbody deleted. subst deleted. simpl.
    split; [reflexivity|]. split; [discriminate|]. split; [reflexivity|].
    split; [reflexivity|]. discriminate.
Qed.

Lemma DirectoryList_delete_outcomes_witness :
  let this := Runs.listed_pane Examples.second_locked in
  let chosen := mkDL (props_path this)
                  (set_chosenItems [(1, Examples.file_1); (2, Examples.file_2);
                                    (3, Examples.file_3)] (state this))
                  (model this) (sys this) in
  let refused :=
    DirectoryList_delete Examples.disk_fs Examples.kind_of (fun _ => false) [0] this in
  let failed :=
    DirectoryList_delete Examples.disk_fs Examples.kind_of (fun _ => true) [0; 1] chosen in
  let passed :=
    DirectoryList_delete Examples.disk_fs Examples.kind_of (fun _ => true) [0]
      (Runs.listed_pane Runs.unlocked) in
  refused = (this, Ok tt)
  /\ (exists settled pending : list IDirectoryItem,
        Permutation (settled ++ pending) Examples.three_files
        /\ let first := effects Examples.disk_fs (map (deletion Examples.kind_of) settled)
                          Examples.second_locked in
           let deletions :=
             zip_with io_call (map (deletion Examples.kind_of) settled) (snd first) in
           world (sys (fst failed)) = fst first
           /\ in_flight (sys (fst failed))
              = map (fun i => deleteItem (path i) (Examples.kind_of i)) pending
           /\ batch_outcome (fun i => deletion_error (Examples.kind_of i) (path i))
                settled (snd first) pending (snd failed)
           /\ match snd failed with
              | Ok _ =>
                  state (fst failed)
                  = set_selectedIndex 0%Z (set_itemDeleted true (state chosen))
                  /\ calls (sys (fst failed))
                     = CTrace "Requesting to delete /t/1, /t/2, /t/3"
                       :: deletions ++ [CNotify "Deleted items"]
              | Throw _ =>
                  state (fst failed) = state chosen
                  /\ calls (sys (fst failed))
                     = CTrace "Requesting to delete /t/1, /t/2, /t/3" :: deletions
              end)
  /\ snd failed = Throw (DirectoryError "Cannot remove file" "/t/2" None)
  /\ calls (sys (fst failed))
     = [CTrace "Requesting to delete /t/1, /t/2, /t/3"; CUnlink "/t/1" true;
        CUnlink "/t/2" false]
  /\ in_flight (sys (fst failed)) = [deleteItem "/t/3" file]
  /\ snd passed = Ok tt
  /\ calls (sys (fst passed))
     = [CTrace "Requesting to delete /t/2"; CUnlink "/t/2" true; CNotify "Deleted items"].
Proof.
  intros this chosen refused failed passed.
  destruct (DirectoryList_delete_outcomes Examples.disk_fs Examples.kind_of
              (fun _ => false) [0] this) as (_ & H & _).
  destruct (DirectoryList_delete_outcomes Examples.disk_fs Examples.kind_of
              (fun _ => true) [0; 1] chosen) as (_ & _ & _ & _ & H').
  split; [apply (H [(2, Examples.file_2)]); reflexivity|].
  split; [|repeat split].
  apply (H' [(1, Examples.file_1); (2, Examples.file_2); (3, Examples.file_3)]);
    reflexivity.
Defined.

(** ** Pasting *)

(** X20. [pasteFromClipboard] never changes the clipboard, not even after
    a cut that succeeded: the same items stay ready to be pasted again.
    When a paste fails (an action without items, a copy or move that fails,
    or the listing afterwards), the pane's state keeps its listing and no
    notification is sent. *)
Theorem pasteFromClipboard_keeps_clipboard {World} (fs : FileSystem World)
    (parseItemType : IDirectoryItem -> ItemType) (order : list nat)
    (this : DirectoryList World) :
  let pasted := pasteFromClipboard fs parseItemType order this in
  let made := drop (List.length (calls (sys this))) (calls (sys (fst pasted))) in
  model (fst pasted) = model this
  /\ props_path (fst pasted) = props_path this
  /\ (is_ok (snd pasted) = false ->
      state (fst pasted) = state this
      /\ Forall (fun c => is_notify c = false) made).
Proof.
  intros pasted made. subst pasted made.
  unfold pasteFromClipboard, bind, getThis, throw, ret.
  destruct (clipboardAction (model this)) as [[|]|];
    [destruct (clipboardItems (model this)) as [items|]..|]; simpl.
  - unfold ui, liftSys, setState, listDirectoryObjects, copyItems. simpl.
    destruct (promise_all_calls fs order []
                (map (fun i => copyItem fs (path i) (props_path this)) (map snd items))
                (call (CTrace ("Requesting to copy " +:+ joined_paths items +:+ " to "
                                 +:+ props_path this)) (world (sys this)) (sys this)))
      as ((made & Hc & Hall) & _).
    destruct (promise_all fs order _ _) as [st [[]|e]]; simpl in *.
    + destruct (readDirectory fs (props_path this) (world st)) as [l|e]; simpl.
      * split; [reflexivity|]. split; [reflexivity|]. discriminate.
      * split; [reflexivity|]. split; [reflexivity|]. intros _. split; [reflexivity|].
        rewrite Hc, <- !app_assoc. simpl. rewrite drop_app_length.
        constructor; [reflexivity|]. apply Forall_app. split; [exact Hall|].
        repeat constructor.
    + split; [reflexivity|]. split; [reflexivity|]. intros _. split; [reflexivity|].
      rewrite Hc, <- !app_assoc. simpl. rewrite drop_app_length.
      constructor; [reflexivity|exact Hall].
  - split; [reflexivity|]. split; [reflexivity|]. intros _. split; [reflexivity|].
    rewrite drop_all. constructor.
  - unfold ui, liftSys, setState, listDirectoryObjects, moveItems. simpl.
    destruct (promise_all_calls fs order []
                (map (fun i => moveItem fs (path i) (props_path this) (parseItemType i))
                   (map snd items))
                (call (CTrace ("Requesting to move " +:+ joined_paths items
                                 +:+ " to [object Object]"))
                   (world (sys this)) (sys this)))
      as ((made & Hc & Hall) & _).
    destruct (promise_all fs order _ _) as [st [[]|e]]; simpl in *.
    + destruct (readDirectory fs (props_path this) (world st)) as [l|e]; simpl.
      * split; [reflexivity|]. split; [reflexivity|]. discriminate.
      * split; [reflexivity|]. split; [reflexivity|]. intros _. split; [reflexivity|].
        rewrite Hc, <- !app_assoc. simpl. rewrite drop_app_length.
        constructor; [reflexivity|]. apply Forall_app. split; [exact Hall|].
        repeat constructor.
    + split; [reflexivity|]. split; [reflexivity|]. intros _. split; [reflexivity|].
      rewrite Hc, <- !app_assoc. simpl. rewrite drop_app_length.
      constructor; [reflexivity|exact Hall].
  - split; [reflexivity|]. split; [reflexivity|]. intros _. split; [reflexivity|].
    rewrite drop_all. constructor.
  - split; [reflexivity|]. split; [reflexivity|]. discriminate.
Qed.

(** After a cut has been pasted, the clipboard still holds the cut: pasting
    again tries to move the source that is gone, and fails. *)
Example paste_cut_twice :
  let once := pasteFromClipboard Examples.disk_fs Examples.kind_of [0]
                (Examples.pane_with cut) in
  let twice := pasteFromClipboard Examples.disk_fs Examples.kind_of [0] (fst once) in
  snd once = Ok tt
  /\ clipboardAction (model (fst once)) = Some cut
  /\ snd twice = Throw (DirectoryError "Failed to copy item" "/t/1" (Some "/dst")).
Proof. repeat split. Qed.

Lemma pasteFromClipboard_keeps_clipboard_witness :
  model (fst (pasteFromClipboard Examples.disk_fs Examples.kind_of [0]
                (Examples.pane_with cut)))
  = model (Examples.pane_with cut).
Proof.
  destruct (pasteFromClipboard_keeps_clipboard Examples.disk_fs Examples.kind_of [0]
              (Examples.pane_with cut)) as (H & _).
  exact H.
Defined.


(** ** Going into a directory and coming back *)

Lemma receivePath_eq {World} (fs : FileSystem World) newPath (this : DirectoryList World) :
  receivePath fs newPath this
  = componentDidUpdate fs (props_path this) (state this)
      (mkDL newPath (state this) (model this) (sys this)).
Proof. reflexivity. Qed.

(** What [componentDidUpdate] leaves alone: the path, the world, and the
    cached navigations of other paths. *)
Lemma componentDidUpdate_frame {World} (fs : FileSystem World) prevPath prevState
    (this : DirectoryList World) (q : string) :
  q <> props_path this ->
  let updated := fst (componentDidUpdate fs prevPath prevState this) in
  props_path updated = props_path this
  /\ world (sys updated) = world (sys this)
  /\ cachedNavigations (model updated) !! q = cachedNavigations (model this) !! q.
Proof.
  intros Hq.
  unfold componentDidUpdate, bind, getThis, ui, setState, watchPath, rethrow,
    liftSys, startWatching, popCachedNavigation, listDirectoryObjects, ret, call.
  simpl.
  destruct (String.eqb prevPath (props_path this)); simpl;
    destruct (creatingNewItem prevState) as [t|]; simpl;
    destruct (renamingItem prevState); simpl;
    destruct (itemDeleted (state this)); simpl;
    destruct (itemDeleted prevState); simpl;
    try (destruct (watchable fs (props_path this) (world (sys this))); simpl);
    try (destruct (cachedNavigations (model this) !! props_path this) as [[i l]|]; simpl);
    try (destruct (readDirectory fs (props_path this) (world (sys this))); simpl);
    rewrite ?lookup_delete_ne by congruence; auto.
Qed.

Lemma pane_events_frame {World} (fs : FileSystem World) (q : string) es :
  forall this : DirectoryList World,
  q <> props_path this ->
  props_path (pane_events fs es this) = props_path this
  /\ world (sys (pane_events fs es this)) = world (sys this)
  /\ cachedNavigations (model (pane_events fs es this)) !! q
     = cachedNavigations (model this) !! q.
Proof.
  induction es as [|e es IH]; intros this Hq; simpl; [auto|].
  assert (Hstep : props_path (fst (pane_event fs e this)) = props_path this
                  /\ world (sys (fst (pane_event fs e this))) = world (sys this)
                  /\ cachedNavigations (model (fst (pane_event fs e this))) !! q
                     = cachedNavigations (model this) !! q).
  { destruct e as [f|prevState]; simpl; [auto|].
    apply (componentDidUpdate_frame fs (props_path this) prevState this q Hq). }
  destruct Hstep as (H1 & H2 & H3).
  destruct (IH (fst (pane_event fs e this))) as (H4 & H5 & H6); [congruence|].
  split; [congruence|]. split; congruence.
Qed.

(** X26. Going into a directory with [goIn] from a pane whose listing is
    not empty, and coming back to the path that was left, brings back the
    very listing and selection the pane had, without listing that path
    again: the update on return only reports the counts and sets the watch.
    This holds whatever the listing of the directory entered gave, its
    failure included, and whatever state changes and updates the pane went
    through while it stayed there.  From a pane with an empty listing
    nothing is cached. *)
Theorem goIn_and_back_restores {World} (fs : FileSystem World) (child : string)
    (events : list PaneEvent) (this : DirectoryList World) :
  child <> props_path this ->
  watchable fs (props_path this) (world (sys this)) = true ->
  let entered := fst (receivePath fs child (fst (goIn child this))) in
  let stayed := pane_events fs events entered in
  let back := receivePath fs (props_path this) stayed in
  snd (goIn child this) = Ok [ScrollTop; SendPathUp child]
  /\ selectedIndex (state (fst (goIn child this))) = 0%Z
  /\ (directoryItems (state this) = [] -> model (fst (goIn child this)) = model this)
  /\ (directoryItems (state this) <> [] ->
      snd back = Ok tt
      /\ directoryItems (state (fst back)) = directoryItems (state this)
      /\ selectedIndex (state (fst back)) = selectedIndex (state this)
      /\ calls (sys (fst back))
         = calls (sys stayed)
           ++ [CSetItemCount (List.length (nonHiddenDirectoryItems (state stayed)));
               CSetChosenCount (List.length (chosenItems (state stayed)));
               CWatch (props_path this) true]).
Proof.
  intros Hne Hw entered stayed back.
  set (gone := fst (goIn child this)) in *.
  assert (Hres : snd (goIn child this) = Ok [ScrollTop; SendPathUp child]
                 /\ selectedIndex (state gone) = 0%Z).
  { unfold gone, goIn, bind, getThis, cacheNavigation, setState, ret.
    destruct (directoryItems (state this)); simpl; auto. }
  destruct Hres as [Hr Hs]. split; [exact Hr|]. split; [exact Hs|].
  split.
  { intros Hempty. unfold gone, goIn, bind, getThis, cacheNavigation, setState, ret.
    rewrite Hempty. reflexivity. }
  intros Hitems.
  assert (Hgone : gone
                  = mkDL (props_path this) (set_selectedIndex 0%Z (state this))
                      (mkModel (clipboardAction (model this)) (clipboardItems (model this))
                         (<[props_path this
                            := (selectedIndex (state this), directoryItems (state this))]>
                            (cachedNavigations (model this))))
                      (sys this)).
  { unfold gone, goIn, bind, getThis, cacheNavigation, setState, ret.
    destruct (directoryItems (state this)); [contradiction|reflexivity]. }
  assert (Hentered : props_path entered = child
                     /\ world (sys entered) = world (sys this)
                     /\ cachedNavigations (model entered) !! props_path this
                        = Some (selectedIndex (state this), directoryItems (state this))).
  { unfold entered. rewrite receivePath_eq.
    destruct (componentDidUpdate_frame fs (props_path gone) (state gone)
                (mkDL child (state gone) (model gone) (sys gone)) (props_path this))
      as (H1 & H2 & H3); [simpl; congruence|].
    split; [exact H1|]. split; [rewrite H2, Hgone; reflexivity|].
    rewrite H3, Hgone. simpl. apply lookup_insert_eq. }
  destruct Hentered as (Hp & Hworld & Hcache).
  destruct (pane_events_frame fs (props_path this) events entered)
    as (Hp' & Hworld' & Hcache'); [congruence|].
  fold stayed in Hp', Hworld', Hcache'.
  subst back. rewrite receivePath_eq.
  destruct (componentDidUpdate_cached fs (props_path stayed) (state stayed)
              (mkDL (props_path this) (state stayed) (model stayed) (sys stayed))
              (selectedIndex (state this)) (directoryItems (state this)))
    as (H1 & H2 & H3 & _ & _ & H6); simpl; auto.
  - rewrite Hp', Hp. exact Hne.
  - rewrite Hworld', Hworld. exact Hw.
  - rewrite Hcache'. exact Hcache.
Qed.

Lemma goIn_and_back_restores_witness :
  let this := Runs.home in
  let events := [StateSet (set_selectedIndex 5%Z); Updated (state this)] in
  let entered := fst (receivePath Runs.home_fs "/t/d" (fst (goIn "/t/d" this))) in
  let stayed := pane_events Runs.home_fs events entered in
  let back := receivePath Runs.home_fs "/t" stayed in
  snd (receivePath Runs.home_fs "/t/d" (fst (goIn "/t/d" this))) = Ok tt
  /\ directoryItems (state entered) = []
  /\ snd back = Ok tt
  /\ directoryItems (state (fst back)) = directoryItems (state this)
  /\ selectedIndex (state (fst back)) = 1%Z
  /\ calls (sys (fst back))
     = calls (sys stayed) ++ [CSetItemCount 0; CSetChosenCount 0; CWatch "/t" true].
Proof.
  intros this events entered stayed back.
  destruct (goIn_and_back_restores Runs.home_fs "/t/d" events this)
    as (_ & _ & _ & H).
  - discriminate.
  - reflexivity.
  - destruct H as (H3 & H4 & H5 & H6); [discriminate|].
    split; [reflexivity|]. split; [reflexivity|]. split; [exact H3|].
    split; [exact H4|]. split; [exact H5|exact H6].
Defined.
